(** * Cherry Studio: CherryIN OAuth token lifecycle and mini-app region filter

    A shallow embedding of
      - [src/renderer/src/hooks/useMinapps.ts]       (modules [Minapps],
                                                       [Region]),
      - [src/main/services/CherryINOAuthService.ts]  (module [Service]),
      - [src/renderer/src/utils/oauth.ts]            (modules [Pkce], [Flow],
                                                       [Ppio]),
      - [src/renderer/src/pages/settings/ProviderSettings/CherryINOAuth.tsx]
                                                      (module [Avatar]),
    over a small model of JavaScript values, of binary64 arithmetic and of
    code that throws (modules [Js], [Double], [JsString]), followed by the
    properties proved about them.  Part I
    holds the definitions, Part II the lemmas and theorems.  Calls to the
    logger have no effect on what is modelled and are left out. *)

From Stdlib Require Import ZArith QArith Qround Lia Lqa.
From Stdlib Require Import SpecFloat.
From Stdlib.Strings Require Import Byte Ascii.
From stdpp Require Import base gmap strings list fin_maps.

Set Warnings "-register-all".
#[local] Open Scope string_scope.
#[local] Open Scope list_scope.

(* ===================================================================== *)
(** * Part I.  Definitions                                                *)
(* ===================================================================== *)

(** ** useMinapps.ts *)
Module Minapps.

(** [SupportedRegion] of [@renderer/types]: the two region tags. *)
Inductive SupportedRegion := CN | Global.

#[global] Instance SupportedRegion_eq_dec : EqDecision SupportedRegion.
Proof. solve_decision. Defined.

(** The fields of [MinAppType] the hook reads.  [supportedRegions] is an
    optional field: [None] is the absent field. *)
Record MinAppType := mkMinApp {
  id : string;
  name : string;
  url : string;
  supportedRegions : option (list SupportedRegion)
}.

#[global] Instance MinAppType_eq_dec : EqDecision MinAppType.
Proof. solve_decision. Defined.

(** [Array.prototype.includes] *)
Definition includes {A} `{EqDecision A} (l : list A) (x : A) : bool :=
  bool_decide (x ∈ l).

Definition isVisibleForRegion (app : MinAppType) (region : SupportedRegion) : bool :=
  match region with
  | CN => true
  | Global =>
      match supportedRegions app with
      | None => false
      | Some rs =>
          if (length rs =? 0)%nat then false else includes rs Global
      end
  end.

Definition filterByRegion (apps : list MinAppType) (region : SupportedRegion)
  : list MinAppType :=
  List.filter (fun app => isVisibleForRegion app region) apps.

(** [new Set(xs.map((app) => app.id))] and [Set.prototype.has]. *)
Definition idSet (apps : list MinAppType) : gset string :=
  list_to_set (map id apps).

Definition has (s : gset string) (k : string) : bool := bool_decide (k ∈ s).

(** [Array.prototype.find] *)
Definition find {A} (p : A -> bool) (l : list A) : option A := List.find p l.

(** The [minAppRegion] setting: ['auto'] or a fixed region. *)
Inductive MinAppRegionSetting := Auto | Fixed (r : SupportedRegion).

(** What the hook selects from the Redux store. *)
Record Store := mkStore {
  enabled : list MinAppType;
  disabled : list MinAppType;
  pinned : list MinAppType;
  minAppRegion : MinAppRegionSetting;
  detectedRegion : option SupportedRegion
}.

(** The actions the hook dispatches, with their payload. *)
Inductive Action :=
| setMinApps (payload : list MinAppType)
| setDisabledMinApps (payload : list MinAppType)
| setPinnedMinApps (payload : list MinAppType).

Definition payload (a : Action) : list MinAppType :=
  match a with
  | setMinApps l | setDisabledMinApps l | setPinnedMinApps l => l
  end.

Section Hook.
(** [allMinApps] is imported from [@renderer/config/minapps]; it is the
    template list holding the region definitions. *)
Variable allMinApps : list MinAppType.
Variable st : Store.

Definition getRegionHiddenApps (region : SupportedRegion) : list MinAppType :=
  List.filter (fun app => negb (isVisibleForRegion app region)) allMinApps.

Definition effectiveRegion : SupportedRegion :=
  match minAppRegion st with
  | Auto => default CN (detectedRegion st)
  | Fixed r => r
  end.

Definition mapApps (apps : list MinAppType) : list MinAppType :=
  map (fun app =>
         default app (find (fun item => bool_decide (id item = id app)) allMinApps))
      apps.

Definition getAllApps (apps disabledApps : list MinAppType) : list MinAppType :=
  let mappedApps := mapApps apps in
  let existingIds := idSet mappedApps in
  let disabledIds := idSet disabledApps in
  let missingApps :=
    List.filter (fun app => negb (has existingIds (id app))
                            && negb (has disabledIds (id app))) allMinApps in
  mappedApps ++ missingApps.

(** READ path *)
Definition minapps : list MinAppType :=
  let allApps := getAllApps (enabled st) (disabled st) in
  let disabledIds := idSet (disabled st) in
  let withoutDisabled :=
    List.filter (fun app => negb (has disabledIds (id app))) allApps in
  filterByRegion withoutDisabled effectiveRegion.

Definition disabledApps : list MinAppType :=
  filterByRegion (mapApps (disabled st)) effectiveRegion.

Definition pinnedApps : list MinAppType := mapApps (pinned st).

Definition getHiddenApps (region : SupportedRegion) : gset string :=
  let regionHidden := getRegionHiddenApps region in
  let hiddenIds := idSet regionHidden in
  hiddenIds.

(** WRITE path *)
Definition updateMinapps (visibleApps : list MinAppType) : Action :=
  let disabledIds := idSet (disabled st) in
  let withoutDisabled :=
    List.filter (fun app => negb (has disabledIds (id app))) visibleApps in
  let hiddenIds := getHiddenApps effectiveRegion in
  let preservedHidden :=
    List.filter (fun app => has hiddenIds (id app)
                            && negb (has disabledIds (id app))) (enabled st) in
  let visibleIds := idSet withoutDisabled in
  let toAppend :=
    List.filter (fun app => negb (has visibleIds (id app))) preservedHidden in
  let merged := withoutDisabled ++ toAppend in
  let existingIds := idSet merged in
  let missingApps :=
    List.filter (fun app => negb (has existingIds (id app))
                            && negb (has disabledIds (id app))) allMinApps in
  setMinApps (merged ++ missingApps).

Definition updateDisabledMinapps (visibleDisabledApps : list MinAppType) : Action :=
  let hiddenIds := getHiddenApps effectiveRegion in
  let preservedHidden :=
    List.filter (fun app => has hiddenIds (id app)) (disabled st) in
  let visibleIds := idSet visibleDisabledApps in
  let toAppend :=
    List.filter (fun app => negb (has visibleIds (id app))) preservedHidden in
  setDisabledMinApps (visibleDisabledApps ++ toAppend).

Definition updatePinnedMinapps (visiblePinnedApps : list MinAppType) : Action :=
  let hiddenIds := getHiddenApps effectiveRegion in
  let preservedHidden :=
    List.filter (fun app => has hiddenIds (id app)) (pinned st) in
  let visibleIds := idSet visiblePinnedApps in
  let toAppend :=
    List.filter (fun app => negb (has visibleIds (id app))) preservedHidden in
  setPinnedMinApps (visiblePinnedApps ++ toAppend).
End Hook.

End Minapps.


(** ** JavaScript values shared by the two processes *)
Module Js.

(** A JavaScript number: a finite value as a rational, the two infinities
    and NaN.  The operations [add], [mul] and [div] of this module give the
    exact result of finite operands; module [Double] below rounds it to the
    nearest binary64 value, as the arithmetic of the language does.  The two
    zeros are one value here: the sign of zero is not modelled. *)
Inductive number := Finite (q : Q) | PosInf | NegInf | NaN.

Definition Qpos_bool (q : Q) : bool := negb (Qle_bool q 0).
Definition Qneg_bool (q : Q) : bool := negb (Qle_bool 0 q).

(** [a + b] *)
Definition add (a b : number) : number :=
  match a, b with
  | NaN, _ | _, NaN => NaN
  | PosInf, NegInf | NegInf, PosInf => NaN
  | PosInf, _ | _, PosInf => PosInf
  | NegInf, _ | _, NegInf => NegInf
  | Finite x, Finite y => Finite (x + y)
  end.

(** The infinity with the sign of [neg = false] / [neg = true]. *)
Definition inf (neg : bool) : number := if neg then NegInf else PosInf.

(** [a * b] *)
Definition mul (a b : number) : number :=
  match a, b with
  | NaN, _ | _, NaN => NaN
  | Finite x, Finite y => Finite (x * y)
  | Finite x, PosInf | PosInf, Finite x =>
      if Qeq_bool x 0 then NaN else inf (Qneg_bool x)
  | Finite x, NegInf | NegInf, Finite x =>
      if Qeq_bool x 0 then NaN else inf (Qpos_bool x)
  | PosInf, PosInf | NegInf, NegInf => PosInf
  | PosInf, NegInf | NegInf, PosInf => NegInf
  end.

(** [a / b]: a zero divisor gives NaN or an infinity, never an exception. *)
Definition div (a b : number) : number :=
  match a, b with
  | NaN, _ | _, NaN => NaN
  | Finite x, Finite y =>
      if Qeq_bool y 0
      then (if Qeq_bool x 0 then NaN else inf (Qneg_bool x))
      else Finite (x / y)
  | Finite _, (PosInf | NegInf) => Finite 0
  | PosInf, Finite y => inf (Qneg_bool y)
  | NegInf, Finite y => inf (negb (Qneg_bool y))
  | (PosInf | NegInf), (PosInf | NegInf) => NaN
  end.

(** [a > b] *)
Definition gt (a b : number) : bool :=
  match a, b with
  | NaN, _ | _, NaN => false
  | Finite x, Finite y => negb (Qle_bool x y)
  | PosInf, PosInf => false
  | PosInf, _ => true
  | NegInf, _ => false
  | Finite _, NegInf => true
  | Finite _, PosInf => false
  end.

(** [Math.round]: the nearest integer, a tie going up. *)
Definition Math_round (a : number) : number :=
  match a with
  | Finite x => Finite (inject_Z (Qfloor (x + (1 # 2))))
  | other => other
  end.

(** A value produced by [JSON.parse].  [JObj] lists the own properties of
    the object. *)
Inductive JSON :=
| JNull
| JBool (b : bool)
| JNum (q : Q)
| JStr (s : string)
| JArr (items : list JSON)
| JObj (fields : list (string * JSON)).

(** Lookup in a list of properties. *)
Fixpoint assoc {A} (k : string) (l : list (string * A)) : option A :=
  match l with
  | [] => None
  | (k', v) :: rest => if String.eqb k k' then Some v else assoc k rest
  end.

(** [v.k] for a data property [k]: [None] in the outer option is the
    TypeError of reading a property of [null]; [Some None] is [undefined]. *)
Definition prop (v : JSON) (k : string) : option (option JSON) :=
  match v with
  | JNull => None
  | JObj fields => Some (assoc k fields)
  | _ => Some None
  end.

(** Truthiness of a value that may be [undefined] ([None]). *)
Definition truthy (v : option JSON) : bool :=
  match v with
  | None | Some JNull => false
  | Some (JBool b) => b
  | Some (JNum q) => negb (Qeq_bool q 0)
  | Some (JStr s) => negb (String.eqb s "")
  | Some (JArr _) | Some (JObj _) => true
  end.

(** Truthiness of a string: [!s] is true for the empty string only. *)
Definition nonempty (s : string) : bool := negb (String.eqb s "").

(** [Array.prototype.join] *)
Fixpoint join (sep : string) (l : list string) : string :=
  match l with
  | [] => ""
  | [x] => x
  | x :: rest => x +:+ sep +:+ join sep rest
  end.

Section ToString.
(** [Number.prototype.toString], given by the engine. *)
Variable numberToString : Q → string.

(** The conversion a template literal applies to an embedded value. *)
Fixpoint ToString (v : JSON) : string :=
  match v with
  | JNull => "null"
  | JBool true => "true"
  | JBool false => "false"
  | JNum q => numberToString q
  | JStr s => s
  | JArr items =>
      join "," (map (fun x => match x with JNull => "" | _ => ToString x end) items)
  | JObj _ => "[object Object]"
  end.
End ToString.

(** Errors that are thrown and caught. *)
Inductive JsError :=
| CherryINOAuthServiceError (message : string) (cause : option JsError)
| Error (message : string)
| ZodError
| TypeError
| SystemError (what : string).

(** A [Response] of [fetch]: [text] and [json] are [None] when reading the
    body that way rejects. *)
Record Response := mkResponse {
  status : Z;
  statusText : string;
  text : option string;
  json : option JSON
}.

(** [Response.ok]: a status in the range 200-299. *)
Definition ok (r : Response) : bool :=
  (200 <=? status r)%Z && (status r <=? 299)%Z.

Inductive RequestBody :=
| NoBody
| Form (fields : list (string * string)).   (* [new URLSearchParams({...}).toString()] *)

Record Request := mkRequest {
  req_url : string;
  req_method : option string;
  req_headers : gmap string string;
  req_body : RequestBody
}.

(** What a [fetch] call comes to: a response, or a rejection. *)
Inductive FetchOutcome := Got (r : Response) | NetworkFailure.

(** Result of a computation that may throw. *)
Inductive Outcome (A : Type) := Returned (a : A) | Thrown (e : JsError).
Arguments Returned {A} a.
Arguments Thrown {A} e.

(** Code that acts on a state [S] and returns or throws: the state is
    threaded through, and is kept when an exception is thrown. *)
Definition M (S A : Type) : Type := S → Outcome A * S.

Definition ret {S A} (a : A) : M S A := fun w => (Returned a, w).
Definition throw {S A} (e : JsError) : M S A := fun w => (Thrown e, w).
Definition bind {S A B} (m : M S A) (k : A → M S B) : M S B :=
  fun w =>
    match m w with
    | (Returned a, w') => k a w'
    | (Thrown e, w') => (Thrown e, w')
    end.
(** [try { body } catch (e) { handler e }] *)
Definition try_catch {S A} (body : M S A) (handler : JsError → M S A) : M S A :=
  fun w =>
    match body w with
    | (Returned a, w') => (Returned a, w')
    | (Thrown e, w') => handler e w'
    end.

Notation "x <- m ;; k" := (bind m (fun x => k))
  (at level 100, m at next level, right associativity).
Notation "m ;;; k" := (bind m (fun _ => k))
  (at level 100, right associativity).

(** [!token] for [token : string | null] *)
Definition present (token : option string) : bool :=
  match token with Some t => nonempty t | None => false end.

End Js.


(** ** Binary64 arithmetic *)
Module Double.
Import Js.

(** Every finite double is a whole number of units of [2^-1074]; [1] is
    [unit_den] units, and a magnitude of [overflow_units] units ([2^1024])
    or more is an infinity. *)
Definition unit_den : Z := 2 ^ 1074.
Definition overflow_units : Z := 2 ^ 2098.

(** The integer nearest to [n / d], a tie going to the even one. *)
Definition nearest_even (n d : Z) : Z :=
  let m := (n / d)%Z in
  let r := (n mod d)%Z in
  if (2 * r <? d)%Z then m
  else if (d <? 2 * r)%Z then (m + 1)%Z
  else if Z.even m then m else (m + 1)%Z.

(** The distance between neighbouring doubles around [n / d] units: one
    unit below [2^53] units, and doubling with each power of two after. *)
Definition spacing (n d : Z) : Z := (2 ^ Z.max 0 (Z.log2 (n / d) - 52))%Z.

(** [n / d] units, rounded to the nearest double (53 bits of mantissa),
    ties to even; the result is in units. *)
Definition round_units (n d : Z) : Z :=
  let s := spacing n d in (nearest_even n (d * s) * s)%Z.

(** The double of [u] units. *)
Definition of_units (u : Z) : number := Finite (Qred (u # Z.to_pos unit_den)).

(** The double nearest to [n / d], for [0 <= n] and [0 < d]. *)
Definition round_pos (n d : Z) : number :=
  let u := round_units (n * unit_den) d in
  if (overflow_units <=? u)%Z then PosInf else of_units u.

Definition neg (a : number) : number :=
  match a with
  | Finite q => Finite (- q)
  | PosInf => NegInf
  | NegInf => PosInf
  | NaN => NaN
  end.

(** Round to nearest, ties to even: the double a real number becomes, as
    the result of an operation or as the value of a numeric literal. *)
Definition round64 (q : Q) : number :=
  match Qnum q with
  | Z0 => Finite 0
  | Zpos _ => round_pos (Qnum q) (Zpos (Qden q))
  | Zneg _ => neg (round_pos (- Qnum q) (Zpos (Qden q)))
  end.

#[global] Arguments round64 : simpl never.

Definition rounded (a : number) : number :=
  match a with
  | Finite q => round64 q
  | other => other
  end.

(** [a + b], [a * b] and [a / b] on doubles: the exact result, rounded. *)
Definition add (a b : number) : number := rounded (Js.add a b).
Definition mul (a b : number) : number := rounded (Js.mul a b).
Definition div (a b : number) : number := rounded (Js.div a b).

(** [c] units is a double: a mantissa of 53 bits at most, scaled by a power
    of two. *)
Definition on_grid (c : Z) : Prop :=
  exists m k : Z, (c = m * 2 ^ k /\ 0 <= m < 2 ^ 53 /\ 0 <= k)%Z.

(** A non-negative double, or [Infinity]. *)
Definition double_or_inf (a : number) : Prop :=
  a = PosInf
  \/ exists u : Z, on_grid u /\ (0 <= u < overflow_units)%Z /\ a = of_units u.

(** *** The same arithmetic in the Standard Library's IEEE 754

    [SpecFloat] specifies the operations of the binary formats; binary64 is
    the format of precision 53 and maximal exponent 1024.  The definitions
    below restate the arithmetic above with it, for comparison. *)

(** The value of a [spec_float]. *)
Definition of_spec_float (x : spec_float) : number :=
  match x with
  | S754_zero _ => Finite 0
  | S754_infinity s => if s then NegInf else PosInf
  | S754_nan => NaN
  | S754_finite s m e =>
      let v := if (0 <=? e)%Z then inject_Z (Zpos m * 2 ^ e)
               else (Zpos m # Z.to_pos (2 ^ (- e))) in
      Finite (Qred (if s then - v else v))
  end.

(** The double nearest to [m * 2^e]. *)
Definition SF (m e : Z) : spec_float := binary_normalize 53 1024 m e false.

Definition number_eqb (a b : number) : bool :=
  match a, b with
  | Finite x, Finite y => Qeq_bool x y
  | PosInf, PosInf | NegInf, NegInf | NaN, NaN => true
  | _, _ => false
  end.

(** The percentage of [getUsage], computed with [SpecFloat]. *)
Definition SF_usedPercent (quota used_quota : spec_float) : spec_float :=
  let total := SFadd 53 1024 quota used_quota in
  if SFltb (SF 0 0) total
  then
    let scaled :=
      SFmul 53 1024 (SFdiv 53 1024 used_quota total) (SF 10000 0) in
    match Math_round (of_spec_float scaled) with
    | Finite k => SFdiv 53 1024 (SF (Qfloor k) 0) (SF 100 0)
    | _ => S754_nan
    end
  else SF 0 0.

End Double.


(** ** CherryINOAuthService.ts *)
Module Service.
Import Js.

Definition CONFIG_TOKEN_FILE_NAME : string := ".cherryin_oauth_token".
Definition CONFIG_REFRESH_TOKEN_FILE_NAME : string := ".cherryin_oauth_refresh_token".
Definition CONFIG_CLIENT_ID : string := "2a348c87-bae1-4756-a62f-b2e97200fd6d".

(** What Electron, Node and the network give the service: the two
    [safeStorage] functions ([None] when they throw), the configuration
    directory, the answer of the network to a history of requests (the last
    one being the current request), and whether the k-th promise-based [fs]
    call of a run rejects. *)
Class Host := {
  encryptString : string → option (list byte);
  decryptString : list byte → option string;
  getConfigDir : string;
  net_fetch : list Request → FetchOutcome;
  fs_fault : nat → bool;
  numberToString : Q → string
}.

(** The state the service acts on: the regular files and the directories of
    the disk, and a record of what was done (the [fs] promise calls counted,
    the requests sent and the [writeFile] calls made, oldest first). *)
Record World := mkWorld {
  files : gmap string (list byte);
  dirs : gset string;
  fs_calls : nat;
  requests : list Request;
  writes : list (string * list byte)
}.

Definition set_files (f : gmap string (list byte)) (w : World) : World :=
  mkWorld f (dirs w) (fs_calls w) (requests w) (writes w).
Definition set_dirs (d : gset string) (w : World) : World :=
  mkWorld (files w) d (fs_calls w) (requests w) (writes w).
Definition set_fs_calls (n : nat) (w : World) : World :=
  mkWorld (files w) (dirs w) n (requests w) (writes w).
Definition set_requests (r : list Request) (w : World) : World :=
  mkWorld (files w) (dirs w) (fs_calls w) r (writes w).
Definition set_writes (l : list (string * list byte)) (w : World) : World :=
  mkWorld (files w) (dirs w) (fs_calls w) (requests w) l.

(** An [async] function of the service: it runs on the world and returns or
    throws.  The calls of the service are taken one after the other. *)
Abbreviation M := (Js.M World).

Section Service.
Context `{Host}.

(** *** Node [fs] and [path] *)

Definition path_join (dir file : string) : string := dir +:+ "/" +:+ file.

Definition existsSync (p : string) : M bool :=
  fun w => (Returned (bool_decide (is_Some (files w !! p)) || bool_decide (p ∈ dirs w)), w).

(** One promise-based [fs] call: is it made to fail? *)
Definition fs_call : M bool :=
  fun w => (Returned (fs_fault (fs_calls w)), set_fs_calls (S (fs_calls w)) w).

Definition mkdir (p : string) : M unit :=
  failed <- fs_call ;;
  if failed then throw (SystemError "mkdir")
  else fun w => (Returned tt, set_dirs ({[p]} ∪ dirs w) w).

Definition writeFile (p : string) (data : list byte) : M unit :=
  failed <- fs_call ;;
  fun w =>
    if failed || bool_decide (p ∈ dirs w)
    then (Thrown (SystemError "writeFile"), w)
    else (Returned tt,
          set_writes (writes w ++ [(p, data)]) (set_files (<[p := data]> (files w)) w)).

Definition readFile (p : string) : M (list byte) :=
  failed <- fs_call ;;
  fun w =>
    match files w !! p with
    | Some data =>
        if failed || bool_decide (p ∈ dirs w)
        then (Thrown (SystemError "readFile"), w)
        else (Returned data, w)
    | None => (Thrown (SystemError "readFile"), w)
    end.

Definition unlink (p : string) : M unit :=
  failed <- fs_call ;;
  fun w =>
    match files w !! p with
    | Some _ =>
        if failed || bool_decide (p ∈ dirs w)
        then (Thrown (SystemError "unlink"), w)
        else (Returned tt, set_files (delete p (files w)) w)
    | None => (Thrown (SystemError "unlink"), w)
    end.

(** *** Electron [safeStorage] and [net] *)

(** [safeStorage.encryptString(v)]: a TypeError unless [v] is a string. *)
Definition safeStorage_encryptString (v : option JSON) : M (list byte) :=
  match v with
  | Some (JStr s) =>
      match encryptString s with
      | Some b => ret b
      | None => throw (SystemError "encryptString")
      end
  | _ => throw TypeError
  end.

Definition safeStorage_decryptString (b : list byte) : M string :=
  match decryptString b with
  | Some s => ret s
  | None => throw (SystemError "decryptString")
  end.

(** [net.fetch(...)]: the request is recorded and answered. *)
Definition fetch (r : Request) : M Response :=
  fun w =>
    let history := requests w ++ [r] in
    match net_fetch history with
    | Got resp => (Returned resp, set_requests history w)
    | NetworkFailure => (Thrown (SystemError "net.fetch"), set_requests history w)
    end.

Definition response_text (r : Response) : M string :=
  match text r with Some s => ret s | None => throw (SystemError "text") end.

Definition response_json (r : Response) : M JSON :=
  match json r with Some j => ret j | None => throw (SystemError "json") end.

(** [v.k], throwing the TypeError of a property read on [null]. *)
Definition get_prop (v : JSON) (k : string) : M (option JSON) :=
  match prop v k with Some x => ret x | None => throw TypeError end.

(** *** The service *)

Definition tokenFilePath : string := path_join getConfigDir CONFIG_TOKEN_FILE_NAME.
Definition refreshTokenFilePath : string :=
  path_join getConfigDir CONFIG_REFRESH_TOKEN_FILE_NAME.

Definition saveToken (accessToken refreshToken : option JSON) : M unit :=
  try_catch
    (let dir := getConfigDir in            (* [path.dirname(this.tokenFilePath)] *)
     dirExists <- existsSync dir ;;
     (if negb dirExists then mkdir dir else ret tt) ;;;
     encryptedToken <- safeStorage_encryptString accessToken ;;
     writeFile tokenFilePath encryptedToken ;;;
     (if truthy refreshToken
      then encryptedRefreshToken <- safeStorage_encryptString refreshToken ;;
           writeFile refreshTokenFilePath encryptedRefreshToken
      else ret tt) ;;;
     ret tt)
    (fun error => throw (CherryINOAuthServiceError "Failed to save OAuth token" (Some error))).

Definition getToken : M (option string) :=
  try_catch
    (fileExists <- existsSync tokenFilePath ;;
     if negb fileExists then ret None
     else encryptedToken <- readFile tokenFilePath ;;
          token <- safeStorage_decryptString encryptedToken ;;
          ret (Some token))
    (fun _ => ret None).

Definition getRefreshToken : M (option string) :=
  try_catch
    (fileExists <- existsSync refreshTokenFilePath ;;
     if negb fileExists then ret None
     else encryptedToken <- readFile refreshTokenFilePath ;;
          token <- safeStorage_decryptString encryptedToken ;;
          ret (Some token))
    (fun _ => ret None).

Definition hasToken : M bool := existsSync tokenFilePath.

Definition form_headers : gmap string string :=
  {[ "Content-Type" := "application/x-www-form-urlencoded" ]}.

Definition refresh_request (apiHost refreshToken : string) : Request :=
  {| req_url := apiHost +:+ "/oauth2/token";
     req_method := Some "POST";
     req_headers := form_headers;
     req_body := Form [("grant_type", "refresh_token");
                       ("refresh_token", refreshToken);
                       ("client_id", CONFIG_CLIENT_ID)] |}.

Definition refreshAccessToken (apiHost : string) : M (option JSON) :=
  try_catch
    (refreshToken <- getRefreshToken ;;
     if negb (present refreshToken) then ret None
     else
       response <- fetch (refresh_request apiHost (default "" refreshToken)) ;;
       if negb (ok response)
       then errorText <- response_text response ;; ret None
       else
         tokenData <- response_json response ;;
         newAccessToken <- get_prop tokenData "access_token" ;;
         newRefreshToken <- get_prop tokenData "refresh_token" ;;
         if truthy newAccessToken
         then saveToken newAccessToken newRefreshToken ;;; ret newAccessToken
         else ret None)
    (fun _ => ret None).

(** The [RequestInit] options of [authenticatedFetch]. *)
Record RequestInit := mkInit {
  opt_method : option string;
  opt_headers : gmap string string;
  opt_body : RequestBody
}.

(** [{}], the default of the [options] argument. *)
Definition no_options : RequestInit := mkInit None ∅ NoBody.

(** The inner [makeRequest] of [authenticatedFetch], as a request. *)
Definition api_request (apiHost endpoint : string) (options : RequestInit)
    (accessToken : JSON) : Request :=
  {| req_url := apiHost +:+ endpoint;
     req_method := opt_method options;
     req_headers :=
       <[ "Content-Type" := "application/json" ]>
         (<[ "Authorization" := "Bearer " +:+ ToString numberToString accessToken ]>
            (opt_headers options));
     req_body := opt_body options |}.

Definition authenticatedFetch (apiHost endpoint : string) (options : RequestInit)
  : M Response :=
  token <- getToken ;;
  if negb (present token)
  then throw (CherryINOAuthServiceError "No OAuth token found" None)
  else
    let makeRequest := fun accessToken : JSON =>
      fetch (api_request apiHost endpoint options accessToken) in
    response <- makeRequest (JStr (default "" token)) ;;
    if (status response =? 401)%Z
    then
      newToken <- refreshAccessToken apiHost ;;
      if truthy newToken
      then makeRequest (default JNull newToken)
      else ret response
    else ret response.

(** *** Zod schemas: [parse] returns the parsed data or throws a ZodError *)

Definition z_object (v : option JSON) : option (list (string * JSON)) :=
  match v with Some (JObj fields) => Some fields | _ => None end.
Definition z_number (v : option JSON) : option Q :=
  match v with Some (JNum q) => Some q | _ => None end.
Definition z_string (v : option JSON) : option string :=
  match v with Some (JStr s) => Some s | _ => None end.
Definition z_boolean (v : option JSON) : option bool :=
  match v with Some (JBool b) => Some b | _ => None end.
Definition z_string_optional (v : option JSON) : option (option string) :=
  match v with
  | None => Some None
  | Some (JStr s) => Some (Some s)
  | _ => None
  end.

Record UserInfoData := mkUserInfoData {
  ui_id : Q;
  ui_username : string;
  ui_display_name : option string;
  ui_email : string;
  ui_group : option string
}.

Definition UserInfoDataSchema (v : option JSON) : option UserInfoData :=
  fields ← z_object v;
  i ← z_number (assoc "id" fields);
  username ← z_string (assoc "username" fields);
  display_name ← z_string_optional (assoc "display_name" fields);
  email ← z_string (assoc "email" fields);
  group ← z_string_optional (assoc "group" fields);
  Some (mkUserInfoData i username display_name email group).

Definition UserInfoResponseSchema (v : option JSON) : option (bool * UserInfoData) :=
  fields ← z_object v;
  success ← z_boolean (assoc "success" fields);
  data ← UserInfoDataSchema (assoc "data" fields);
  Some (success, data).

Record BalanceData := mkBalanceData { b_quota : Q; b_used_quota : Q }.

Definition BalanceDataSchema (v : option JSON) : option BalanceData :=
  fields ← z_object v;
  quota ← z_number (assoc "quota" fields);
  used_quota ← z_number (assoc "used_quota" fields);
  Some (mkBalanceData quota used_quota).

Definition BalanceResponseSchema (v : option JSON) : option (bool * BalanceData) :=
  fields ← z_object v;
  success ← z_boolean (assoc "success" fields);
  data ← BalanceDataSchema (assoc "data" fields);
  Some (success, data).

Record UsageData := mkUsageData {
  u_request_count : Q;
  u_used_quota : Q;
  u_quota : Q
}.

Definition UsageDataSchema (v : option JSON) : option UsageData :=
  fields ← z_object v;
  request_count ← z_number (assoc "request_count" fields);
  used_quota ← z_number (assoc "used_quota" fields);
  quota ← z_number (assoc "quota" fields);
  Some (mkUsageData request_count used_quota quota).

Definition UsageResponseSchema (v : option JSON) : option (bool * UsageData) :=
  fields ← z_object v;
  success ← z_boolean (assoc "success" fields);
  data ← UsageDataSchema (assoc "data" fields);
  Some (success, data).

Definition parse {A} (schema : option JSON → option A) (v : JSON) : M A :=
  match schema (Some v) with Some a => ret a | None => throw ZodError end.

(** *** The three API calls *)

Record BalanceResponse := mkBalance { balance : number }.
Record UsageResponse := mkUsage { requestCount : Q; usedPercent : number }.
Record UserInfoResponse := mkUserInfo {
  id : Q;
  username : string;
  displayName : option string;
  email : string;
  group : option string
}.

Definition http_error (response : Response) : JsError :=
  Error ("HTTP " +:+ numberToString (inject_Z (status response)) +:+ ": "
         +:+ statusText response).

(** The [catch] clause the three calls share, up to the message. *)
Definition rethrow {A} (message : string) (error : JsError) : M A :=
  match error with
  | ZodError =>
      throw (CherryINOAuthServiceError "Invalid response format from server" (Some error))
  | _ => throw (CherryINOAuthServiceError message (Some error))
  end.

Definition getBalance (apiHost : string) : M BalanceResponse :=
  try_catch
    (response <- authenticatedFetch apiHost "/api/v1/oauth/balance" no_options ;;
     if negb (ok response) then throw (http_error response)
     else
       json <- response_json response ;;
       parsed <- parse BalanceResponseSchema json ;;
       if negb (fst parsed)
       then throw (CherryINOAuthServiceError "API returned success: false" None)
       else
         let quota := Finite (b_quota (snd parsed)) in
         let balanceYuan := div quota (Finite 500000) in
         ret {| balance := balanceYuan |})
    (rethrow "Failed to get balance").

(** The percentage [getUsage] computes from the parsed quotas, in the
    arithmetic of doubles.  [Math.round] of a double is exact. *)
Definition usedPercentOf (quota used_quota : number) : number :=
  let total := Double.add quota used_quota in
  if gt total (Finite 0)
  then Double.div
         (Math_round (Double.mul (Double.div used_quota total) (Finite 10000)))
         (Finite 100)
  else Finite 0.

Definition getUsage (apiHost : string) : M UsageResponse :=
  try_catch
    (response <- authenticatedFetch apiHost "/api/v1/oauth/usage" no_options ;;
     if negb (ok response) then throw (http_error response)
     else
       json <- response_json response ;;
       parsed <- parse UsageResponseSchema json ;;
       if negb (fst parsed)
       then throw (CherryINOAuthServiceError "API returned success: false" None)
       else
         (* the literals of the document are doubles once parsed *)
         let quota := Double.round64 (u_quota (snd parsed)) in
         let used_quota := Double.round64 (u_used_quota (snd parsed)) in
         let request_count := u_request_count (snd parsed) in
         ret {| requestCount := request_count;
                usedPercent := usedPercentOf quota used_quota |})
    (rethrow "Failed to get usage").

Definition getUserInfo (apiHost : string) : M UserInfoResponse :=
  try_catch
    (response <- authenticatedFetch apiHost "/api/v1/oauth/userinfo" no_options ;;
     if negb (ok response) then throw (http_error response)
     else
       json <- response_json response ;;
       parsed <- parse UserInfoResponseSchema json ;;
       if negb (fst parsed)
       then throw (CherryINOAuthServiceError "API returned success: false" None)
       else
         let data := snd parsed in
         ret {| id := ui_id data;
                username := ui_username data;
                displayName := ui_display_name data;
                email := ui_email data;
                group := ui_group data |})
    (rethrow "Failed to get user info").

(** *** logout *)

Definition revoke_request (apiHost token : string) : Request :=
  {| req_url := apiHost +:+ "/oauth2/revoke";
     req_method := Some "POST";
     req_headers := form_headers;
     req_body := Form [("token", token); ("token_type_hint", "access_token")] |}.

Definition logout (apiHost : string) : M unit :=
  try_catch
    (token <- getToken ;;
     (if present token
      then try_catch
             (fetch (revoke_request apiHost (default "" token)) ;;; ret tt)
             (fun revokeError => ret tt)
      else ret tt) ;;;
     tokenExists <- existsSync tokenFilePath ;;
     (if tokenExists then unlink tokenFilePath else ret tt) ;;;
     refreshExists <- existsSync refreshTokenFilePath ;;
     (if refreshExists then unlink refreshTokenFilePath else ret tt))
    (fun error => throw (CherryINOAuthServiceError "Failed to logout" (Some error))).

End Service.

(** The same host in front of another network. *)
Definition with_net (h : Host) (net : list Request → FetchOutcome) : Host :=
  {| encryptString := @encryptString h;
     decryptString := @decryptString h;
     getConfigDir := @getConfigDir h;
     net_fetch := net;
     fs_fault := @fs_fault h;
     numberToString := @numberToString h |}.

End Service.


(** ** oauth.ts: the PKCE parameters *)
Module Pkce.
Import Js.

(** The entropy [crypto.getRandomValues] draws from: a stream of bytes and
    the position reached in it. *)
Record Rng := mkRng { stream : nat → byte; pos : nat }.

(** [crypto.getRandomValues(new Uint8Array(length))] *)
Definition getRandomValues (length : nat) (rng : Rng) : list byte * Rng :=
  (map (stream rng) (seq (pos rng) length), mkRng (stream rng) (pos rng + length)).

(** [crypto.subtle.digest('SHA-256', data)], given by the platform. *)
Class WebCrypto := { sha256 : list byte → list byte }.

Definition charset : string :=
  "ABCDEFGHIJKLMNOPQRSTUVWXYZabcdefghijklmnopqrstuvwxyz0123456789-._~".

(** [s[i]] as [join] sees it: the one-character string, or nothing for
    [undefined]. *)
Definition char_at (s : string) (i : nat) : string :=
  match String.get i s with
  | Some c => String c ""
  | None => ""
  end.

Definition generateRandomString (length : nat) (rng : Rng) : string * Rng :=
  let '(array, rng') := getRandomValues length rng in
  (join "" (map (fun byte => char_at charset (Byte.to_nat byte mod String.length charset))
                array),
   rng').

(** *** [btoa]: base64 of RFC 4648 section 4, with padding *)

Definition base64_alphabet : string :=
  "ABCDEFGHIJKLMNOPQRSTUVWXYZabcdefghijklmnopqrstuvwxyz0123456789+/".

Definition alphabet_char (alphabet : string) (i : N) : Ascii.ascii :=
  default "="%char (String.get (N.to_nat i) alphabet).

(** The four 6-bit groups of three bytes, and the groups of a last, shorter
    block, whose missing low bits are zero. *)
Definition sextets3 (a b c : N) : list N :=
  let n := (a * 65536 + b * 256 + c)%N in
  [(n / 262144) mod 64; (n / 4096) mod 64; (n / 64) mod 64; n mod 64]%N.

Definition sextets2 (a b : N) : list N :=
  let n := ((a * 256 + b) * 4)%N in
  [(n / 4096) mod 64; (n / 64) mod 64; n mod 64]%N.

Definition sextets1 (a : N) : list N :=
  let n := (a * 16)%N in
  [(n / 64) mod 64; n mod 64]%N.

Fixpoint btoa_codes (codes : list N) : list Ascii.ascii :=
  match codes with
  | [] => []
  | [a] => map (alphabet_char base64_alphabet) (sextets1 a) ++ ["="%char; "="%char]
  | [a; b] => map (alphabet_char base64_alphabet) (sextets2 a b) ++ ["="%char]
  | a :: b :: c :: rest =>
      map (alphabet_char base64_alphabet) (sextets3 a b c) ++ btoa_codes rest
  end.

Definition btoa (binary : string) : string :=
  String.string_of_list_ascii (btoa_codes (map Ascii.N_of_ascii (String.list_ascii_of_string binary))).

(** *** The two regular-expression replacements *)

(** [s.replace(/c/g, d)] for a single character [c] *)
Fixpoint replace_all (c d : Ascii.ascii) (s : string) : string :=
  match s with
  | EmptyString => EmptyString
  | String x rest =>
      String (if Ascii.eqb x c then d else x) (replace_all c d rest)
  end.

(** [s.replace(/=+$/, '')]: the run of ['='] the string ends with is removed. *)
Fixpoint strip_trailing_equals (s : string) : string :=
  match s with
  | EmptyString => EmptyString
  | String x rest =>
      match strip_trailing_equals rest with
      | EmptyString => if Ascii.eqb x "=" then EmptyString else String x EmptyString
      | kept => String x kept
      end
  end.

(** What the two [replace] calls below do to one character. *)
Definition url_char_of (x : Ascii.ascii) : Ascii.ascii :=
  let y := if Ascii.eqb x "+" then "-"%char else x in
  if Ascii.eqb y "/" then "_"%char else y.

(** *** [base64UrlEncode] and [generateCodeChallenge] *)

Definition base64UrlEncode (buffer : list byte) : string :=
  let bytes := buffer in
  let binary :=
    fold_left (fun binary b => binary +:+ String (Ascii.ascii_of_byte b) "") bytes "" in
  strip_trailing_equals (replace_all "/" "_" (replace_all "+" "-" (btoa binary))).

Definition byte_of_N (n : N) : byte := default x00 (Byte.of_N n).

(** [new TextEncoder().encode(s)]: UTF-8, for a string of code points below
    256. *)
Definition utf8_char (c : Ascii.ascii) : list byte :=
  let n := Ascii.N_of_ascii c in
  if (n <? 128)%N then [Ascii.byte_of_ascii c]
  else [byte_of_N (192 + n / 64); byte_of_N (128 + n mod 64)].

Definition TextEncoder_encode (s : string) : list byte :=
  flat_map utf8_char (String.list_ascii_of_string s).

Definition generateCodeChallenge `{WebCrypto} (codeVerifier : string) : string :=
  let data := TextEncoder_encode codeVerifier in
  let hash := sha256 data in
  base64UrlEncode hash.

(** *** What RFC 7636 and RFC 4648 ask for *)

(** The unreserved characters of RFC 7636, section 4.1:
    [A-Z / a-z / 0-9 / "-" / "." / "_" / "~"]. *)
Definition unreserved (c : Ascii.ascii) : bool :=
  let n := Ascii.N_of_ascii c in
  ((65 <=? n) && (n <=? 90) || (97 <=? n) && (n <=? 122)
   || (48 <=? n) && (n <=? 57)
   || (n =? 45) || (n =? 46) || (n =? 95) || (n =? 126))%N.

(** The URL and filename safe alphabet of RFC 4648, section 5. *)
Definition base64url_alphabet : string :=
  "ABCDEFGHIJKLMNOPQRSTUVWXYZabcdefghijklmnopqrstuvwxyz0123456789-_".

(** The bits of a byte, the most significant first. *)
Definition bits_of_byte (b : byte) : list bool :=
  let n := Byte.to_N b in
  [N.testbit n 7; N.testbit n 6; N.testbit n 5; N.testbit n 4;
   N.testbit n 3; N.testbit n 2; N.testbit n 1; N.testbit n 0].

(** The number a group of bits denotes, the most significant first. *)
Definition N_of_bits (bits : list bool) : N :=
  fold_left (fun acc (b : bool) => (2 * acc + (if b then 1 else 0))%N) bits 0%N.

(** The bit stream cut into 6-bit groups; a last, shorter group is filled
    with zero bits on the right. *)
Fixpoint groups_of_6 (bits : list bool) : list (list bool) :=
  match bits with
  | [] => []
  | b0 :: b1 :: b2 :: b3 :: b4 :: b5 :: rest =>
      [b0; b1; b2; b3; b4; b5] :: groups_of_6 rest
  | short => [firstn 6 (short ++ [false; false; false; false; false])]
  end.

(** Base 64 with the URL-safe alphabet and the padding left out: the
    encoding RFC 7636 calls BASE64URL-ENCODE. *)
Definition base64url_nopad (bytes : list byte) : string :=
  String.string_of_list_ascii
    (map (fun group => alphabet_char base64url_alphabet (N_of_bits group))
         (groups_of_6 (flat_map bits_of_byte bytes))).

End Pkce.

(** ** oauth.ts: the pending flows and the protocol callback *)
Module Flow.
Import Js Pkce.

Definition DEFAULT_REDIRECT_URI : string := "cherrystudio://oauth/callback".
Definition DEFAULT_CHERRYIN_SCOPES : string :=
  "openid profile email offline_access balance:read usage:read tokens:read tokens:write".
Definition DEFUALT_CHERRYIN_CLIENT_ID : string := "2a348c87-bae1-4756-a62f-b2e97200fd6d".

Record NewApiOAuthConfig := mkConfig {
  oauthServer : string;
  clientId : option string;
  apiHost : option string;
  redirectUri : option string;
  scopes : option string
}.

Record ResolvedNewApiOAuthConfig := mkResolved {
  r_oauthServer : string;
  r_clientId : string;
  r_apiHost : string;
  r_redirectUri : string;
  r_scopes : option string
}.

(** A value of the [pendingOAuthFlows] map. *)
Record FlowData := mkFlowData {
  codeVerifier : string;
  config : ResolvedNewApiOAuthConfig;
  timestamp : Z
}.

(** A parsed URL: what precedes the query, the host name, the path and the
    query parameters in order. *)
Record URL := mkURL {
  url_base : string;
  hostname : string;
  pathname : string;
  searchParams : list (string * string)
}.

(** [URLSearchParams.prototype.set]: the first pair of that name gets the
    value and the others of that name go; a new name is appended. *)
Fixpoint params_set (k v : string) (params : list (string * string))
  : list (string * string) :=
  match params with
  | [] => [(k, v)]
  | (k', v') :: rest =>
      if String.eqb k k'
      then (k, v) :: List.filter (fun p => negb (String.eqb k (fst p))) rest
      else (k', v') :: params_set k v rest
  end.

Definition searchParams_set (k v : string) (u : URL) : URL :=
  mkURL (url_base u) (hostname u) (pathname u) (params_set k v (searchParams u)).

(** The state of the promise [oauthWithCherryIn] returns. *)
Inductive Settlement := Pending | Resolved (value : string) | Rejected (reason : JsError).

(** The renderer as one invocation of [oauthWithCherryIn] sees it: the
    module-level map, the variables of the invocation's closure
    ([listening]: the protocol listener is registered), and a record of what
    was done. *)
Record World := mkWorld {
  pendingOAuthFlows : gmap string FlowData;
  listening : bool;
  timeoutId : option nat;
  promise : Settlement;
  rng : Rng;
  clock_reads : nat;
  awaits : nat;
  timers : nat;
  requests : list Request;
  opened : list URL;
  saved : list (option JSON * option JSON);
  keys : list string
}.

Definition set_pending (m : gmap string FlowData) (w : World) : World :=
  mkWorld m (listening w) (timeoutId w) (promise w) (rng w) (clock_reads w)
    (awaits w) (timers w) (requests w) (opened w) (saved w) (keys w).
Definition set_listening (b : bool) (w : World) : World :=
  mkWorld (pendingOAuthFlows w) b (timeoutId w) (promise w) (rng w) (clock_reads w)
    (awaits w) (timers w) (requests w) (opened w) (saved w) (keys w).
Definition set_timeoutId (t : option nat) (w : World) : World :=
  mkWorld (pendingOAuthFlows w) (listening w) t (promise w) (rng w) (clock_reads w)
    (awaits w) (timers w) (requests w) (opened w) (saved w) (keys w).
Definition set_promise (p : Settlement) (w : World) : World :=
  mkWorld (pendingOAuthFlows w) (listening w) (timeoutId w) p (rng w) (clock_reads w)
    (awaits w) (timers w) (requests w) (opened w) (saved w) (keys w).
Definition set_rng (r : Rng) (w : World) : World :=
  mkWorld (pendingOAuthFlows w) (listening w) (timeoutId w) (promise w) r (clock_reads w)
    (awaits w) (timers w) (requests w) (opened w) (saved w) (keys w).
Definition set_clock_reads (n : nat) (w : World) : World :=
  mkWorld (pendingOAuthFlows w) (listening w) (timeoutId w) (promise w) (rng w) n
    (awaits w) (timers w) (requests w) (opened w) (saved w) (keys w).
Definition set_timers (n : nat) (w : World) : World :=
  mkWorld (pendingOAuthFlows w) (listening w) (timeoutId w) (promise w) (rng w)
    (clock_reads w) (awaits w) n (requests w) (opened w) (saved w) (keys w).
Definition set_requests (r : list Request) (w : World) : World :=
  mkWorld (pendingOAuthFlows w) (listening w) (timeoutId w) (promise w) (rng w)
    (clock_reads w) (awaits w) (timers w) r (opened w) (saved w) (keys w).
Definition set_opened (o : list URL) (w : World) : World :=
  mkWorld (pendingOAuthFlows w) (listening w) (timeoutId w) (promise w) (rng w)
    (clock_reads w) (awaits w) (timers w) (requests w) o (saved w) (keys w).
Definition set_saved (l : list (option JSON * option JSON)) (w : World) : World :=
  mkWorld (pendingOAuthFlows w) (listening w) (timeoutId w) (promise w) (rng w)
    (clock_reads w) (awaits w) (timers w) (requests w) (opened w) l (keys w).
Definition set_keys (l : list string) (w : World) : World :=
  mkWorld (pendingOAuthFlows w) (listening w) (timeoutId w) (promise w) (rng w)
    (clock_reads w) (awaits w) (timers w) (requests w) (opened w) (saved w) l.

(** What the browser and the rest of the application give the flow: the URL
    parser ([None] when [new URL] throws), the answers of [fetch], whether
    the [saveToken] call to the main process succeeds, the successive
    readings of the clock, and what the other tasks of the event loop do to
    the shared map and to the closure while the k-th [await] of this
    invocation is suspended. *)
Class Browser := {
  URL_parse : string → option URL;
  fetch_answer : list Request → FetchOutcome;
  saveToken_ok : option JSON → option JSON → bool;
  Date_now : nat → Z;
  interfere : nat → World → World;
  numberToString : Q → string;
  crypto : WebCrypto
}.

Abbreviation M := (Js.M World).

Section Flow.
Context `{Browser}.

(** An [await]: the other tasks run.  They may change the map and the
    closure's variables; the record of what this invocation did is its own. *)
Definition await_ : M unit :=
  fun w =>
    let v := interfere (awaits w) w in
    (Returned tt,
     mkWorld (pendingOAuthFlows v) (listening v) (timeoutId v) (promise v)
       (rng w) (clock_reads w) (S (awaits w)) (timers w)
       (requests w) (opened w) (saved w) (keys w)).

Definition new_URL (s : string) : M URL :=
  match URL_parse s with
  | Some u => ret u
  | None => throw TypeError
  end.

Definition Date_now_ : M Z :=
  fun w => (Returned (Date_now (clock_reads w)), set_clock_reads (S (clock_reads w)) w).

(** [await fetch(...)] *)
Definition fetch (r : Request) : M Response :=
  (fun w => (Returned tt, set_requests (requests w ++ [r]) w)) ;;;
  await_ ;;;
  fun w =>
    match fetch_answer (requests w) with
    | Got resp => (Returned resp, w)
    | NetworkFailure => (Thrown (SystemError "fetch"), w)
    end.

(** [await response.text()] and [await response.json()] *)
Definition response_text (r : Response) : M string :=
  await_ ;;;
  match text r with Some s => ret s | None => throw (SystemError "text") end.

Definition response_json (r : Response) : M JSON :=
  await_ ;;;
  match json r with Some j => ret j | None => throw (SystemError "json") end.

Definition get_prop (v : JSON) (k : string) : M (option JSON) :=
  match prop v k with Some x => ret x | None => throw TypeError end.

(** [await window.api.cherryin.saveToken(accessToken, refreshToken)] *)
Definition cherryin_saveToken (accessToken refreshToken : option JSON) : M unit :=
  (fun w => (Returned tt, set_saved (saved w ++ [(accessToken, refreshToken)]) w)) ;;;
  await_ ;;;
  if saveToken_ok accessToken refreshToken then ret tt
  else throw (CherryINOAuthServiceError "Failed to save OAuth token" None).

Definition generateRandomString_ (length : nat) : M string :=
  fun w =>
    let '(s, rng') := generateRandomString length (rng w) in
    (Returned s, set_rng rng' w).

(** *** The pending flows *)

Definition expired (now : Z) (flow : FlowData) : bool :=
  (now - timestamp flow >? 10 * 60 * 1000)%Z.

Definition cleanupExpiredFlows : M unit :=
  now <- Date_now_ ;;
  fun w =>
    let entries := map_to_list (pendingOAuthFlows w) in
    (Returned tt,
     set_pending
       (fold_left (fun m entry => if expired now (snd entry) then delete (fst entry) m else m)
                  entries (pendingOAuthFlows w))
       w).

(** *** The promise and its closure *)

Definition reject (reason : JsError) : M unit :=
  fun w =>
    (Returned tt,
     match promise w with Pending => set_promise (Rejected reason) w | _ => w end).

Definition resolve (value : string) : M unit :=
  fun w =>
    (Returned tt,
     match promise w with Pending => set_promise (Resolved value) w | _ => w end).

Definition setKey (apiKeys : string) : M unit :=
  fun w => (Returned tt, set_keys (keys w ++ [apiKeys]) w).

Definition cleanup (state : string) : M unit :=
  fun w =>
    (Returned tt,
     set_pending (delete state (pendingOAuthFlows w))
       (set_timeoutId None (set_listening false w))).

(** The callback of the 10-minute timer. *)
Definition onTimeout (state : string) : M unit :=
  cleanup state ;;;
  reject (Error "OAuth flow timed out").

Definition form_headers : gmap string string :=
  {[ "Content-Type" := "application/x-www-form-urlencoded" ]}.

Definition token_request (storedConfig : ResolvedNewApiOAuthConfig)
    (code storedVerifier : string) : Request :=
  {| req_url := r_oauthServer storedConfig +:+ "/oauth2/token";
     req_method := Some "POST";
     req_headers := form_headers;
     req_body :=
       Form [("grant_type", "authorization_code");
             ("client_id", r_clientId storedConfig);
             ("code", code);
             ("redirect_uri",
              if nonempty (r_redirectUri storedConfig)
              then r_redirectUri storedConfig else DEFAULT_REDIRECT_URI);
             ("code_verifier", storedVerifier)] |}.

Definition apiKeys_request (storedConfig : ResolvedNewApiOAuthConfig)
    (accessToken : option JSON) : Request :=
  {| req_url := r_apiHost storedConfig +:+ "/api/v1/oauth/tokens";
     req_method := Some "GET";
     req_headers :=
       {[ "Authorization" :=
            "Bearer " +:+ match accessToken with
                          | Some v => ToString numberToString v
                          | None => "undefined"
                          end ]};
     req_body := NoBody |}.

Definition extractKey (item : JSON) : option string :=
  match item with
  | JStr s => Some s
  | _ =>
      match (if truthy (Some item) then prop item "key" else None) with
      | Some (Some (JStr k)) => Some k
      | _ =>
          match (if truthy (Some item) then prop item "token" else None) with
          | Some (Some (JStr t)) => Some t
          | _ => None
          end
      end
  end.

(** [items.map(extractKey).filter(Boolean).join(',')] *)
Definition joinKeys (items : list JSON) : string :=
  join "," (omap (fun item =>
                    match extractKey item with
                    | Some k => if nonempty k then Some k else None
                    | None => None
                    end) items).

(** The part of the callback that follows the checks on the state: the code
    is exchanged for tokens, the tokens are saved, the API keys are fetched. *)
Definition exchange (state code : string) (flowData : FlowData) : M unit :=
  let storedVerifier := codeVerifier flowData in
  let storedConfig := config flowData in
  tokenResponse <- fetch (token_request storedConfig code storedVerifier) ;;
  if negb (ok tokenResponse)
  then
    errorText <- response_text tokenResponse ;;
    throw (Error ("Failed to exchange code for token: "
                  +:+ numberToString (inject_Z (status tokenResponse))))
  else
    tokenData <- response_json tokenResponse ;;
    accessToken <- get_prop tokenData "access_token" ;;
    refreshToken <- get_prop tokenData "refresh_token" ;;
    if negb (truthy accessToken)
    then reject (Error "No access token received") ;;; cleanup state
    else
      try_catch (cherryin_saveToken accessToken refreshToken) (fun saveError => ret tt) ;;;
      apiKeysResponse <- fetch (apiKeys_request storedConfig accessToken) ;;
      if negb (ok apiKeysResponse)
      then
        errorText <- response_text apiKeysResponse ;;
        throw (Error ("Failed to fetch API keys: "
                      +:+ numberToString (inject_Z (status apiKeysResponse))))
      else
        apiKeysData <- response_json apiKeysResponse ;;
        apiKeys <-
          match apiKeysData with
          | JArr items => ret (joinKeys items)
          | _ =>
              data <- get_prop apiKeysData "data" ;;
              match data with
              | Some (JArr items) => ret (joinKeys items)
              | _ => throw (Error "Unexpected API keys response format")
              end
          end ;;
        (if nonempty apiKeys
         then setKey apiKeys ;;; resolve apiKeys
         else reject (Error "No API keys received")) ;;;
        cleanup state.

(** The listener [oauthWithCherryIn] registers with
    [window.api.protocol.onReceiveData], for the invocation whose state
    parameter is [state]. *)
Definition onReceiveData (state : string) (data_url : string) : M unit :=
  try_catch
    (url <- new_URL data_url ;;
     if negb (String.eqb (hostname url) "oauth")
        || negb (String.eqb (pathname url) "/callback")
     then ret tt
     else
       let params := searchParams url in
       let code := assoc "code" params in
       let returnedState := assoc "state" params in
       let error := assoc "error" params in
       if present error
       then
         let errorDesc :=
           if present (assoc "error_description" params)
           then default "" (assoc "error_description" params)
           else default "" error in
         reject (Error ("OAuth error: " +:+ errorDesc)) ;;;
         cleanup state
       else if negb (present code)
       then
         reject (Error "No authorization code received") ;;;
         cleanup state
       else
         fun w =>
           if negb (present returnedState)
              || negb (bool_decide
                         (is_Some (pendingOAuthFlows w !! default "" returnedState)))
           then (Returned tt, w)
           else if negb (String.eqb (default "" returnedState) state)
           then (Returned tt, w)
           else
             match pendingOAuthFlows w !! default "" returnedState with
             | None =>
                 (reject (Error "OAuth flow expired or not found") ;;;
                  cleanup state) w
             | Some flowData =>
                 exchange state (default "" code) flowData
                   (set_pending (delete (default "" returnedState) (pendingOAuthFlows w)) w)
             end)
    (fun error => reject error ;;; cleanup state).

(** *** [oauthWithCherryIn], up to the promise it returns *)

Definition oauthWithCherryIn (config : NewApiOAuthConfig) : M string :=
  cleanupExpiredFlows ;;;
  let oauthServer := oauthServer config in
  let clientId := default DEFUALT_CHERRYIN_CLIENT_ID (clientId config) in
  let apiHost := default oauthServer (apiHost config) in
  let scopes := default DEFAULT_CHERRYIN_SCOPES (scopes config) in
  let redirectUri := default DEFAULT_REDIRECT_URI (redirectUri config) in
  let resolvedConfig := mkResolved oauthServer clientId apiHost redirectUri (Some scopes) in
  codeVerifier <- generateRandomString_ 64 ;;
  codeChallenge <- (await_ ;;; ret (@generateCodeChallenge crypto codeVerifier)) ;;
  state <- generateRandomString_ 32 ;;
  now <- Date_now_ ;;
  (fun w =>
     (Returned tt,
      set_pending (<[state := mkFlowData codeVerifier resolvedConfig now]>
                     (pendingOAuthFlows w)) w)) ;;;
  authUrl <- new_URL (oauthServer +:+ "/oauth2/auth") ;;
  let authUrl := searchParams_set "client_id" clientId authUrl in
  let authUrl := searchParams_set "redirect_uri" redirectUri authUrl in
  let authUrl := searchParams_set "response_type" "code" authUrl in
  let authUrl := searchParams_set "scope" scopes authUrl in
  let authUrl := searchParams_set "state" state authUrl in
  let authUrl := searchParams_set "code_challenge" codeChallenge authUrl in
  let authUrl := searchParams_set "code_challenge_method" "S256" authUrl in
  (fun w => (Returned tt, set_opened (opened w ++ [authUrl]) w)) ;;;
  (* the executor of the promise: the listener, then the timer *)
  (fun w =>
     (Returned tt,
      set_timers (S (timers w))
        (set_timeoutId (Some (S (timers w)))
           (set_listening true (set_promise Pending w))))) ;;;
  ret state.

(** *** Notions used to state what the flow guarantees *)

(** What a settled flow leaves behind: no entry under its state, no
    listener, no timer, and a promise that is no longer pending. *)
Definition cleaned_up (state : string) (w : World) : Prop :=
  pendingOAuthFlows w !! state = None
  ∧ listening w = false
  ∧ timeoutId w = None
  ∧ promise w ≠ Pending.

(** A computation that leaves the flow cleaned up whenever it returns. *)
Definition ends_cleaned_up {A} (state : string) (m : M A) : Prop :=
  ∀ w, match m w with
       | (Returned _, w') => cleaned_up state w'
       | (Thrown _, _) => True
       end.

End Flow.
End Flow.

(** ** String methods used by the renderer *)
Module JsString.

(** [String.prototype.toUpperCase], given by the platform. *)
Class StringPrototype := { toUpperCase : string → string }.

(** The white space and line terminators of ECMAScript among the code units
    below 256: tab, line feed, vertical tab, form feed, carriage return,
    space and no-break space. *)
Definition is_space (c : Ascii.ascii) : bool :=
  let n := Ascii.N_of_ascii c in
  ((n =? 9) || (n =? 10) || (n =? 11) || (n =? 12) || (n =? 13) || (n =? 32)
   || (n =? 160))%N.

Fixpoint trimStart (s : string) : string :=
  match s with
  | EmptyString => EmptyString
  | String c rest => if is_space c then trimStart rest else s
  end.

Fixpoint trimEnd (s : string) : string :=
  match s with
  | EmptyString => EmptyString
  | String c rest =>
      match trimEnd rest with
      | EmptyString => if is_space c then EmptyString else String c EmptyString
      | kept => String c kept
      end
  end.

(** [String.prototype.trim] *)
Definition trim (s : string) : string := trimEnd (trimStart s).

(** [s.slice(0, n)] *)
Definition slice0 (n : nat) (s : string) : string := String.substring 0 n s.

End JsString.


(** ** useMinapps.ts: the detection of the user's region *)
Module Region.
Import Minapps JsString.

(** What the k-th call of [window.api.getIpCountry()] resolves with;
    [None]: it rejects. *)
Class MainProcess := { getIpCountry : nat → option string }.

(** The module-level variable [regionDetectionPromise], [None] for [null];
    the promise never rejects and is given by the region it resolves with.
    [ipc_calls] counts the calls of [getIpCountry] made so far. *)
Record ModuleState := mkModuleState {
  regionDetectionPromise : option SupportedRegion;
  ipc_calls : nat
}.

Section Region.
Context `{MainProcess} `{StringPrototype}.

Definition detectUserRegion (m : ModuleState) : SupportedRegion * ModuleState :=
  match regionDetectionPromise m with
  | Some region => (region, m)
  | None =>
      let region :=
        match getIpCountry (ipc_calls m) with
        | Some country => if String.eqb (toUpperCase country) "CN" then CN else Global
        | None => CN
        end in
      (region, mkModuleState (Some region) (S (ipc_calls m)))
  end.

(** [initRegion] of one instance of the hook, whose ref
    [hasInitiatedDetection] holds [initiated], rendered against the store
    [st].  It gives the new value of the ref, the payload of the
    [setDetectedRegion] action it dispatches, if any, and the module state. *)
Definition initRegion (initiated : bool) (st : Store) (m : ModuleState)
  : bool * option SupportedRegion * ModuleState :=
  if match minAppRegion st with Auto => false | Fixed _ => true end
     || match detectedRegion st with None => false | Some _ => true end
     || initiated
  then (initiated, None, m)
  else
    let '(detected, m') := detectUserRegion m in
    (true, Some detected, m').

End Region.
End Region.


(** ** CherryINOAuth.tsx: the initials shown in the avatar *)
Module Avatar.
Import Js JsString.

Section Avatar.
Context `{StringPrototype}.

Definition getAvatarInitials (name : string) : string :=
  if negb (nonempty name) then "??"
  else
    let trimmed := trim name in
    if (String.length trimmed <=? 2)%nat then toUpperCase trimmed
    else toUpperCase (slice0 2 trimmed).

End Avatar.
End Avatar.


(** ** oauth.ts: the protocol callback of [oauthWithPPIO] *)
Module Ppio.
Import Js.

(** The state of the promise [oauthWithPPIO] returns; it is resolved with
    whatever the token endpoint answered as [access_token]; a value is a
    JSON value or [undefined] ([None]). *)
Inductive Settlement :=
  Pending | Resolved (value : option JSON) | Rejected (reason : JsError).

(** The closure of one invocation ([listening]: the protocol listener is
    registered) and a record of what was done. *)
Record World := mkWorld {
  listening : bool;
  promise : Settlement;
  awaits : nat;
  requests : list Request;
  keys : list (option JSON)
}.

(** The constants of [@renderer/config/constant], the URL parser, the
    answers of [fetch], and what the other tasks do to the closure while an
    [await] of the handler is suspended. *)
Class Env := {
  PPIO_CLIENT_ID : string;
  PPIO_APP_SECRET : string;
  URL_parse : string → option Flow.URL;
  fetch_answer : list Request → FetchOutcome;
  interfere : nat → World → World;
  numberToString : Q → string
}.

Abbreviation M := (Js.M World).

(** [try { body } finally { final }] *)
Definition try_finally {S A} (body : Js.M S A) (final : Js.M S unit) : Js.M S A :=
  fun w =>
    let '(o, w1) := body w in
    match final w1 with
    | (Returned _, w2) => (o, w2)
    | (Thrown e, w2) => (Thrown e, w2)
    end.

Section Ppio.
Context `{Env}.

Definition redirectUri : string := "cherrystudio://".

Definition await_ : M unit :=
  fun w =>
    let v := interfere (awaits w) w in
    (Returned tt,
     mkWorld (listening v) (promise v) (S (awaits w)) (requests w) (keys w)).

Definition new_URL (s : string) : M Flow.URL :=
  match URL_parse s with
  | Some u => ret u
  | None => throw TypeError
  end.

Definition fetch (r : Request) : M Response :=
  (fun w =>
     (Returned tt,
      mkWorld (listening w) (promise w) (awaits w) (requests w ++ [r]) (keys w))) ;;;
  await_ ;;;
  fun w =>
    match fetch_answer (requests w) with
    | Got resp => (Returned resp, w)
    | NetworkFailure => (Thrown (SystemError "fetch"), w)
    end.

Definition response_text (r : Response) : M string :=
  await_ ;;;
  match text r with Some s => ret s | None => throw (SystemError "text") end.

Definition response_json (r : Response) : M JSON :=
  await_ ;;;
  match json r with Some j => ret j | None => throw (SystemError "json") end.

Definition get_prop (v : JSON) (k : string) : M (option JSON) :=
  match prop v k with Some x => ret x | None => throw TypeError end.

Definition reject (reason : JsError) : M unit :=
  fun w =>
    (Returned tt,
     match promise w with
     | Pending => mkWorld (listening w) (Rejected reason) (awaits w) (requests w) (keys w)
     | _ => w
     end).

Definition resolve (value : option JSON) : M unit :=
  fun w =>
    (Returned tt,
     match promise w with
     | Pending => mkWorld (listening w) (Resolved value) (awaits w) (requests w) (keys w)
     | _ => w
     end).

Definition setKey (accessToken : option JSON) : M unit :=
  fun w =>
    (Returned tt,
     mkWorld (listening w) (promise w) (awaits w) (requests w) (keys w ++ [accessToken])).

Definition removeListener : M unit :=
  fun w => (Returned tt, mkWorld false (promise w) (awaits w) (requests w) (keys w)).

Definition token_request (code : string) : Request :=
  {| req_url := "https://ppio.com/oauth/token";
     req_method := Some "POST";
     req_headers := {[ "Content-Type" := "application/x-www-form-urlencoded" ]};
     req_body :=
       Form [("client_id", PPIO_CLIENT_ID);
             ("client_secret", PPIO_APP_SECRET);
             ("code", code);
             ("grant_type", "authorization_code");
             ("redirect_uri", redirectUri)] |}.

(** The listener [oauthWithPPIO] registers with
    [window.api.protocol.onReceiveData]. *)
Definition onReceiveData (data_url : string) : M unit :=
  try_finally
    (try_catch
       (url <- new_URL data_url ;;
        let params := Flow.searchParams url in
        let code := assoc "code" params in
        if negb (present code)
        then reject (Error "No authorization code received")
        else if negb (nonempty PPIO_APP_SECRET)
        then
          reject (Error "PPIO_APP_SECRET not configured. Please set RENDERER_VITE_PPIO_APP_SECRET environment variable.")
        else
          tokenResponse <- fetch (token_request (default "" code)) ;;
          if negb (ok tokenResponse)
          then
            errorText <- response_text tokenResponse ;;
            throw (Error ("Failed to exchange code for token: "
                          +:+ numberToString (inject_Z (status tokenResponse))
                          +:+ " " +:+ errorText))
          else
            tokenData <- response_json tokenResponse ;;
            accessToken <- get_prop tokenData "access_token" ;;
            if truthy accessToken
            then setKey accessToken ;;; resolve accessToken
            else reject (Error "No access token received"))
       (fun error => reject error))
    removeListener.

End Ppio.
End Ppio.


(** ** Sample data, used to run the definitions on concrete inputs *)
Module Samples.
Import Js.

(** Two template apps, one without [supportedRegions], and a store that has
    the first one enabled and pinned. *)
Definition cn_only_app : Minapps.MinAppType :=
  Minapps.mkMinApp "cn-only" "CN only" "https://cn.example" None.

Definition global_app : Minapps.MinAppType :=
  Minapps.mkMinApp "everywhere" "Everywhere" "https://all.example"
    (Some [Minapps.CN; Minapps.Global]).

Definition sample_apps : list Minapps.MinAppType := [cn_only_app; global_app].

Definition sample_store : Minapps.Store :=
  Minapps.mkStore [cn_only_app; global_app] [] [cn_only_app]
    (Minapps.Fixed Minapps.Global) None.

(** A stand-in for [safeStorage]: the ciphertext is a version byte followed
    by the plaintext bytes reversed; decryption rejects anything else. *)
Definition toy_encrypt (s : string) : option (list byte) :=
  Some (x76 :: rev (String.list_byte_of_string s)).

Definition toy_decrypt (b : list byte) : option string :=
  match b with
  | x76 :: r => Some (String.string_of_list_byte (rev r))
  | _ => None
  end.

Definition response_401 : Response := mkResponse 401 "Unauthorized" (Some "") None.

Definition response_tokens : Response :=
  mkResponse 200 "OK" None
    (Some (JObj [("access_token", JStr "fresh"); ("refresh_token", JStr "r2")])).

Definition response_usage : Response :=
  mkResponse 200 "OK" None
    (Some (JObj [("success", JBool true);
                 ("data", JObj [("request_count", JNum 7);
                                ("used_quota", JNum 1);
                                ("quota", JNum 2)])])).

(** A network that rejects the first bearer token once: the first request
    gets a 401, a request to the token endpoint gets new tokens, and every
    other request gets the usage document. *)
Definition scripted_net (history : list Request) : FetchOutcome :=
  match history with
  | [_] => Got response_401
  | _ =>
      match last history with
      | Some r =>
          if String.eqb (req_url r) "https://api/oauth2/token"
          then Got response_tokens else Got response_usage
      | None => NetworkFailure
      end
  end.

(** A network that is down. *)
Definition dead_net (history : list Request) : FetchOutcome := NetworkFailure.

Definition host_with (net : list Request → FetchOutcome) : Service.Host :=
  {| Service.encryptString := toy_encrypt;
     Service.decryptString := toy_decrypt;
     Service.getConfigDir := "/cfg";
     Service.net_fetch := net;
     Service.fs_fault := fun _ => false;
     Service.numberToString := fun _ => "n" |}.

(** A stand-in for the URL parser, defined on the URLs of the samples. *)
Definition sample_URL_parse (s : string) : option Flow.URL :=
  if String.eqb s "cherrystudio://oauth/callback?error=access_denied&state=OTHER"
  then Some (Flow.mkURL "cherrystudio://oauth/callback" "oauth" "/callback"
               [("error", "access_denied"); ("state", "OTHER")])
  else if String.eqb s "cherrystudio://oauth/callback?code=abc&state=S"
  then Some (Flow.mkURL "cherrystudio://oauth/callback" "oauth" "/callback"
               [("code", "abc"); ("state", "S")])
  else if String.eqb s "https://open.cherryin.ai/oauth2/auth"
  then Some (Flow.mkURL "https://open.cherryin.ai/oauth2/auth" "open.cherryin.ai"
               "/oauth2/auth" [])
  else None.

Definition response_keys : Response :=
  mkResponse 200 "OK" None
    (Some (JObj [("data", JArr [JStr "sk-1"; JObj [("key", JStr "sk-2")]; JNull])])).

Definition sample_fetch (history : list Request) : FetchOutcome :=
  match last history with
  | Some r =>
      if String.eqb (req_url r) "https://open.cherryin.ai/oauth2/token"
      then Got response_tokens else Got response_keys
  | None => NetworkFailure
  end.

(** A stand-in for SHA-256: the first 32 bytes of the zero-padded data. *)
Definition toy_digest : Pkce.WebCrypto :=
  {| Pkce.sha256 := fun data => firstn 32 (data ++ repeat x00 32) |}.

Definition sample_browser : Flow.Browser :=
  {| Flow.URL_parse := sample_URL_parse;
     Flow.fetch_answer := sample_fetch;
     Flow.saveToken_ok := fun _ _ => true;
     Flow.Date_now := fun k => (1000 * Z.of_nat k)%Z;
     Flow.interfere := fun _ w => w;
     Flow.numberToString := fun _ => "n";
     Flow.crypto := toy_digest |}.

Definition sample_rng : Pkce.Rng :=
  Pkce.mkRng (fun i => default x00 (Byte.of_nat ((i * 37 + 60) mod 256))) 0.

Definition cherryin_config : Flow.ResolvedNewApiOAuthConfig :=
  Flow.mkResolved "https://open.cherryin.ai" Flow.DEFUALT_CHERRYIN_CLIENT_ID
    "https://open.cherryin.ai" Flow.DEFAULT_REDIRECT_URI
    (Some Flow.DEFAULT_CHERRYIN_SCOPES).

(** The renderer before any login. *)
Definition fresh_renderer : Flow.World :=
  Flow.mkWorld ∅ false None Flow.Pending sample_rng 0 0 0 [] [] [] [].

(** A login with the defaults, and the renderer once it has opened the
    authorization window. *)
Definition login_config : Flow.NewApiOAuthConfig :=
  Flow.mkConfig "https://open.cherryin.ai" None None None None.

Definition started_renderer : Flow.World :=
  snd (@Flow.oauthWithCherryIn sample_browser login_config fresh_renderer).

(** Two logins started one after the other, with the states ["S"] and
    ["OTHER"], seen from the invocation whose state is ["S"]. *)
Definition two_flows : Flow.World :=
  Flow.mkWorld
    (<["S" := Flow.mkFlowData "verifier-S" cherryin_config 0]>
       (<["OTHER" := Flow.mkFlowData "verifier-OTHER" cherryin_config 5]> ∅))
    true (Some 1%nat) Flow.Pending sample_rng 2 2 2 [] [] [] [].

Definition empty_world : Service.World := Service.mkWorld ∅ ∅ 0 [] [].

(** The disk after [saveToken('stale', 'r1')] on an empty disk. *)
Definition logged_in_world : Service.World :=
  snd (@Service.saveToken (host_with scripted_net)
         (Some (JStr "stale")) (Some (JStr "r1")) empty_world).

End Samples.


(** ** Variations of the platform, used to compare runs *)
Module Variations.
Import Js.

(** The same browser with another outcome for the [saveToken] call. *)
Definition with_saveToken_ok (b : Flow.Browser)
    (ok : option JSON → option JSON → bool) : Flow.Browser :=
  {| Flow.URL_parse := @Flow.URL_parse b;
     Flow.fetch_answer := @Flow.fetch_answer b;
     Flow.saveToken_ok := ok;
     Flow.Date_now := @Flow.Date_now b;
     Flow.interfere := @Flow.interfere b;
     Flow.numberToString := @Flow.numberToString b;
     Flow.crypto := @Flow.crypto b |}.

End Variations.


(** ** More sample data *)
Module MoreSamples.
Import Js.

(** The callback of the login that [Samples.started_renderer] has started. *)
Definition started_callback : string :=
  "cherrystudio://oauth/callback?code=abc&state=6dAlQ1Y9gDoT4b_jGrW7eBmJuZ-hEpMx".

Definition callback_URL_parse (s : string) : option Flow.URL :=
  if String.eqb s started_callback
  then Some (Flow.mkURL "cherrystudio://oauth/callback" "oauth" "/callback"
               [("code", "abc"); ("state", "6dAlQ1Y9gDoT4b_jGrW7eBmJuZ-hEpMx")])
  else if String.eqb s "https://example.com/callback?code=abc&state=S"
  then Some (Flow.mkURL "https://example.com/callback" "example.com" "/callback"
               [("code", "abc"); ("state", "S")])
  else Samples.sample_URL_parse s.

Definition callback_browser : Flow.Browser :=
  {| Flow.URL_parse := callback_URL_parse;
     Flow.fetch_answer := Samples.sample_fetch;
     Flow.saveToken_ok := fun _ _ => false;
     Flow.Date_now := fun k => (1000 * Z.of_nat k)%Z;
     Flow.interfere := fun _ w => w;
     Flow.numberToString := fun _ => "n";
     Flow.crypto := Samples.toy_digest |}.

(** A login whose server is not a URL. *)
Definition broken_config : Flow.NewApiOAuthConfig :=
  Flow.mkConfig "nowhere" None None None None.

(** A token endpoint that always issues tokens. *)
Definition token_net (history : list Request) : FetchOutcome :=
  Got Samples.response_tokens.

(** ASCII upper-casing, a stand-in for [toUpperCase] on ASCII strings. *)
Definition ascii_upper (c : Ascii.ascii) : Ascii.ascii :=
  let n := Ascii.N_of_ascii c in
  if ((97 <=? n) && (n <=? 122))%N then Ascii.ascii_of_N (n - 32) else c.

Fixpoint upper (s : string) : string :=
  match s with
  | EmptyString => EmptyString
  | String c rest => String (ascii_upper c) (upper rest)
  end.

Definition ascii_strings : JsString.StringPrototype :=
  {| JsString.toUpperCase := upper |}.

(** A main process whose IP lookup fails, and one that answers ["us"]. *)
Definition offline : Region.MainProcess :=
  {| Region.getIpCountry := fun _ => None |}.

Definition abroad : Region.MainProcess :=
  {| Region.getIpCountry := fun _ => Some "us" |}.

Definition fresh_module : Region.ModuleState := Region.mkModuleState None 0.

(** A store in automatic mode before any detection. *)
Definition auto_store : Minapps.Store :=
  Minapps.mkStore [Samples.cn_only_app; Samples.global_app] [] [] Minapps.Auto None.

(** The PPIO login, with a token endpoint that answers like CherryIN's. *)
Definition ppio_env : Ppio.Env :=
  {| Ppio.PPIO_CLIENT_ID := "client";
     Ppio.PPIO_APP_SECRET := "secret";
     Ppio.URL_parse := Samples.sample_URL_parse;
     Ppio.fetch_answer := fun _ => Got Samples.response_tokens;
     Ppio.interfere := fun _ w => w;
     Ppio.numberToString := fun _ => "n" |}.

Definition ppio_waiting : Ppio.World := Ppio.mkWorld true Ppio.Pending 0 [] [].


(** Two apps of the user's own, which the template list does not hold, and
    a store of a Global user that has one enabled and pinned and the other
    disabled. *)
Definition custom_app : Minapps.MinAppType :=
  Minapps.mkMinApp "mine" "Mine" "https://mine.example" None.

Definition custom_disabled_app : Minapps.MinAppType :=
  Minapps.mkMinApp "mine-off" "Mine, off" "https://off.example" None.

Definition custom_store : Minapps.Store :=
  Minapps.mkStore [custom_app; Samples.global_app] [custom_disabled_app] [custom_app]
    (Minapps.Fixed Minapps.Global) None.

(** Pairs of doubles, each given as [m * 2^e]: sums and products that fall
    half way between two doubles, subnormal numbers, an overflow, signs. *)
Definition double_pairs : list ((Z * Z) * (Z * Z)) :=
  [ ((2 ^ 53, 0), (1, 0));
    ((2 ^ 53 + 2, 0), (1, 0));
    ((2 ^ 27 + 1, 0), (2 ^ 27 + 1, 0));
    ((1, -1074), (1, -1));
    ((3, -1074), (1, -1));
    ((1, 1023), (1, 1023));
    ((2 ^ 53 - 1, 971), (1, 970));
    ((1, 0), (3, 0));
    ((1, 0), (10, 0));
    ((-7, 3), (5, -2));
    ((123456789, -20), (-987654321, 7));
    ((0, 0), (5, 0));
    ((57, 0), (800, 0)) ]%Z.

(** Quotas and usages. *)
Definition quota_pairs : list (Z * Z) :=
  [ (743, 57); (57, 743); (519, 1881); (2, 1); (1, 3); (0, 0); (0, 5); (5, 0);
    (10 ^ 308, 10 ^ 308); (10 ^ 308, 10 ^ 307); (123456789, 987654321) ]%Z.

End MoreSamples.


(* ===================================================================== *)
(** * Part II.  Properties                                                *)
(* ===================================================================== *)

(** ** Code that throws *)
Module JsFacts.
Import Js.

Lemma bind_unfold {S A B} (m : M S A) (k : A → M S B) (w : S) :
  bind m k w =
  match m w with
  | (Returned a, w') => k a w'
  | (Thrown e, w') => (Thrown e, w')
  end.
Proof. reflexivity. Qed.

Lemma try_catch_unfold {S A} (body : M S A) (handler : JsError → M S A) (w : S) :
  try_catch body handler w =
  match body w with
  | (Returned a, w') => (Returned a, w')
  | (Thrown e, w') => handler e w'
  end.
Proof. reflexivity. Qed.

Lemma nonempty_true (s : string) : nonempty s = true ↔ s ≠ "".
Proof.
  unfold nonempty. rewrite negb_true_iff. split.
  - intros Hs ->. discriminate Hs.
  - intros Hs. by apply String.eqb_neq.
Qed.

End JsFacts.

(** ** Mini-app region filter *)
Module MinappsFacts.
Import Minapps.

Lemma has_true (s : gset string) (k : string) : has s k = true ↔ k ∈ s.
Proof. unfold has. apply bool_decide_eq_true. Qed.

Lemma has_false (s : gset string) (k : string) : has s k = false ↔ k ∉ s.
Proof. unfold has. apply bool_decide_eq_false. Qed.

Lemma elem_of_idSet (apps : list MinAppType) (k : string) :
  k ∈ idSet apps ↔ ∃ a, a ∈ apps ∧ id a = k.
Proof.
  unfold idSet. rewrite elem_of_list_to_set, list_elem_of_fmap.
  split; intros (a & H1 & H2); exists a; auto.
Qed.

Lemma elem_of_idSet_ids (apps : list MinAppType) (k : string) :
  k ∈ idSet apps ↔ k ∈ map id apps.
Proof. unfold idSet. apply elem_of_list_to_set. Qed.

Lemma elem_of_js_filter {A} (p : A → bool) (l : list A) (x : A) :
  x ∈ List.filter p l ↔ x ∈ l ∧ p x = true.
Proof. rewrite !list_elem_of_In. apply filter_In. Qed.

Lemma js_filter_sublist {A} (p : A → bool) (l : list A) :
  sublist (List.filter p l) l.
Proof.
  induction l as [|x l IH]; simpl; [constructor|].
  destruct (p x); [by apply sublist_skip | by apply sublist_cons].
Qed.

Lemma js_filter_greatest {A} (p : A → bool) (l k : list A) :
  sublist k l → Forall (λ a, p a = true) k → sublist k (List.filter p l).
Proof.
  induction 1 as [|x k l Hs IH|x k l Hs IH]; intros Hall; simpl.
  - constructor.
  - inversion Hall as [|? ? Hx Hk]; subst. rewrite Hx.
    apply sublist_skip. by apply IH.
  - destruct (p x); [apply sublist_cons|]; by apply IH.
Qed.

Lemma visible_Global_iff (app : MinAppType) :
  isVisibleForRegion app Global = true ↔
  ∃ rs, supportedRegions app = Some rs ∧ rs ≠ [] ∧ Global ∈ rs.
Proof.
  unfold isVisibleForRegion, includes.
  destruct (supportedRegions app) as [rs|].
  - destruct rs as [|r rs]; simpl.
    + split; [discriminate|]. intros (? & [= <-] & Hne & _). by destruct Hne.
    + rewrite bool_decide_eq_true. split.
      * intros H. exists (r :: rs). by repeat split.
      * by intros (? & [= <-] & _ & H).
  - split; [discriminate|]. by intros (? & ? & _).
Qed.

(** C8 — region visibility rule.  CN sees every app; Global sees exactly the
    apps whose [supportedRegions] is present, non-empty and contains
    ['Global'] (so an app without the field is hidden from Global); and
    [filterByRegion] returns the visible apps of its argument, in their
    original order: it is a subsequence of the argument, it holds exactly
    the visible members, and every subsequence of visible apps is a
    subsequence of it. *)
Theorem region_visibility_rule :
  ∀ (app : MinAppType) (apps : list MinAppType) (region : SupportedRegion),
    isVisibleForRegion app CN = true
    ∧ (isVisibleForRegion app Global = true ↔
         ∃ rs, supportedRegions app = Some rs ∧ rs ≠ [] ∧ Global ∈ rs)
    ∧ (supportedRegions app = None → isVisibleForRegion app Global = false)
    ∧ sublist (filterByRegion apps region) apps
    ∧ (∀ a, a ∈ filterByRegion apps region ↔
              a ∈ apps ∧ isVisibleForRegion a region = true)
    ∧ (∀ l, sublist l apps →
            Forall (λ a, isVisibleForRegion a region = true) l →
            sublist l (filterByRegion apps region)).
Proof.
  intros app apps region. split_and!.
  - reflexivity.
  - apply visible_Global_iff.
  - intros Hnone. unfold isVisibleForRegion. by rewrite Hnone.
  - apply js_filter_sublist.
  - intros a. unfold filterByRegion.
    apply (elem_of_js_filter (λ x, isVisibleForRegion x region)).
  - intros l. unfold filterByRegion.
    apply (js_filter_greatest (λ x, isVisibleForRegion x region)).
Qed.

Section WritePath.
Variable allMinApps : list MinAppType.
Variable st : Store.

(** What an append of the preserved hidden apps guarantees: a stored app the
    filter [keep] retains is in [visible ++ toAppend] itself when its id is
    not among the visible ones, and its id is there in any case. *)
Lemma append_preserved (keep : MinAppType → bool) (stored visible : list MinAppType)
      (a : MinAppType) :
  a ∈ stored → keep a = true →
  let toAppend :=
    List.filter (λ app, negb (has (idSet visible) (id app))) (List.filter keep stored) in
  id a ∈ map id (visible ++ toAppend)
  ∧ (id a ∉ map id visible → a ∈ visible ++ toAppend).
Proof.
  intros Hin Hkeep toAppend.
  assert (Hnot : id a ∉ map id visible → a ∈ toAppend).
  { intros Hn. unfold toAppend. rewrite !elem_of_js_filter. split_and!; auto.
    apply negb_true_iff, has_false. by rewrite elem_of_idSet_ids. }
  split.
  - rewrite map_app, elem_of_app.
    destruct (decide (id a ∈ map id visible)) as [Hv|Hv]; [by left|right].
    apply list_elem_of_fmap. exists a. split; [done|]. by apply Hnot.
  - intros Hn. apply elem_of_app. right. by apply Hnot.
Qed.

Lemma updateMinapps_preserves (visible : list MinAppType) (a : MinAppType) :
  id a ∈ getHiddenApps allMinApps (effectiveRegion st) →
  a ∈ enabled st → id a ∉ idSet (disabled st) →
  id a ∈ map id (payload (updateMinapps allMinApps st visible))
  ∧ (id a ∉ map id visible → a ∈ payload (updateMinapps allMinApps st visible)).
Proof.
  intros Hhid Hin Hnd. unfold updateMinapps. cbv zeta. simpl payload.
  set (wd := List.filter (λ app, negb (has (idSet (disabled st)) (id app))) visible).
  set (keep := λ app : MinAppType,
         has (getHiddenApps allMinApps (effectiveRegion st)) (id app)
         && negb (has (idSet (disabled st)) (id app))).
  assert (Hkeep : keep a = true).
  { unfold keep. apply andb_true_iff. split; [by apply has_true|].
    by apply negb_true_iff, has_false. }
  destruct (append_preserved keep (enabled st) wd a Hin Hkeep) as [H1 H2].
  split.
  - rewrite map_app, elem_of_app. by left.
  - intros Hn. apply elem_of_app. left. apply H2.
    intros Hwd. apply Hn. apply list_elem_of_fmap in Hwd as (b & Hb & Hbin).
    apply list_elem_of_fmap. exists b. split; [done|].
    unfold wd in Hbin. by apply elem_of_js_filter in Hbin as [? _].
Qed.

End WritePath.

(** The write path keeps the preferences about the apps of the template
    list.  Take an app whose id is among [getHiddenApps effectiveRegion], the
    ids the template list [allMinApps] marks as not visible for the region.
    Every such app stored in the enabled list (and not
    disabled), the disabled list or the pinned list is still there, by id, in
    the list the matching update dispatches, whatever the visible-apps
    argument; when the argument holds no app of that id, the stored app
    itself is in the dispatched list. *)
Theorem write_path_preserves_hidden :
  ∀ (allMinApps : list MinAppType) (st : Store) (visible : list MinAppType)
    (a : MinAppType),
    id a ∈ getHiddenApps allMinApps (effectiveRegion st) →
    (a ∈ enabled st → id a ∉ idSet (disabled st) →
       ∃ l, updateMinapps allMinApps st visible = setMinApps l
            ∧ id a ∈ map id l ∧ (id a ∉ map id visible → a ∈ l))
    ∧ (a ∈ disabled st →
       ∃ l, updateDisabledMinapps allMinApps st visible = setDisabledMinApps l
            ∧ id a ∈ map id l ∧ (id a ∉ map id visible → a ∈ l))
    ∧ (a ∈ pinned st →
       ∃ l, updatePinnedMinapps allMinApps st visible = setPinnedMinApps l
            ∧ id a ∈ map id l ∧ (id a ∉ map id visible → a ∈ l)).
Proof.
  intros allMinApps st visible a Hhid. split_and!.
  - intros Hin Hnd. eexists. split; [reflexivity|].
    apply (updateMinapps_preserves allMinApps st visible a Hhid Hin Hnd).
  - intros Hin. eexists. split; [reflexivity|].
    apply (append_preserved _ (disabled st) visible a Hin).
    by apply has_true.
  - intros Hin. eexists. split; [reflexivity|].
    apply (append_preserved _ (pinned st) visible a Hin).
    by apply has_true.
Qed.

Lemma getHiddenApps_spec (allMinApps : list MinAppType) (region : SupportedRegion)
      (k : string) :
  k ∈ getHiddenApps allMinApps region ↔
  ∃ t, t ∈ allMinApps ∧ id t = k ∧ isVisibleForRegion t region = false.
Proof.
  unfold getHiddenApps, getRegionHiddenApps. rewrite elem_of_idSet. split.
  - intros (t & Ht & Hid). apply elem_of_js_filter in Ht as [Hin Hvis].
    exists t. split_and!; auto. by apply negb_true_iff.
  - intros (t & Hin & Hid & Hvis). exists t. split; [|done].
    apply elem_of_js_filter. split; [done|]. by apply negb_true_iff.
Qed.

Lemma write_path_preserves_hidden_witness :
  id Samples.cn_only_app
    ∈ getHiddenApps Samples.sample_apps (effectiveRegion Samples.sample_store)
  ∧ (Samples.cn_only_app ∈ enabled Samples.sample_store →
     id Samples.cn_only_app ∉ idSet (disabled Samples.sample_store) →
     ∃ l, updateMinapps Samples.sample_apps Samples.sample_store [Samples.global_app]
          = setMinApps l
          ∧ id Samples.cn_only_app ∈ map id l
          ∧ (id Samples.cn_only_app ∉ map id [Samples.global_app] →
             Samples.cn_only_app ∈ l))
  ∧ (Samples.cn_only_app ∈ disabled Samples.sample_store →
     ∃ l, updateDisabledMinapps Samples.sample_apps Samples.sample_store
            [Samples.global_app] = setDisabledMinApps l
          ∧ id Samples.cn_only_app ∈ map id l
          ∧ (id Samples.cn_only_app ∉ map id [Samples.global_app] →
             Samples.cn_only_app ∈ l))
  ∧ (Samples.cn_only_app ∈ pinned Samples.sample_store →
     ∃ l, updatePinnedMinapps Samples.sample_apps Samples.sample_store
            [Samples.global_app] = setPinnedMinApps l
          ∧ id Samples.cn_only_app ∈ map id l
          ∧ (id Samples.cn_only_app ∉ map id [Samples.global_app] →
             Samples.cn_only_app ∈ l)).
Proof.
  assert (Hhidden : id Samples.cn_only_app
            ∈ getHiddenApps Samples.sample_apps (effectiveRegion Samples.sample_store)).
  { apply (bool_decide_unpack _). vm_compute. exact I. }
  split; [exact Hhidden|].
  apply (write_path_preserves_hidden Samples.sample_apps Samples.sample_store
           [Samples.global_app] Samples.cn_only_app Hhidden).
Defined.

(** C9 — a stored app that the template list does not hold is lost on write.
    A Global user has an app of their own enabled and pinned and another one
    disabled; neither names a region, so both are hidden for Global and the
    read path shows neither in the enabled and the disabled list.  Writing
    back the lists as they were read dispatches an enabled list and a
    disabled list without them, and an update of the pinned list that does
    not name the pinned one drops it as well: only the apps the template
    list marks as hidden are merged back. *)
Theorem stored_custom_app_lost_on_write :
  let st := MoreSamples.custom_store in
  let allMinApps := Samples.sample_apps in
  effectiveRegion st = Global
  ∧ isVisibleForRegion MoreSamples.custom_app Global = false
  ∧ isVisibleForRegion MoreSamples.custom_disabled_app Global = false
  ∧ enabled st = [MoreSamples.custom_app; Samples.global_app]
  ∧ disabled st = [MoreSamples.custom_disabled_app]
  ∧ pinned st = [MoreSamples.custom_app]
  ∧ minapps allMinApps st = [Samples.global_app]
  ∧ disabledApps allMinApps st = []
  ∧ updateMinapps allMinApps st (minapps allMinApps st)
    = setMinApps [Samples.global_app; Samples.cn_only_app]
  ∧ updateDisabledMinapps allMinApps st (disabledApps allMinApps st)
    = setDisabledMinApps []
  ∧ updatePinnedMinapps allMinApps st [] = setPinnedMinApps [].
Proof. vm_compute. by split_and!. Qed.

End MinappsFacts.

(** ** Binary64 rounding *)
Module DoubleFacts.
Import Js Double.
#[local] Open Scope Z_scope.

Lemma nearest_even_floor (n d : Z) : 0 < d → n / d <= nearest_even n d.
Proof. intros Hd. unfold nearest_even. repeat case_match; lia. Qed.

Lemma nearest_even_ceil (n d c : Z) : 0 < d → n <= c * d → nearest_even n d <= c.
Proof.
  intros Hd Hle. pose proof (Z.div_mod n d ltac:(lia)) as Hdm.
  pose proof (Z.mod_pos_bound n d Hd) as Hr.
  assert (n / d <= c) by (apply Z.div_le_upper_bound; lia).
  assert (n mod d <> 0 → n / d < c) by nia.
  unfold nearest_even. repeat case_match; lia.
Qed.

Lemma spacing_spec (n d : Z) :
  0 <= n → 0 < d →
  ∃ k, spacing n d = 2 ^ k ∧ 0 <= k ∧ n / d < 2 ^ (k + 53)
       ∧ (0 < k → 2 ^ (k + 52) <= n / d).
Proof.
  intros Hn Hd. exists (Z.max 0 (Z.log2 (n / d) - 52)).
  assert (Hf : 0 <= n / d) by (apply Z.div_pos; lia).
  split; [reflexivity|]. split; [lia|].
  destruct (Z.eq_dec (n / d) 0) as [H0|Hnz].
  - rewrite H0. simpl Z.log2. rewrite Z.max_l by lia. split; [|lia].
    apply Z.pow_pos_nonneg; lia.
  - pose proof (Z.log2_spec (n / d) ltac:(lia)) as [Hlo Hhi].
    pose proof (Z.log2_nonneg (n / d)) as Hl.
    destruct (Z.le_gt_cases (Z.log2 (n / d)) 52) as [Hsmall|Hbig].
    + rewrite Z.max_l by lia. split; [|lia].
      eapply Z.lt_le_trans; [exact Hhi|]. apply Z.pow_le_mono_r; lia.
    + rewrite Z.max_r by lia. split.
      * replace (Z.log2 (n / d) - 52 + 53) with (Z.succ (Z.log2 (n / d))) by lia. done.
      * intros _. replace (Z.log2 (n / d) - 52 + 52) with (Z.log2 (n / d)) by lia. done.
Qed.

Lemma div_spacing (n d s : Z) : 0 < d → 0 < s → n / (d * s) = n / d / s.
Proof. intros. rewrite Z.div_div by lia. reflexivity. Qed.

Lemma round_units_lower (n d c : Z) :
  0 <= n → 0 < d → on_grid c → c * d <= n → c <= round_units n d.
Proof.
  intros Hn Hd (m & j & -> & Hm & Hj) Hle.
  destruct (spacing_spec n d Hn Hd) as (k & Hs & Hk & Hhi & Hlo).
  unfold round_units. rewrite Hs.
  assert (Hsp : 0 < 2 ^ k) by (apply Z.pow_pos_nonneg; lia).
  pose proof (nearest_even_floor n (d * 2 ^ k) ltac:(nia)) as Hfl.
  rewrite div_spacing in Hfl by lia.
  destruct (Z.le_gt_cases k j) as [Hkj|Hjk].
  - replace j with ((j - k) + k) in * by lia.
    rewrite Z.pow_add_r in * by lia.
    assert (0 <= 2 ^ (j - k)) by (apply Z.pow_nonneg; lia).
    assert (m * 2 ^ (j - k) <= n / d / 2 ^ k).
    { rewrite <- div_spacing by lia. apply Z.div_le_lower_bound; nia. }
    nia.
  - assert (Hkpos : 0 < k) by lia. specialize (Hlo Hkpos).
    assert (2 ^ 52 <= n / d / 2 ^ k).
    { apply Z.div_le_lower_bound; [lia|]. rewrite <- Z.pow_add_r by lia.
      replace (k + 52) with (k + 52) by lia. exact Hlo. }
    assert (m * 2 ^ j <= 2 ^ (k + 52)).
    { replace (k + 52) with (53 + (k - 1)) by lia. rewrite Z.pow_add_r by lia.
      assert (2 ^ j <= 2 ^ (k - 1)) by (apply Z.pow_le_mono_r; lia).
      assert (0 < 2 ^ j) by (apply Z.pow_pos_nonneg; lia).
      nia. }
    rewrite Z.pow_add_r in * by lia. nia.
Qed.

Lemma round_units_upper (n d c : Z) :
  0 <= n → 0 < d → on_grid c → n <= c * d → round_units n d <= c.
Proof.
  intros Hn Hd (m & j & -> & Hm & Hj) Hle.
  destruct (spacing_spec n d Hn Hd) as (k & Hs & Hk & Hhi & Hlo).
  unfold round_units. rewrite Hs.
  assert (Hsp : 0 < 2 ^ k) by (apply Z.pow_pos_nonneg; lia).
  destruct (Z.le_gt_cases k j) as [Hkj|Hjk].
  - replace j with ((j - k) + k) in * by lia.
    rewrite Z.pow_add_r in * by lia.
    assert (0 <= 2 ^ (j - k)) by (apply Z.pow_nonneg; lia).
    pose proof (nearest_even_ceil n (d * 2 ^ k) (m * 2 ^ (j - k)) ltac:(nia) ltac:(nia)).
    nia.
  - exfalso. assert (Hkpos : 0 < k) by lia. specialize (Hlo Hkpos).
    assert (n / d <= m * 2 ^ j) by (apply Z.div_le_upper_bound; lia).
    assert (m * 2 ^ j < 2 ^ (k + 52)).
    { replace (k + 52) with (53 + (k - 1)) by lia. rewrite Z.pow_add_r by lia.
      assert (2 ^ j <= 2 ^ (k - 1)) by (apply Z.pow_le_mono_r; lia).
      assert (0 < 2 ^ j) by (apply Z.pow_pos_nonneg; lia).
      nia. }
    lia.
Qed.

Lemma round_units_on_grid (n d : Z) :
  0 <= n → 0 < d → on_grid (round_units n d) ∧ 0 <= round_units n d.
Proof.
  intros Hn Hd.
  destruct (spacing_spec n d Hn Hd) as (k & Hs & Hk & Hhi & Hlo).
  unfold round_units. rewrite Hs.
  assert (Hsp : 0 < 2 ^ k) by (apply Z.pow_pos_nonneg; lia).
  pose proof (nearest_even_floor n (d * 2 ^ k) ltac:(nia)) as Hfl.
  rewrite div_spacing in Hfl by lia.
  assert (Hq0 : 0 <= n / d / 2 ^ k) by (apply Z.div_pos; [apply Z.div_pos|]; lia).
  assert (Hq : n / d / 2 ^ k < 2 ^ 53).
  { apply Z.div_lt_upper_bound; [lia|]. rewrite <- Z.pow_add_r by lia. exact Hhi. }
  assert (Hce : nearest_even n (d * 2 ^ k) <= 2 ^ 53).
  { apply nearest_even_ceil; [nia|].
    pose proof (Z.div_mod n (d * 2 ^ k) ltac:(nia)) as Hdm.
    pose proof (Z.mod_pos_bound n (d * 2 ^ k) ltac:(nia)) as Hr.
    rewrite div_spacing in Hdm by lia. nia. }
  split; [|nia].
  destruct (Z.eq_dec (nearest_even n (d * 2 ^ k)) (2 ^ 53)) as [->|Hne].
  - exists (2 ^ 52), (k + 1). split_and!; try lia.
    rewrite Z.pow_add_r by lia. lia.
  - exists (nearest_even n (d * 2 ^ k)), k. split_and!; lia.
Qed.


Lemma unit_den_pos : 0 < unit_den.
Proof. apply Z.pow_pos_nonneg; lia. Qed.

Lemma Zpos_unit_den : Zpos (Z.to_pos unit_den) = unit_den.
Proof. apply Z2Pos.id, unit_den_pos. Qed.

Lemma unit_below_overflow (c : Z) : 0 <= c <= 10000 -> c * unit_den < overflow_units.
Proof.
  intros Hc. unfold overflow_units, unit_den.
  replace 2098 with (1024 + 1074) by lia. rewrite Z.pow_add_r by lia.
  assert (0 < 2 ^ 1074) by (apply Z.pow_pos_nonneg; lia).
  assert (10000 < 2 ^ 1024).
  { eapply Z.lt_le_trans with (2 ^ 14); [reflexivity|]. apply Z.pow_le_mono_r; lia. }
  nia.
Qed.

Lemma small_on_grid (c : Z) : 0 <= c <= 10000 -> on_grid (c * unit_den).
Proof.
  intros Hc. exists c, 1074. split; [reflexivity|]. split; [|lia].
  split; [lia|]. eapply Z.le_lt_trans with 10000; [lia|reflexivity].
Qed.

Lemma of_units_value (u : Z) :
  exists q, of_units u = Finite q /\ (q == u # Z.to_pos unit_den)%Q.
Proof. eexists. split; [reflexivity|]. apply Qred_correct. Qed.

Lemma of_units_0 : of_units 0 = Finite 0.
Proof.
  unfold of_units. rewrite (Qred_complete (0 # Z.to_pos unit_den) 0); reflexivity.
Qed.

Lemma of_units_small (c : Z) : of_units (c * unit_den) = Finite (Qred (inject_Z c)).
Proof.
  unfold of_units. f_equal. apply Qred_complete.
  unfold Qeq, inject_Z. cbn [Qnum Qden]. rewrite Zpos_unit_den. lia.
Qed.

Lemma round_pos_spec (n d : Z) :
  0 <= n -> 0 < d ->
  on_grid (round_units (n * unit_den) d) /\ 0 <= round_units (n * unit_den) d
  /\ round_pos n d =
     if overflow_units <=? round_units (n * unit_den) d then PosInf
     else of_units (round_units (n * unit_den) d).
Proof.
  intros Hn Hd. pose proof unit_den_pos.
  destruct (round_units_on_grid (n * unit_den) d ltac:(nia) Hd) as [Hg H0].
  split_and!; done.
Qed.

(** Rounding does not go below a double that is below the number. *)
Lemma round64_lower (q : Q) (c : Z) :
  on_grid c -> 0 <= c -> (c # Z.to_pos unit_den <= q)%Q ->
  round64 q = PosInf
  \/ exists u, on_grid u /\ c <= u < overflow_units /\ round64 q = of_units u.
Proof.
  intros Hg Hc Hle. destruct q as [n d]. unfold Qle in Hle. cbn [Qnum Qden] in Hle.
  rewrite Zpos_unit_den in Hle. pose proof unit_den_pos as Hu.
  unfold round64. cbn [Qnum Qden]. destruct n as [|p|p].
  - right. exists 0. assert (c = 0) by nia. subst c.
    split; [exact Hg|]. split; [split; [lia|apply Z.pow_pos_nonneg; lia]|].
    symmetry. apply of_units_0.
  - destruct (round_pos_spec (Zpos p) (Zpos d) ltac:(lia) ltac:(lia)) as (Hgu & H0 & ->).
    pose proof (round_units_lower (Zpos p * unit_den) (Zpos d) c ltac:(nia) ltac:(lia) Hg Hle).
    destruct (Z.leb_spec overflow_units (round_units (Zpos p * unit_den) (Zpos d))).
    + by left.
    + right. eexists. split_and!; [exact Hgu|lia|lia|reflexivity].
  - exfalso. nia.
Qed.

(** Rounding does not go above a double that is above the number. *)
Lemma round64_upper (q : Q) (c : Z) :
  on_grid c -> c < overflow_units -> (0 <= q)%Q -> (q <= c # Z.to_pos unit_den)%Q ->
  exists u, on_grid u /\ 0 <= u <= c /\ round64 q = of_units u.
Proof.
  intros Hg Hc H0 Hle. destruct q as [n d]. unfold Qle in Hle, H0. cbn [Qnum Qden] in Hle, H0.
  rewrite Zpos_unit_den in Hle. pose proof unit_den_pos as Hu.
  unfold round64. cbn [Qnum Qden]. destruct n as [|p|p].
  - exists 0. assert (0 <= c) by nia.
    split; [exists 0, 0; split; [reflexivity|lia]|]. split; [lia|].
    symmetry. apply of_units_0.
  - destruct (round_pos_spec (Zpos p) (Zpos d) ltac:(lia) ltac:(lia)) as (Hgu & H0' & ->).
    pose proof (round_units_upper (Zpos p * unit_den) (Zpos d) c ltac:(nia) ltac:(lia) Hg ltac:(lia)).
    destruct (Z.leb_spec overflow_units (round_units (Zpos p * unit_den) (Zpos d))); [lia|].
    eexists. split_and!; [exact Hgu|lia|lia|reflexivity].
  - exfalso. lia.
Qed.

(** A non-negative number rounds to [Infinity] or to a non-negative double. *)
Lemma round64_nonneg (q : Q) :
  (0 <= q)%Q ->
  round64 q = PosInf
  \/ exists u, on_grid u /\ 0 <= u < overflow_units /\ round64 q = of_units u.
Proof.
  intros H0. apply round64_lower; [| lia |].
  - exists 0, 0. split; [reflexivity|lia].
  - unfold Qle in *. cbn [Qnum Qden] in *. lia.
Qed.

Lemma of_units_inj (u v : Z) : of_units u = of_units v -> u = v.
Proof.
  unfold of_units. intros H.
  assert (Hq : Qred (u # Z.to_pos unit_den) = Qred (v # Z.to_pos unit_den)) by congruence.
  apply Qred_eq_iff in Hq. unfold Qeq in Hq. cbn [Qnum Qden] in Hq.
  rewrite Zpos_unit_den in Hq. pose proof unit_den_pos. nia.
Qed.

(** A double is left as it is. *)
Lemma round64_of_grid (q : Q) (c : Z) :
  on_grid c -> 0 <= c < overflow_units -> (q == c # Z.to_pos unit_den)%Q ->
  round64 q = of_units c.
Proof.
  intros Hg Hc Heq.
  destruct (round64_upper q c Hg ltac:(lia)) as (u & _ & Hu & Hr).
  - rewrite Heq. unfold Qle. cbn [Qnum Qden]. lia.
  - rewrite Heq. apply Qle_refl.
  - destruct (round64_lower q c Hg ltac:(lia)) as [Hinf|(u' & _ & Hu' & Hr')].
    + rewrite Heq. apply Qle_refl.
    + rewrite Hr in Hinf. discriminate.
    + rewrite Hr in Hr'. apply of_units_inj in Hr'. subst u'.
      assert (u = c) by lia. subst u. exact Hr.
Qed.


(** *** The percentage over doubles *)

Lemma units_le (u v : Z) :
  u <= v -> (u # Z.to_pos unit_den <= v # Z.to_pos unit_den)%Q.
Proof.
  intros. unfold Qle. cbn [Qnum Qden]. rewrite Zpos_unit_den.
  pose proof unit_den_pos. nia.
Qed.

Lemma units_nonneg (u : Z) : 0 <= u -> (0 <= u # Z.to_pos unit_den)%Q.
Proof. intros. unfold Qle. cbn [Qnum Qden]. lia. Qed.

Lemma units_small (c : Z) : (c * unit_den # Z.to_pos unit_den == inject_Z c)%Q.
Proof. unfold Qeq, inject_Z. cbn [Qnum Qden]. rewrite Zpos_unit_den. lia. Qed.

Lemma Qle_bool_false (x y : Q) : Qle_bool x y = false -> (y < x)%Q.
Proof.
  intros H. apply Qnot_le_lt. intros Hle. apply Qle_bool_iff in Hle. congruence.
Qed.

Lemma Qeq_bool_pos (x : Q) : (0 < x)%Q -> Qeq_bool x 0 = false.
Proof.
  intros H. destruct (Qeq_bool x 0) eqn:E; [|done].
  apply Qeq_bool_iff in E. rewrite E in H. by apply Qlt_irrefl in H.
Qed.


Lemma usedPercentOf_hundredths (a : number) (ub : Z) :
  double_or_inf a -> on_grid ub -> 0 <= ub < overflow_units ->
  exists k, 0 <= k <= 10000
    /\ Service.usedPercentOf a (of_units ub) = round64 (inject_Z k / 100).
Proof.
  intros Ha Hgb Hub.
  destruct (of_units_value ub) as (qb & Eb & Hqb). rewrite Eb.
  assert (Hqb0 : (0 <= qb)%Q) by (rewrite Hqb; apply units_nonneg; lia).
  unfold Service.usedPercentOf.
  assert (Ht : Double.add a (Finite qb) = PosInf
               \/ exists ut, on_grid ut /\ ub <= ut < overflow_units
                    /\ Double.add a (Finite qb) = of_units ut).
  { destruct Ha as [->|(ua & Hga & Hua & ->)]; [by left|].
    destruct (of_units_value ua) as (qa & -> & Hqa).
    change (Double.add (Finite qa) (Finite qb)) with (round64 (qa + qb)).
    apply round64_lower; [done|lia|].
    rewrite <- Hqb. rewrite <- (Qplus_0_l qb) at 1. apply Qplus_le_compat; [|apply Qle_refl].
    rewrite Hqa. apply units_nonneg; lia. }
  destruct Ht as [->|(ut & Hgt & Hut & ->)].
  - exists 0. split; [lia|]. vm_compute. reflexivity.
  - destruct (of_units_value ut) as (qt & -> & Hqt).
    unfold gt. destruct (Qle_bool qt 0) eqn:Epos; cbn [negb].
    { exists 0. split; [lia|]. vm_compute. reflexivity. }
    apply Qle_bool_false in Epos.
    change (Double.div (Finite qb) (Finite qt))
      with (rounded (if Qeq_bool qt 0
                     then (if Qeq_bool qb 0 then NaN else inf (Qneg_bool qb))
                     else Finite (qb / qt))).
    rewrite (Qeq_bool_pos _ Epos). cbn [rounded].
    destruct (round64_upper (qb / qt) (1 * unit_den)) as (ur & _ & Hur & ->).
    { apply small_on_grid; lia. }
    { apply unit_below_overflow; lia. }
    { apply Qle_shift_div_l; [done|]. by rewrite Qmult_0_l. }
    { rewrite units_small. apply Qle_shift_div_r; [done|]. rewrite Qmult_1_l.
      rewrite Hqb, Hqt. apply units_le. lia. }
    destruct (of_units_value ur) as (qr & -> & Hqr).
    change (Double.mul (Finite qr) (Finite 10000)) with (round64 (qr * 10000)).
    assert (Hqr0 : (0 <= qr)%Q) by (rewrite Hqr; apply units_nonneg; lia).
    assert (Hqr1 : (qr <= 1)%Q).
    { rewrite Hqr, <- (units_small 1). apply units_le. lia. }
    destruct (round64_upper (qr * 10000) (10000 * unit_den)) as (us & _ & Hus & ->).
    { apply small_on_grid; lia. }
    { apply unit_below_overflow; lia. }
    { lra. }
    { rewrite units_small. change (inject_Z 10000) with 10000%Q. lra. }
    destruct (of_units_value us) as (qs & -> & Hqs).
    assert (Hqs0 : (0 <= qs)%Q) by (rewrite Hqs; apply units_nonneg; lia).
    assert (Hqs1 : (qs <= 10000)%Q).
    { rewrite Hqs, <- (units_small 10000). apply units_le. lia. }
    cbn [Math_round].
    exists (Qfloor (qs + (1 # 2))). split.
    + split.
      * change 0 with (Qfloor 0). apply Qfloor_resp_le. lra.
      * change 10000 with (Qfloor (10000 + (1 # 2))). apply Qfloor_resp_le. lra.
    + reflexivity.
Qed.

Lemma usedPercentOf_zero_used (a : number) :
  double_or_inf a -> Service.usedPercentOf a (Finite 0) = Finite 0.
Proof.
  intros Ha. unfold Service.usedPercentOf.
  destruct (Double.add a (Finite 0)) as [qt| | |] eqn:Et.
  - unfold gt. destruct (Qle_bool qt 0) eqn:Epos; cbn [negb]; [done|].
    apply Qle_bool_false in Epos.
    change (Double.div (Finite 0) (Finite qt))
      with (rounded (if Qeq_bool qt 0
                     then (if Qeq_bool 0 0 then NaN else inf (Qneg_bool 0))
                     else Finite (0 / qt))).
    rewrite (Qeq_bool_pos _ Epos). cbn [rounded].
    assert (E0 : round64 (0 / qt) = Finite 0).
    { unfold round64. destruct qt as [n d]. destruct n; reflexivity. }
    rewrite E0. vm_compute. reflexivity.
  - vm_compute. reflexivity.
  - done.
  - done.
Qed.

Lemma usedPercentOf_zero_quota (ub : Z) :
  on_grid ub -> 0 < ub < overflow_units ->
  Service.usedPercentOf (Finite 0) (of_units ub) = Finite 100.
Proof.
  intros Hgb Hub.
  destruct (of_units_value ub) as (qb & Eb & Hqb). rewrite Eb.
  assert (Hqb0 : (0 < qb)%Q).
  { rewrite Hqb. unfold Qlt. cbn [Qnum Qden]. lia. }
  unfold Service.usedPercentOf.
  change (Double.add (Finite 0) (Finite qb)) with (round64 (0 + qb)).
  rewrite (round64_of_grid (0 + qb) ub Hgb ltac:(lia)) by (rewrite Qplus_0_l; exact Hqb).
  rewrite Eb. unfold gt.
  destruct (Qle_bool qb 0) eqn:Epos.
  { apply Qle_bool_iff in Epos. exfalso. by apply (Qlt_not_le _ _ Hqb0). }
  cbn [negb].
  change (Double.div (Finite qb) (Finite qb))
    with (rounded (if Qeq_bool qb 0
                   then (if Qeq_bool qb 0 then NaN else inf (Qneg_bool qb))
                   else Finite (qb / qb))).
  rewrite (Qeq_bool_pos _ Hqb0). cbn [rounded].
  rewrite (round64_of_grid (qb / qb) (1 * unit_den)).
  - rewrite of_units_small. vm_compute. reflexivity.
  - apply small_on_grid; lia.
  - split; [pose proof unit_den_pos; lia|apply unit_below_overflow; lia].
  - rewrite units_small. change (inject_Z 1) with 1%Q. apply Qmult_inv_r. intros E. rewrite E in Hqb0.
    by apply Qlt_irrefl in Hqb0.
Qed.


(** *** Agreement with the Standard Library's IEEE 754 *)

(** On the sample pairs the three operations give what [SpecFloat] gives
    for binary64. *)
Lemma operations_agree_with_SpecFloat :
  forallb
    (fun '((m1, e1), (m2, e2)) =>
       let x := SF m1 e1 in
       let y := SF m2 e2 in
       number_eqb (Double.add (of_spec_float x) (of_spec_float y))
                  (of_spec_float (SFadd 53 1024 x y))
       && number_eqb (Double.mul (of_spec_float x) (of_spec_float y))
                     (of_spec_float (SFmul 53 1024 x y))
       && number_eqb (Double.div (of_spec_float x) (of_spec_float y))
                     (of_spec_float (SFdiv 53 1024 x y)))
    MoreSamples.double_pairs = true.
Proof. vm_compute. reflexivity. Qed.

(** On the sample quotas the percentage is what [SpecFloat] gives. *)
Lemma usedPercentOf_agrees_with_SpecFloat :
  forallb
    (fun '(quota, used_quota) =>
       number_eqb
         (Service.usedPercentOf (round64 (inject_Z quota)) (round64 (inject_Z used_quota)))
         (of_spec_float (SF_usedPercent (SF quota 0) (SF used_quota 0))))
    MoreSamples.quota_pairs = true.
Proof. vm_compute. reflexivity. Qed.

(** The percentage is that of the doubles, not of the exact quotient:
    [57 / 800 * 10000] is [712.4999999999999] in doubles and rounds to 712,
    and a sum that overflows gives 0. *)
Lemma usedPercentOf_examples :
  Service.usedPercentOf (round64 743) (round64 57) = round64 (712 # 100)
  /\ Service.usedPercentOf (round64 519) (round64 1881) = round64 (7837 # 100)
  /\ Service.usedPercentOf (round64 519)
       (round64 (18809999999999993 # 10000000000000)) = round64 (7838 # 100)
  /\ Service.usedPercentOf (round64 (inject_Z (10 ^ 308)))
       (round64 (inject_Z (10 ^ 308))) = Finite 0.
Proof. vm_compute. repeat split. Qed.

End DoubleFacts.

(** ** The token service *)
Module ServiceFacts.
Import Js Service.

Section ServiceFacts.
Context `{Host}.

(** One step of the monad: binds, handlers and conditionals. *)
Ltac step := cbv beta iota zeta delta [bind try_catch ret throw negb].

(** Unfolds the monad and the primitives of the platform. *)
Ltac run :=
  cbv beta iota zeta delta
    [bind try_catch ret throw existsSync fs_call mkdir writeFile readFile unlink
     safeStorage_decryptString response_text response_json get_prop parse] in *;
  simpl in *.

Lemma getToken_returns (w : World) :
  ∃ t n, getToken w = (Returned t, set_fs_calls n w).
Proof.
  unfold getToken. run.
  destruct (bool_decide (is_Some (files w !! tokenFilePath)) || bool_decide (tokenFilePath ∈ dirs w));
    simpl; [|by exists None, (fs_calls w); destruct w].
  repeat case_match; simplify_eq/=; eauto.
Qed.

Lemma getRefreshToken_returns (w : World) :
  ∃ t n, getRefreshToken w = (Returned t, set_fs_calls n w).
Proof.
  unfold getRefreshToken. run.
  destruct (bool_decide (is_Some (files w !! refreshTokenFilePath))
            || bool_decide (refreshTokenFilePath ∈ dirs w));
    simpl; [|by exists None, (fs_calls w); destruct w].
  repeat case_match; simplify_eq/=; eauto.
Qed.

Lemma getToken_absent (w : World) :
  fst (existsSync tokenFilePath w) = Returned false → fst (getToken w) = Returned None.
Proof. unfold getToken. run. by intros [= ->]. Qed.

Lemma getRefreshToken_absent (w : World) :
  fst (existsSync refreshTokenFilePath w) = Returned false →
  fst (getRefreshToken w) = Returned None.
Proof. unfold getRefreshToken. run. by intros [= ->]. Qed.

Lemma getToken_undecryptable (w : World) (data : list byte) :
  files w !! tokenFilePath = Some data → decryptString data = None →
  fst (getToken w) = Returned None.
Proof.
  intros Hf Hd. unfold getToken. run.
  repeat (case_match; simplify_eq/=); done.
Qed.

Lemma getToken_stored (w : World) (data : list byte) :
  files w !! tokenFilePath = Some data → tokenFilePath ∉ dirs w →
  fs_fault (fs_calls w) = false →
  fst (getToken w) = Returned (decryptString data).
Proof.
  intros Hf Hd Hfault. unfold getToken. run.
  do 3 (rewrite ?Hf, ?Hfault, ?(bool_decide_false _ Hd); simpl).
  by destruct (decryptString data).
Qed.

Lemma getToken_some (w : World) (t : string) :
  fst (getToken w) = Returned (Some t) →
  ∃ data, files w !! tokenFilePath = Some data ∧ decryptString data = Some t.
Proof.
  unfold getToken. run. intros Hrun.
  repeat (case_match; simplify_eq/=); eauto.
Qed.

Lemma append_inj_l (d a b : string) : d +:+ a = d +:+ b → a = b.
Proof. induction d as [|c d IH]; simpl; [done|]. intros [= Heq]. by apply IH. Qed.

Lemma token_paths_differ : tokenFilePath ≠ refreshTokenFilePath.
Proof.
  unfold tokenFilePath, refreshTokenFilePath, path_join. intros Heq.
  apply append_inj_l in Heq. discriminate Heq.
Qed.

Lemma fetch_eq (r : Request) (w : World) :
  fetch r w =
  (match net_fetch (requests w ++ [r]) with
   | Got resp => Returned resp
   | NetworkFailure => Thrown (SystemError "net.fetch")
   end, set_requests (requests w ++ [r]) w).
Proof. unfold fetch. by destruct (net_fetch _). Qed.

(** What a successful [saveToken] has done. *)
Lemma saveToken_returned (a r : option JSON) (w w' : World) :
  saveToken a r w = (Returned tt, w') →
  ∃ s enc,
    a = Some (JStr s) ∧ encryptString s = Some enc
    ∧ files w' !! tokenFilePath = Some enc
    ∧ (tokenFilePath ∉ dirs w')
    ∧ requests w' = requests w
    ∧ (writes w' = writes w ++ [(tokenFilePath, enc)]
       ∨ ∃ rs renc, r = Some (JStr rs) ∧ encryptString rs = Some renc
           ∧ writes w' = writes w ++ [(tokenFilePath, enc); (refreshTokenFilePath, renc)]).
Proof.
  unfold saveToken, safeStorage_encryptString. run. intros Hrun.
  repeat (case_match; simplify_eq/=).
  all: repeat (match goal with Hx : _ || _ = false |- _ => apply orb_false_iff in Hx as [? ?] end).
  all: repeat (match goal with Hx : bool_decide _ = false |- _ => apply bool_decide_eq_false in Hx end).
  all: eexists _, _; split_and!; try done; simpl; try done.
  all: try (by rewrite lookup_insert_eq).
  all: try (rewrite lookup_insert_ne by (apply not_eq_sym, token_paths_differ); by rewrite lookup_insert_eq).
  all: try (by left).
  all: try (right; eexists _, _; split_and!; try done; by rewrite <- app_assoc).
Qed.


Lemma saveToken_requests (a r : option JSON) (w : World) :
  requests (snd (saveToken a r w)) = requests w.
Proof.
  unfold saveToken, safeStorage_encryptString. run.
  repeat (case_match; simplify_eq/=); done.
Qed.

(** [refreshAccessToken] never throws; it sends at most one request, the
    refresh request with the stored refresh token; and what it returns is
    [null] or the non-empty string the token endpoint answered as
    [access_token] in an ok response. *)
Lemma refreshAccessToken_spec (apiHost : string) (w : World) :
  ∃ r w',
    refreshAccessToken apiHost w = (Returned r, w')
    ∧ (requests w' = requests w ∧ r = None
       ∨ ∃ rt, fst (getRefreshToken w) = Returned (Some rt) ∧ rt ≠ ""
           ∧ requests w' = requests w ++ [refresh_request apiHost rt]
           ∧ (r = None
              ∨ ∃ s resp j,
                  r = Some (JStr s) ∧ s ≠ ""
                  ∧ net_fetch (requests w') = Got resp ∧ ok resp = true
                  ∧ json resp = Some j
                  ∧ prop j "access_token" = Some (Some (JStr s)))).
Proof.
  unfold refreshAccessToken. step.
  destruct (getRefreshToken_returns w) as (t & n & ->). simpl fst.
  destruct (present t) eqn:Hpresent; step;
    [|eexists _, _; split; [reflexivity|]; by left].
  destruct t as [rt|]; [|discriminate]. simpl default.
  assert (Hrt : rt ≠ "").
  { intros ->. discriminate Hpresent. }
  rewrite fetch_eq. simpl requests.
  set (hist := requests w ++ [refresh_request apiHost rt]).
  destruct (net_fetch hist) as [resp|] eqn:Hnet;
    [|eexists _, _; split; [reflexivity|]; right; exists rt; split_and!; auto].
  destruct (ok resp) eqn:Hok; step.
  2:{ unfold response_text. destruct (text resp);
        (eexists _, _; split; [reflexivity|]; right; exists rt; split_and!; auto). }
  unfold response_json.
  destruct (json resp) as [j|] eqn:Hj; step;
    [|eexists _, _; split; [reflexivity|]; right; exists rt; split_and!; auto].
  unfold get_prop.
  destruct (prop j "access_token") as [a|] eqn:Ha; step;
    [|eexists _, _; split; [reflexivity|]; right; exists rt; split_and!; auto].
  destruct (prop j "refresh_token") as [b|] eqn:Hb; step;
    [|eexists _, _; split; [reflexivity|]; right; exists rt; split_and!; auto].
  destruct (truthy a) eqn:Htruthy; step;
    [|eexists _, _; split; [reflexivity|]; right; exists rt; split_and!; auto].
  match goal with |- context [saveToken a b ?v] => set (w1 := v) end.
  pose proof (saveToken_requests a b w1) as Hreq.
  destruct (saveToken a b w1) as [[[]|e] w2] eqn:Hsave; simpl in Hreq;
    (eexists _, _; split; [reflexivity|]; right; exists rt; split_and!; auto).
  right. apply saveToken_returned in Hsave as (s & enc & -> & _).
  exists s, resp, j. split_and!; auto.
  - intros ->. discriminate Htruthy.
  - by rewrite Hreq.
Qed.





(** Without a usable token [authenticatedFetch] throws before any request. *)
Lemma authenticatedFetch_no_token (apiHost endpoint : string) (options : RequestInit)
      (w : World) (t : option string) :
  fst (getToken w) = Returned t → present t = false →
  authenticatedFetch apiHost endpoint options w =
  (Thrown (CherryINOAuthServiceError "No OAuth token found" None), snd (getToken w)).
Proof.
  intros Htok Hp. unfold authenticatedFetch. step.
  destruct (getToken_returns w) as (t' & n & Hget). rewrite Hget in *.
  simpl in Htok. injection Htok as ->. by rewrite Hp.
Qed.

Lemma getToken_requests (w : World) : requests (snd (getToken w)) = requests w.
Proof. by destruct (getToken_returns w) as (t & n & ->). Qed.




Lemma api_calls_no_token (apiHost : string) (w : World) (t : option string) :
  fst (getToken w) = Returned t → present t = false →
  getBalance apiHost w = (Thrown (CherryINOAuthServiceError "Failed to get balance"
                (Some (CherryINOAuthServiceError "No OAuth token found" None))),
     snd (getToken w))
  ∧ getUsage apiHost w = (Thrown (CherryINOAuthServiceError "Failed to get usage"
                  (Some (CherryINOAuthServiceError "No OAuth token found" None))),
       snd (getToken w))
  ∧ getUserInfo apiHost w =
      (Thrown (CherryINOAuthServiceError "Failed to get user info"
                  (Some (CherryINOAuthServiceError "No OAuth token found" None))),
       snd (getToken w)).
Proof.
  intros Htok Hp. unfold getBalance, getUsage, getUserInfo. step.
  rewrite !(authenticatedFetch_no_token apiHost _ no_options w t Htok Hp).
  by split_and!.
Qed.


(** The revocation step of [logout] returns whatever the network does. *)
Lemma revoke_step (r : Request) (w : World) :
  try_catch (fetch r ;;; ret tt) (fun _ => ret tt) w =
  (Returned tt, set_requests (requests w ++ [r]) w).
Proof. step. rewrite fetch_eq. by destruct (net_fetch _). Qed.

(** [logout] up to the deletions: the token is read, and revoked if there
    is one. *)
Lemma logout_unfold (apiHost : string) (w : World) :
  ∃ t n,
    getToken w = (Returned t, set_fs_calls n w)
    ∧ let w1 := if present t
                then set_requests (requests w ++ [revoke_request apiHost (default "" t)])
                       (set_fs_calls n w)
                else set_fs_calls n w in
      logout apiHost w =
      try_catch
        (tokenExists <- existsSync tokenFilePath ;;
         (if tokenExists then unlink tokenFilePath else ret tt) ;;;
         refreshExists <- existsSync refreshTokenFilePath ;;
         (if refreshExists then unlink refreshTokenFilePath else ret tt))
        (fun error => throw (CherryINOAuthServiceError "Failed to logout" (Some error)))
        w1.
Proof.
  destruct (getToken_returns w) as (t & n & Hget). exists t, n. split; [done|].
  unfold logout. rewrite !JsFacts.try_catch_unfold, JsFacts.bind_unfold, Hget. cbv beta iota.
  rewrite JsFacts.bind_unfold. destruct (present t); [by rewrite revoke_step|done].
Qed.

Lemma logout_requests (apiHost : string) (w : World) :
  requests (snd (logout apiHost w)) = requests w
  ∨ ∃ token, fst (getToken w) = Returned (Some token) ∧ token ≠ ""
      ∧ requests (snd (logout apiHost w)) = requests w ++ [revoke_request apiHost token].
Proof.
  destruct (logout_unfold apiHost w) as (t & n & Hget & ->). rewrite Hget.
  destruct (present t) eqn:Hp.
  - right. destruct t as [token|]; [|discriminate]. exists token.
    split_and!; [done|by apply JsFacts.nonempty_true|].
    run. repeat (case_match; simplify_eq/=); done.
  - left. run. repeat (case_match; simplify_eq/=); done.
Qed.

(** After a [logout] that returns, neither token file is there. *)
Lemma logout_returned (apiHost : string) (w : World) :
  fst (logout apiHost w) = Returned tt →
  fst (existsSync tokenFilePath (snd (logout apiHost w))) = Returned false
  ∧ fst (existsSync refreshTokenFilePath (snd (logout apiHost w))) = Returned false.
Proof.
  destruct (logout_unfold apiHost w) as (t & n & Hget & ->).
  set (w1 := if present t then _ else _).
  assert (Hfiles : files w1 = files w) by (unfold w1; by destruct (present t)).
  assert (Hdirs : dirs w1 = dirs w) by (unfold w1; by destruct (present t)).
  clearbody w1. run. rewrite Hfiles, Hdirs. intros Hret.
  pose proof token_paths_differ as Hdiff.
  repeat (case_match; simplify_eq/=);
    repeat (match goal with
            | Hx : _ || _ = false |- _ => apply orb_false_iff in Hx as [? ?]
            | Hx : bool_decide _ = false |- _ => apply bool_decide_eq_false in Hx
            | Hx : ¬ is_Some _ |- _ => rewrite <- eq_None_not_Some in Hx
            end);
    rewrite ?Hfiles, ?Hdirs, ?lookup_delete_eq, ?lookup_delete_ne in * by done;
    split; f_equal; apply orb_false_iff; split; apply bool_decide_eq_false;
    rewrite ?lookup_delete_eq, ?lookup_delete_ne by done;
    try done; try (rewrite <- eq_None_not_Some; done);
    try (intros [? ?]; congruence).
Qed.


(** On a disk whose calls succeed and where no directory sits at a token
    path, [logout] returns. *)
Lemma logout_healthy (apiHost : string) (w : World) :
  (∀ k, fs_fault k = false) →
  tokenFilePath ∉ dirs w → refreshTokenFilePath ∉ dirs w →
  fst (logout apiHost w) = Returned tt.
Proof.
  intros Hhealthy Ht Hr.
  destruct (logout_unfold apiHost w) as (t & n & Hget & ->).
  set (w1 := if present t then _ else _).
  assert (Hfiles : files w1 = files w) by (unfold w1; by destruct (present t)).
  assert (Hdirs : dirs w1 = dirs w) by (unfold w1; by destruct (present t)).
  clearbody w1. run.
  pose proof token_paths_differ as Hdiff.
  destruct (files w !! tokenFilePath) as [d1|] eqn:H1;
    destruct (files w !! refreshTokenFilePath) as [d2|] eqn:H2;
    repeat (progress (rewrite ?Hfiles, ?Hdirs, ?Hhealthy, ?H1, ?H2,
                        ?(bool_decide_false _ Ht), ?(bool_decide_false _ Hr),
                        ?lookup_delete_ne by done; simpl));
    done.
Qed.

Lemma logout_requests_exact (apiHost : string) (w : World) :
  ∃ t, fst (getToken w) = Returned t
       ∧ requests (snd (logout apiHost w)) =
         if present t
         then requests w ++ [revoke_request apiHost (default "" t)]
         else requests w.
Proof.
  destruct (logout_unfold apiHost w) as (t & n & Hget & ->). rewrite Hget.
  exists t. split; [done|].
  destruct (present t) eqn:Hp; run; repeat (case_match; simplify_eq/=); done.
Qed.
End ServiceFacts.

Lemma logout_ignores_network (h : Host) (net' : list Request → FetchOutcome)
      (apiHost : string) (w : World) :
  @logout (with_net h net') apiHost w = @logout h apiHost w.
Proof.
  destruct (@logout_unfold (with_net h net') apiHost w) as (t' & n' & Hget' & ->).
  destruct (@logout_unfold h apiHost w) as (t & n & Hget & ->).
  change (@getToken (with_net h net')) with (@getToken h) in Hget'.
  rewrite Hget in Hget'. simplify_eq. reflexivity.
Qed.


(** C5 — the token store round-trips through encryption.  After a
    [saveToken] that returned, the token file holds the output of
    [encryptString] on the access token, a following [getToken] (whose read
    succeeds) returns [decryptString] of it, which is the saved access token
    as soon as [decryptString] inverts [encryptString]; and what [saveToken]
    wrote is that ciphertext, followed at most by the ciphertext of the
    refresh token. *)
Theorem token_store_round_trip :
  ∀ (h : Host) (accessToken : string) (refreshToken : option JSON) (w w' : World),
    saveToken (Some (JStr accessToken)) refreshToken w = (Returned tt, w') →
    fs_fault (fs_calls w') = false →
    ∃ enc,
      encryptString accessToken = Some enc
      ∧ files w' !! tokenFilePath = Some enc
      ∧ fst (getToken w') = Returned (decryptString enc)
      ∧ ((∀ s b, encryptString s = Some b → decryptString b = Some s) →
         fst (getToken w') = Returned (Some accessToken))
      ∧ (writes w' = writes w ++ [(tokenFilePath, enc)]
         ∨ ∃ rs renc, refreshToken = Some (JStr rs) ∧ encryptString rs = Some renc
             ∧ writes w' =
                 writes w ++ [(tokenFilePath, enc); (refreshTokenFilePath, renc)]).
Proof.
  intros h accessToken refreshToken w w' Hsave Hread.
  apply saveToken_returned in Hsave
    as (s & enc & [= <-] & Henc & Hfile & Hdir & _ & Hwrites).
  pose proof (getToken_stored w' enc Hfile Hdir Hread) as Hget.
  exists enc. split_and!; auto.
  intros Hinv. by rewrite Hget, (Hinv _ _ Henc).
Qed.

(** C6 — [logout] revokes at best effort.  When [getToken] yields a
    non-empty access token, [logout] sends one request: a POST of that token,
    with the hint [access_token], to the revocation endpoint; when it yields
    none, [logout] sends nothing.  A token that is revoked was read from the
    token file.  What [logout] returns and leaves behind is the same whatever
    the network answers, a network that fails included; on a disk whose calls
    succeed it returns, the network notwithstanding; and once it has returned
    neither token file exists, so [hasToken] returns false. *)
Theorem logout_best_effort_revocation :
  ∀ (h : Host) (apiHost : string) (w : World),
    let revoke := fun token : string =>
      {| req_url := apiHost +:+ "/oauth2/revoke";
         req_method := Some "POST";
         req_headers := {[ "Content-Type" := "application/x-www-form-urlencoded" ]};
         req_body := Form [("token", token); ("token_type_hint", "access_token")] |} in
    (∀ token, fst (getToken w) = Returned (Some token) → token ≠ "" →
       requests (snd (logout apiHost w)) = requests w ++ [revoke token])
    ∧ (∀ t, fst (getToken w) = Returned t → present t = false →
       requests (snd (logout apiHost w)) = requests w)
    ∧ (requests (snd (logout apiHost w)) = requests w
       ∨ ∃ token data,
           files w !! tokenFilePath = Some data ∧ decryptString data = Some token
           ∧ token ≠ ""
           ∧ requests (snd (logout apiHost w)) = requests w ++ [revoke token])
    ∧ (∀ net', @logout (with_net h net') apiHost w = logout apiHost w)
    ∧ ((∀ k, fs_fault k = false) →
       tokenFilePath ∉ dirs w → refreshTokenFilePath ∉ dirs w →
       fst (logout apiHost w) = Returned tt)
    ∧ (fst (logout apiHost w) = Returned tt →
       fst (hasToken (snd (logout apiHost w))) = Returned false
       ∧ fst (existsSync refreshTokenFilePath (snd (logout apiHost w))) = Returned false).
Proof.
  intros h apiHost w revoke.
  destruct (logout_requests_exact apiHost w) as (t & Hget & Hreq).
  split_and!.
  - intros token Htok Hne. rewrite Hget in Htok. injection Htok as ->.
    rewrite Hreq. change (present (Some token)) with (nonempty token).
    by rewrite (proj2 (JsFacts.nonempty_true token) Hne).
  - intros t' Htok Hp. rewrite Hget in Htok. injection Htok as <-.
    by rewrite Hreq, Hp.
  - destruct (logout_requests apiHost w) as [Hsame|(token & Htok & Hne & Hreq')];
      [by left|right].
    apply getToken_some in Htok as (data & Hfile & Hdec). by exists token, data.
  - intros net'. apply logout_ignores_network.
  - apply logout_healthy.
  - apply logout_returned.
Qed.

(** C7 — the API calls need a stored token.  [getToken] never throws and
    sends nothing; it returns [null] when the token file is absent and when
    decryption fails.  When it returns no usable token, [getBalance],
    [getUsage] and [getUserInfo] throw a [CherryINOAuthServiceError] and the
    list of requests sent is left as it was. *)
Theorem api_calls_require_token :
  ∀ (h : Host) (apiHost : string) (w : World),
    (∃ t w', getToken w = (Returned t, w') ∧ requests w' = requests w)
    ∧ (fst (existsSync tokenFilePath w) = Returned false →
       fst (getToken w) = Returned None)
    ∧ (∀ data, files w !! tokenFilePath = Some data → decryptString data = None →
               fst (getToken w) = Returned None)
    ∧ (∀ t, fst (getToken w) = Returned t → present t = false →
         (fst (getBalance apiHost w) =
            Thrown (CherryINOAuthServiceError "Failed to get balance"
                      (Some (CherryINOAuthServiceError "No OAuth token found" None)))
          ∧ requests (snd (getBalance apiHost w)) = requests w)
         ∧ (fst (getUsage apiHost w) =
              Thrown (CherryINOAuthServiceError "Failed to get usage"
                        (Some (CherryINOAuthServiceError "No OAuth token found" None)))
            ∧ requests (snd (getUsage apiHost w)) = requests w)
         ∧ (fst (getUserInfo apiHost w) =
              Thrown (CherryINOAuthServiceError "Failed to get user info"
                        (Some (CherryINOAuthServiceError "No OAuth token found" None)))
            ∧ requests (snd (getUserInfo apiHost w)) = requests w)).
Proof.
  intros h apiHost w. split_and!.
  - destruct (getToken_returns w) as (t & n & ->). by exists t, (set_fs_calls n w).
  - apply getToken_absent.
  - apply getToken_undecryptable.
  - intros t Htok Hp.
    destruct (api_calls_no_token apiHost w t Htok Hp) as (-> & -> & ->).
    simpl. rewrite getToken_requests. by split_and!.
Qed.

Import Samples.

Lemma token_store_round_trip_witness :
  @saveToken (host_with scripted_net) (Some (JStr "stale")) (Some (JStr "r1")) empty_world
    = (Returned tt, logged_in_world)
  ∧ @fs_fault (host_with scripted_net) (fs_calls logged_in_world) = false
  ∧ ∃ enc,
      @encryptString (host_with scripted_net) "stale" = Some enc
      ∧ files logged_in_world !! @tokenFilePath (host_with scripted_net) = Some enc
      ∧ fst (@getToken (host_with scripted_net) logged_in_world)
        = Returned (@decryptString (host_with scripted_net) enc)
      ∧ ((∀ s b, @encryptString (host_with scripted_net) s = Some b →
                 @decryptString (host_with scripted_net) b = Some s) →
         fst (@getToken (host_with scripted_net) logged_in_world) = Returned (Some "stale"))
      ∧ (writes logged_in_world
           = writes empty_world ++ [(@tokenFilePath (host_with scripted_net), enc)]
         ∨ ∃ rs renc, Some (JStr "r1") = Some (JStr rs)
             ∧ @encryptString (host_with scripted_net) rs = Some renc
             ∧ writes logged_in_world =
                 writes empty_world
                 ++ [(@tokenFilePath (host_with scripted_net), enc);
                     (@refreshTokenFilePath (host_with scripted_net), renc)]).
Proof.
  split; [vm_compute; reflexivity|]. split; [reflexivity|].
  apply (token_store_round_trip (host_with scripted_net) "stale" (Some (JStr "r1"))
           empty_world logged_in_world); vm_compute; reflexivity.
Defined.


End ServiceFacts.


(** ** The usage percentage *)
Module UsageFacts.
Import Js Service DoubleFacts.

Section UsageFacts.
Context `{Host}.

Ltac step := cbv beta iota zeta delta [bind try_catch ret throw negb].


End UsageFacts.



End UsageFacts.

(** ** The PKCE parameters *)
Module PkceFacts.
Import Js Pkce.

(** *** Strings as lists of characters *)

Lemma append_cons (c : ascii) (s t : string) : String c s +:+ t = String c (s +:+ t).
Proof. reflexivity. Qed.

Lemma append_nil_r (s : string) : s +:+ "" = s.
Proof. induction s as [|c s IH]; [done|]. by rewrite append_cons, IH. Qed.

Lemma list_of_append (s t : string) :
  String.list_ascii_of_string (s +:+ t) =
  String.list_ascii_of_string s ++ String.list_ascii_of_string t.
Proof. induction s as [|c s IH]; [done|]. rewrite append_cons. simpl. by f_equal. Qed.

Lemma join_empty_cons (x : string) (l : list string) :
  join "" (x :: l) = x +:+ join "" l.
Proof. destruct l as [|y l]; [by rewrite append_nil_r|done]. Qed.

Lemma get_lt (s : string) (i : nat) :
  (i < String.length s)%nat → ∃ c, String.get i s = Some c ∧ In c (String.list_ascii_of_string s).
Proof.
  revert i. induction s as [|c s IH]; intros i Hi; simpl in *; [lia|].
  destruct i as [|i]; [exists c; auto|].
  destruct (IH i) as (d & Hd & Hin); [lia|]. exists d. auto.
Qed.

(** *** [generateRandomString] *)

Lemma charset_length : String.length charset = 66%nat.
Proof. reflexivity. Qed.

Lemma charset_unreserved (c : ascii) :
  In c (String.list_ascii_of_string charset) → unreserved c = true.
Proof.
  assert (Hall : forallb unreserved (String.list_ascii_of_string charset) = true)
    by (vm_compute; reflexivity).
  rewrite forallb_forall in Hall. apply Hall.
Qed.

Lemma random_chars (array : list byte) :
  let s := join "" (map (fun b => char_at charset (Byte.to_nat b mod String.length charset))
                        array) in
  String.length s = length array
  ∧ Forall (fun c => In c (String.list_ascii_of_string charset))
           (String.list_ascii_of_string s).
Proof.
  induction array as [|b array [IHlen IHall]]; [by split|].
  cbv zeta in *. rewrite map_cons, join_empty_cons.
  destruct (get_lt charset (Byte.to_nat b mod String.length charset)) as (c & Hc & Hin).
  { apply Nat.mod_upper_bound. by rewrite charset_length. }
  set (rest := join "" _) in *. unfold char_at. rewrite Hc.
  change (String c "" +:+ rest) with (String c rest).
  cbn [String.length String.list_ascii_of_string length]. split.
  - by rewrite IHlen.
  - by constructor.
Qed.

Lemma generateRandomString_spec (n : nat) (rng : Rng) :
  let s := fst (generateRandomString n rng) in
  String.length s = n
  ∧ Forall (fun c => In c (String.list_ascii_of_string charset) ∧ unreserved c = true)
           (String.list_ascii_of_string s).
Proof.
  unfold generateRandomString, getRandomValues. cbn [fst].
  destruct (random_chars (map (stream rng) (seq (pos rng) n))) as [Hlen Hall].
  split.
  - by rewrite Hlen, length_map, length_seq.
  - eapply Forall_impl; [exact Hall|]. intros c Hc. split; [done|].
    by apply charset_unreserved.
Qed.


(** *** [base64UrlEncode] is base64url without padding *)

Lemma replace_all_list (c d : ascii) (l : list ascii) :
  replace_all c d (String.string_of_list_ascii l) =
  String.string_of_list_ascii (map (fun x => if Ascii.eqb x c then d else x) l).
Proof. induction l as [|x l IH]; simpl; [done|]. by rewrite IH. Qed.

Lemma strip_keep (x : ascii) (s : string) :
  x ≠ "="%char → strip_trailing_equals (String x s) = String x (strip_trailing_equals s).
Proof.
  intros Hx. simpl. apply Ascii.eqb_neq in Hx. rewrite Hx.
  by destruct (strip_trailing_equals s).
Qed.

Lemma strip_padding (k : nat) :
  strip_trailing_equals (String.string_of_list_ascii (repeat "="%char k)) = "".
Proof. induction k as [|k IH]; simpl; [done|]. by rewrite IH. Qed.

Lemma strip_data (l : list ascii) (k : nat) :
  Forall (fun x => x ≠ "="%char) l →
  strip_trailing_equals (String.string_of_list_ascii (l ++ repeat "="%char k)) =
  String.string_of_list_ascii l.
Proof.
  induction 1 as [|x l Hx Hl IH]; [apply strip_padding|].
  change (String.string_of_list_ascii ((x :: l) ++ repeat "="%char k))
    with (String x (String.string_of_list_ascii (l ++ repeat "="%char k))).
  rewrite (strip_keep _ _ Hx), IH. reflexivity.
Qed.

Lemma binary_of_bytes (bytes : list byte) (acc : string) :
  fold_left (fun binary b => binary +:+ String (ascii_of_byte b) "") bytes acc =
  acc +:+ String.string_of_list_ascii (map ascii_of_byte bytes).
Proof.
  revert acc. induction bytes as [|b bytes IH]; intros acc; simpl.
  - by rewrite append_nil_r.
  - rewrite IH. clear IH. induction acc as [|c acc IHacc]; [done|].
    rewrite !append_cons. by f_equal.
Qed.

Lemma code_of_byte (b : byte) : N_of_ascii (ascii_of_byte b) = Byte.to_N b.
Proof. destruct b; reflexivity. Qed.

Lemma N_of_bits_acc (bits : list bool) (acc : N) :
  fold_left (fun acc (b : bool) => (2 * acc + (if b then 1 else 0))%N) bits acc =
  (acc * 2 ^ N.of_nat (length bits) + N_of_bits bits)%N.
Proof.
  unfold N_of_bits. revert acc. induction bits as [|b bits IH]; intros acc.
  - simpl. lia.
  - cbn [fold_left length]. rewrite IH, (IH (2 * 0 + _)%N).
    rewrite Nat2N.inj_succ, N.pow_succ_r'. destruct b; lia.
Qed.

Lemma N_of_bits_app (x y : list bool) :
  N_of_bits (x ++ y) = (N_of_bits x * 2 ^ N.of_nat (length y) + N_of_bits y)%N.
Proof. unfold N_of_bits at 1. rewrite fold_left_app. apply N_of_bits_acc. Qed.

Lemma N_of_bits_bound (bits : list bool) :
  (N_of_bits bits < 2 ^ N.of_nat (length bits))%N.
Proof.
  induction bits as [|b bits IH] using rev_ind; [by vm_compute|].
  rewrite N_of_bits_app, length_app. simpl length.
  replace (N.of_nat (length bits + 1)) with (N.succ (N.of_nat (length bits))) by lia.
  rewrite N.pow_succ_r'. change (N_of_bits [b]) with (if b then 1%N else 0%N).
  destruct b; lia.
Qed.

Lemma N_of_bits_byte (b : byte) : N_of_bits (bits_of_byte b) = Byte.to_N b.
Proof. destruct b; reflexivity. Qed.

Lemma to_N_lt_256 (b : byte) : (Byte.to_N b < 256)%N.
Proof. destruct b; reflexivity. Qed.


Lemma below_64 (i : N) : (i < 64)%N → In i (map N.of_nat (seq 0 64)).
Proof.
  intros Hi. apply in_map_iff. exists (N.to_nat i). split; [lia|].
  apply in_seq. lia.
Qed.

Lemma url_alphabet (i : N) :
  (i < 64)%N →
  url_char_of (alphabet_char base64_alphabet i) = alphabet_char base64url_alphabet i
  ∧ alphabet_char base64url_alphabet i ≠ "="%char.
Proof.
  intros Hi.
  assert (Hall : forallb (fun i =>
            Ascii.eqb (url_char_of (alphabet_char base64_alphabet i))
                      (alphabet_char base64url_alphabet i)
            && negb (Ascii.eqb (alphabet_char base64url_alphabet i) "="))
            (map N.of_nat (seq 0 64)) = true) by (vm_compute; reflexivity).
  rewrite forallb_forall in Hall. specialize (Hall i (below_64 i Hi)).
  apply andb_true_iff in Hall as [H1 H2]. split.
  - by apply Ascii.eqb_eq.
  - apply Ascii.eqb_neq. by apply negb_true_iff.
Qed.

(** The groups of a block are the base-64 digits of the number its bits
    denote. *)
Lemma sextets3_bits (a b c : byte) (g0 g1 g2 g3 : list bool) :
  length g0 = 6%nat → length g1 = 6%nat → length g2 = 6%nat → length g3 = 6%nat →
  g0 ++ g1 ++ g2 ++ g3 = bits_of_byte a ++ bits_of_byte b ++ bits_of_byte c →
  map N_of_bits [g0; g1; g2; g3] = sextets3 (Byte.to_N a) (Byte.to_N b) (Byte.to_N c).
Proof.
  intros L0 L1 L2 L3 Hbits. apply (f_equal N_of_bits) in Hbits.
  rewrite !N_of_bits_app, !N_of_bits_byte in Hbits.
  rewrite !length_app, L1, L2, L3 in Hbits. simpl length in Hbits.
  pose proof (N_of_bits_bound g0) as B0. pose proof (N_of_bits_bound g1) as B1.
  pose proof (N_of_bits_bound g2) as B2. pose proof (N_of_bits_bound g3) as B3.
  rewrite ?L0, ?L1, ?L2, ?L3 in *.
  pose proof (to_N_lt_256 a). pose proof (to_N_lt_256 b). pose proof (to_N_lt_256 c).
  unfold sextets3. cbn [map].
  set (G0 := N_of_bits g0) in *. set (G1 := N_of_bits g1) in *.
  set (G2 := N_of_bits g2) in *. set (G3 := N_of_bits g3) in *.
  change (2 ^ N.of_nat 6)%N with 64%N in *.
  change (2 ^ N.of_nat (6 + (6 + 6)))%N with 262144%N in *.
  change (2 ^ N.of_nat (6 + 6))%N with 4096%N in *.
  change (2 ^ N.of_nat (8 + 8))%N with 65536%N in *.
  change (2 ^ N.of_nat 8)%N with 256%N in *.
  repeat f_equal; zify; Z.to_euclidean_division_equations; lia.
Qed.

Lemma sextets2_bits (a b : byte) (g0 g1 g2 : list bool) :
  length g0 = 6%nat → length g1 = 6%nat → length g2 = 6%nat →
  g0 ++ g1 ++ g2 = bits_of_byte a ++ bits_of_byte b ++ [false; false] →
  map N_of_bits [g0; g1; g2] = sextets2 (Byte.to_N a) (Byte.to_N b).
Proof.
  intros L0 L1 L2 Hbits. apply (f_equal N_of_bits) in Hbits.
  rewrite !N_of_bits_app, !N_of_bits_byte in Hbits.
  rewrite !length_app, L1, L2 in Hbits. simpl length in Hbits.
  pose proof (N_of_bits_bound g0) as B0. pose proof (N_of_bits_bound g1) as B1.
  pose proof (N_of_bits_bound g2) as B2.
  rewrite ?L0, ?L1, ?L2 in *.
  pose proof (to_N_lt_256 a). pose proof (to_N_lt_256 b).
  unfold sextets2. cbn [map].
  set (G0 := N_of_bits g0) in *. set (G1 := N_of_bits g1) in *.
  set (G2 := N_of_bits g2) in *.
  change (N_of_bits [false; false]) with 0%N in *.
  change (2 ^ N.of_nat 6)%N with 64%N in *.
  change (2 ^ N.of_nat (6 + 6))%N with 4096%N in *.
  change (2 ^ N.of_nat (8 + 2))%N with 1024%N in *.
  change (2 ^ N.of_nat 2)%N with 4%N in *.
  repeat f_equal; zify; Z.to_euclidean_division_equations; lia.
Qed.

Lemma sextets1_bits (a : byte) (g0 g1 : list bool) :
  length g0 = 6%nat → length g1 = 6%nat →
  g0 ++ g1 = bits_of_byte a ++ [false; false; false; false] →
  map N_of_bits [g0; g1] = sextets1 (Byte.to_N a).
Proof.
  intros L0 L1 Hbits. apply (f_equal N_of_bits) in Hbits.
  rewrite !N_of_bits_app, !N_of_bits_byte in Hbits.
  rewrite L1 in Hbits. simpl length in Hbits.
  pose proof (N_of_bits_bound g0) as B0. pose proof (N_of_bits_bound g1) as B1.
  rewrite ?L0, ?L1 in *.
  pose proof (to_N_lt_256 a).
  unfold sextets1. cbn [map].
  set (G0 := N_of_bits g0) in *. set (G1 := N_of_bits g1) in *.
  change (N_of_bits [false; false; false; false]) with 0%N in *.
  change (2 ^ N.of_nat 6)%N with 64%N in *.
  change (2 ^ N.of_nat 4)%N with 16%N in *.
  repeat f_equal; zify; Z.to_euclidean_division_equations; lia.
Qed.


Lemma list_ind3 {A} (P : list A → Prop) :
  P [] → (∀ a, P [a]) → (∀ a b, P [a; b]) →
  (∀ a b c l, P l → P (a :: b :: c :: l)) → ∀ l, P l.
Proof.
  intros H0 H1 H2 H3 l.
  assert (Hall : P l ∧ (∀ a, P (a :: l)) ∧ (∀ a b, P (a :: b :: l))).
  { induction l as [|c l (IH0 & IH1 & IH2)]; [by split_and!|].
    split_and!; auto. }
  by destruct Hall.
Qed.

Lemma url_chars (l : list N) :
  Forall (fun i => (i < 64)%N) l →
  map url_char_of (map (alphabet_char base64_alphabet) l) =
  map (alphabet_char base64url_alphabet) l.
Proof.
  induction 1 as [|i l Hi Hl IH]; [done|]. simpl.
  rewrite IH. f_equal. by apply url_alphabet.
Qed.

Lemma sextets_below_64 (a b c : N) :
  Forall (fun i => (i < 64)%N) (sextets3 a b c)
  ∧ Forall (fun i => (i < 64)%N) (sextets2 a b)
  ∧ Forall (fun i => (i < 64)%N) (sextets1 a).
Proof.
  unfold sextets3, sextets2, sextets1.
  split_and!; repeat constructor; by apply N.mod_lt.
Qed.

(** Block by block, the output of [btoa] with the two characters replaced is
    the unpadded base64url text followed by the padding. *)
Lemma encode_blocks (bytes : list byte) :
  ∃ k, map url_char_of (btoa_codes (map Byte.to_N bytes)) =
       map (fun g => alphabet_char base64url_alphabet (N_of_bits g))
           (groups_of_6 (flat_map bits_of_byte bytes))
       ++ repeat "="%char k.
Proof.
  induction bytes as [|a|a b|a b c rest [k IH]] using list_ind3.
  - by exists 0%nat.
  - exists 2%nat. cbn [map btoa_codes flat_map]. rewrite map_app.
    destruct (sextets_below_64 (Byte.to_N a) 0 0) as (_ & _ & S1).
    rewrite (url_chars _ S1).
    unfold bits_of_byte. cbn [app groups_of_6 firstn].
    erewrite <- sextets1_bits; [reflexivity| | |]; reflexivity.
  - exists 1%nat. cbn [map btoa_codes flat_map]. rewrite map_app.
    destruct (sextets_below_64 (Byte.to_N a) (Byte.to_N b) 0) as (_ & S2 & _).
    rewrite (url_chars _ S2).
    unfold bits_of_byte. cbn [app groups_of_6 firstn].
    erewrite <- sextets2_bits; [reflexivity| | | |]; reflexivity.
  - exists k. cbn [map btoa_codes flat_map]. rewrite map_app, IH.
    destruct (sextets_below_64 (Byte.to_N a) (Byte.to_N b) (Byte.to_N c)) as (S3 & _ & _).
    rewrite (url_chars _ S3).
    unfold bits_of_byte at 1 2 3. cbn [app groups_of_6].
    erewrite <- sextets3_bits; [reflexivity| | | | |]; reflexivity.
Qed.


Lemma groups_of_6_length (bits : list bool) :
  Forall (fun g => length g = 6%nat) (groups_of_6 bits).
Proof.
  assert (Hall : ∀ n bits, (length bits ≤ n)%nat →
                           Forall (fun g => length g = 6%nat) (groups_of_6 bits)).
  { clear bits. induction n as [|n IH]; intros bits Hlen.
    - destruct bits; [constructor|simpl in Hlen; lia].
    - destruct bits as [|b0 [|b1 [|b2 [|b3 [|b4 [|b5 rest]]]]]];
        try (by repeat constructor).
      cbn [groups_of_6]. constructor; [done|]. apply IH. simpl in Hlen. lia. }
  by apply (Hall (length bits)).
Qed.

Lemma no_padding_in_data (groups : list (list bool)) :
  Forall (fun g => length g = 6%nat) groups →
  Forall (fun x => x ≠ "="%char)
         (map (fun g => alphabet_char base64url_alphabet (N_of_bits g)) groups).
Proof.
  induction 1 as [|g groups Hg Hgs IH]; [constructor|].
  simpl. constructor; [|done].
  apply url_alphabet. pose proof (N_of_bits_bound g) as Hb. rewrite Hg in Hb.
  exact Hb.
Qed.

(** [base64UrlEncode] computes the unpadded base64url encoding. *)
Lemma base64UrlEncode_correct (buffer : list byte) :
  base64UrlEncode buffer = base64url_nopad buffer.
Proof.
  unfold base64UrlEncode, base64url_nopad, btoa. cbv zeta.
  rewrite binary_of_bytes.
  change ("" +:+ ?s) with s.
  rewrite String.list_ascii_of_string_of_list_ascii, map_map.
  rewrite (map_ext _ Byte.to_N) by apply code_of_byte.
  rewrite !replace_all_list, map_map.
  change (fun x : ascii => if Ascii.eqb (if Ascii.eqb x "+" then "-"%char else x) "/"
                           then "_"%char else if Ascii.eqb x "+" then "-"%char else x)
    with url_char_of.
  destruct (encode_blocks buffer) as [k ->].
  apply strip_data, no_padding_in_data, groups_of_6_length.
Qed.

(** A string of unreserved characters is encoded by [TextEncoder] as its
    ASCII bytes. *)
Lemma TextEncoder_ascii (s : string) :
  Forall (fun c => unreserved c = true) (String.list_ascii_of_string s) →
  TextEncoder_encode s = String.list_byte_of_string s.
Proof.
  unfold TextEncoder_encode, String.list_byte_of_string.
  induction 1 as [|c l Hc Hl IH]; [done|].
  cbn [flat_map map]. rewrite IH. unfold utf8_char.
  assert (Hlt : (N_of_ascii c <? 128)%N = true).
  { apply N.ltb_lt. unfold unreserved in Hc. cbv zeta in Hc.
    rewrite ?orb_true_iff, ?andb_true_iff, ?N.leb_le, ?N.eqb_eq in Hc. lia. }
  by rewrite Hlt.
Qed.

End PkceFacts.

(** ** The pending flows and the protocol callback *)
Module FlowFacts.
Import Js Pkce Flow.

Section FlowFacts.
Context `{Browser}.

(** *** [cleanupExpiredFlows] *)

Lemma sweep_lookup (now : Z) (entries : list (string * FlowData))
      (m : gmap string FlowData) (k : string) (f : FlowData) :
  fold_left (fun m entry => if expired now (snd entry) then delete (fst entry) m else m)
            entries m !! k = Some f
  ↔ m !! k = Some f ∧ ∀ g, (k, g) ∈ entries → expired now g = false.
Proof.
  revert m. induction entries as [|[k' g'] entries IH]; intros m.
  - simpl. split; [intros Hm; split; [done|]|by intros [Hm _]].
    intros g Hg. by apply elem_of_nil in Hg.
  - cbn [fold_left fst snd]. rewrite IH. clear IH.
    destruct (expired now g') eqn:Hexp.
    + rewrite lookup_delete_Some. split.
      * intros [[Hne Hm] Hrest]. split; [done|]. intros g Hg.
        apply elem_of_cons in Hg as [[= -> ->]|Hg]; [done|by apply Hrest].
      * intros [Hm Hall]. split_and!; [|done|].
        -- intros ->. specialize (Hall g' (list_elem_of_here _ _)). congruence.
        -- intros g Hg. apply Hall. by apply list_elem_of_further.
    + split.
      * intros [Hm Hrest]. split; [done|]. intros g Hg.
        apply elem_of_cons in Hg as [[= -> ->]|Hg]; [done|by apply Hrest].
      * intros [Hm Hall]. split; [done|]. intros g Hg. apply Hall.
        by apply list_elem_of_further.
Qed.

Lemma cleanupExpiredFlows_lookup (w : World) (k : string) (f : FlowData) :
  pendingOAuthFlows (snd (cleanupExpiredFlows w)) !! k = Some f
  ↔ pendingOAuthFlows w !! k = Some f ∧ expired (Date_now (clock_reads w)) f = false.
Proof.
  unfold cleanupExpiredFlows, Date_now_, bind. simpl. rewrite sweep_lookup. split.
  - intros [Hm Hall]. split; [done|]. apply Hall. by apply elem_of_map_to_list.
  - intros [Hm Hexp]. split; [done|]. intros g Hg.
    apply elem_of_map_to_list in Hg. congruence.
Qed.

Lemma cleanupExpiredFlows_returns (w : World) :
  fst (cleanupExpiredFlows w) = Returned tt.
Proof. reflexivity. Qed.

(** *** Settling and cleaning up *)

Lemma cleanup_cleans (state : string) (w : World) :
  promise w ≠ Pending → cleaned_up state (snd (cleanup state w)).
Proof.
  intros Hp. unfold cleaned_up, cleanup. simpl. split_and!; try done.
  apply lookup_delete_eq.
Qed.

Lemma reject_settles (reason : JsError) (w : World) :
  promise (snd (reject reason w)) ≠ Pending.
Proof. unfold reject. simpl. by destruct (promise w) eqn:Hp; simpl; rewrite ?Hp. Qed.

Lemma resolve_settles (value : string) (w : World) :
  promise (snd (resolve value w)) ≠ Pending.
Proof. unfold resolve. simpl. by destruct (promise w) eqn:Hp; simpl; rewrite ?Hp. Qed.

Lemma reject_cleanup (state : string) (reason : JsError) (w : World) :
  ∃ w', (reject reason ;;; cleanup state) w = (Returned tt, w') ∧ cleaned_up state w'.
Proof.
  eexists. split; [reflexivity|]. apply cleanup_cleans, reject_settles.
Qed.

Lemma onTimeout_cleans (state : string) (w : World) :
  ∃ w', onTimeout state w = (Returned tt, w')
        ∧ cleaned_up state w'
        ∧ (promise w = Pending → promise w' = Rejected (Error "OAuth flow timed out")).
Proof.
  eexists. split; [reflexivity|]. unfold cleaned_up. simpl.
  destruct (promise w) eqn:Hp; simpl; rewrite ?Hp; split_and!; try done;
    apply lookup_delete_eq.
Qed.


(** *** Rules for [ends_cleaned_up] *)

Lemma ends_bind {A B} (state : string) (m : M A) (k : A → M B) :
  (∀ a, ends_cleaned_up state (k a)) → ends_cleaned_up state (bind m k).
Proof.
  intros Hk w. unfold bind. destruct (m w) as [[a|e] w1]; [|done]. apply Hk.
Qed.

Lemma ends_throw {A} (state : string) (e : JsError) :
  ends_cleaned_up state (throw e : M A).
Proof. by intros w. Qed.

Lemma ends_cleanup_after {A} (state : string) (m : M A) :
  (∀ w, promise (snd (m w)) ≠ Pending) →
  ends_cleaned_up state (m ;;; cleanup state).
Proof.
  intros Hm w. unfold bind. specialize (Hm w).
  destruct (m w) as [[a|e] w1]; [|done]. by apply cleanup_cleans.
Qed.

Lemma ends_reject_cleanup (state : string) (reason : JsError) :
  ends_cleaned_up state (reject reason ;;; cleanup state).
Proof. apply ends_cleanup_after. intros w. apply reject_settles. Qed.

(** However the exchange goes, it ends with the flow cleaned up or with an
    exception, which the callback catches. *)
Lemma exchange_ends (state code : string) (flowData : FlowData) :
  ends_cleaned_up state (exchange state code flowData).
Proof.
  unfold exchange. cbv zeta.
  apply ends_bind. intros tokenResponse.
  destruct (ok tokenResponse); simpl negb; cbv iota.
  2:{ apply ends_bind. intros _. apply ends_throw. }
  apply ends_bind. intros tokenData.
  apply ends_bind. intros accessToken.
  apply ends_bind. intros refreshToken.
  destruct (truthy accessToken); simpl negb; cbv iota;
    [|apply ends_reject_cleanup].
  apply ends_bind. intros _.
  apply ends_bind. intros apiKeysResponse.
  destruct (ok apiKeysResponse); simpl negb; cbv iota.
  2:{ apply ends_bind. intros _. apply ends_throw. }
  apply ends_bind. intros apiKeysData.
  apply ends_bind. intros apiKeys.
  apply ends_cleanup_after. intros w.
  destruct (nonempty apiKeys); [|apply reject_settles].
  unfold bind, setKey. apply resolve_settles.
Qed.


(** *** The callback *)

Lemma settled_world_cleaned (state : string) (reason : JsError) (w : World) :
  cleaned_up state (snd ((reject reason ;;; cleanup state) w)).
Proof. destruct (reject_cleanup state reason w) as (w' & -> & Hc). exact Hc. Qed.

(** The callback never throws; it either leaves the world as it found it
    (the callback was not for this flow) or leaves the flow cleaned up. *)
Lemma onReceiveData_cases (state data_url : string) (w : World) :
  ∃ w', onReceiveData state data_url w = (Returned tt, w')
        ∧ (w' = w ∨ cleaned_up state w').
Proof.
  unfold onReceiveData. rewrite JsFacts.try_catch_unfold, JsFacts.bind_unfold.
  unfold new_URL. destruct (URL_parse data_url) as [url|]; cbv beta iota delta [ret throw].
  2:{ eexists. split; [reflexivity|]. right. apply settled_world_cleaned. }
  cbv zeta. pose proof (exchange_ends state) as Hex.
  repeat case_match; simplify_eq;
    try (eexists; split; [reflexivity|]; by left);
    try (eexists; split; [reflexivity|]; right; apply settled_world_cleaned).
  all: try match goal with
           | Heq : (reject ?r ;;; cleanup ?s) ?v = (_, _) |- _ =>
               pose proof (settled_world_cleaned s r v) as Hc;
               rewrite Heq in Hc; simpl in Hc
           end.
  all: try match goal with
           | Heq : exchange ?s ?c ?f ?v = _ |- _ =>
               specialize (Hex c f v); rewrite Heq in Hex
           end.
  all: repeat match goal with a : unit |- _ => destruct a end.
  all: eexists; split; [reflexivity|]; by right.
Qed.


(** A callback that carries a code and no error is ignored when its state
    is missing, is not pending, or is not the state of this invocation. *)
Lemma foreign_callback_ignored (state data_url : string) (url : URL) (w : World) :
  URL_parse data_url = Some url →
  present (assoc "error" (searchParams url)) = false →
  present (assoc "code" (searchParams url)) = true →
  (present (assoc "state" (searchParams url)) = false
   ∨ pendingOAuthFlows w !! default "" (assoc "state" (searchParams url)) = None
   ∨ default "" (assoc "state" (searchParams url)) ≠ state) →
  onReceiveData state data_url w = (Returned tt, w).
Proof.
  intros Hurl Herr Hcode Hstate.
  unfold onReceiveData. rewrite JsFacts.try_catch_unfold, JsFacts.bind_unfold.
  unfold new_URL. rewrite Hurl. cbv beta iota zeta delta [ret].
  destruct (negb (String.eqb (hostname url) "oauth")
            || negb (String.eqb (pathname url) "/callback")); [done|].
  rewrite Herr, Hcode. cbv beta iota delta [negb].
  destruct Hstate as [Hs|[Hs|Hs]].
  - by rewrite Hs.
  - rewrite Hs. rewrite (bool_decide_false (is_Some None)) by (by intros [? ?]).
    by rewrite orb_true_r.
  - apply String.eqb_neq in Hs. rewrite Hs.
    by destruct (_ || _).
Qed.

(** The callback of the invocation itself is never ignored. *)
Lemma own_callback_cleans (state data_url : string) (url : URL) (w : World)
      (flowData : FlowData) :
  URL_parse data_url = Some url →
  hostname url = "oauth" → pathname url = "/callback" →
  assoc "state" (searchParams url) = Some state → state ≠ "" →
  present (assoc "code" (searchParams url)) = true →
  pendingOAuthFlows w !! state = Some flowData →
  cleaned_up state (snd (onReceiveData state data_url w)).
Proof.
  intros Hurl Hhost Hpath Hstate Hne Hcode Hpending.
  unfold onReceiveData. rewrite JsFacts.try_catch_unfold, JsFacts.bind_unfold.
  unfold new_URL. rewrite Hurl. cbv beta iota zeta delta [ret].
  rewrite Hhost, Hpath, Hstate, Hcode. simpl default.
  rewrite !String.eqb_refl. cbv beta iota delta [negb orb].
  destruct (present (assoc "error" (searchParams url)));
    [apply settled_world_cleaned|].
  change (default "" (Some state)) with state.
  rewrite Hpending. unfold present, nonempty.
  rewrite (proj2 (String.eqb_neq _ _) Hne).
  rewrite (bool_decide_true (is_Some (Some flowData))) by eauto.
  cbv beta iota delta [negb orb].
  match goal with
  | |- context [exchange ?s ?c ?f ?v] =>
      pose proof (exchange_ends s c f v) as Hex;
      destruct (exchange s c f v) as [[[]|e] w1]
  end; [exact Hex|apply settled_world_cleaned].
Qed.


(** *** [oauthWithCherryIn] *)

Lemma assoc_filter_other {A} (k k' : string) (l : list (string * A)) :
  k ≠ k' →
  assoc k (List.filter (fun p => negb (String.eqb k' (fst p))) l) = assoc k l.
Proof.
  intros Hne. induction l as [|[k1 v1] l IH]; [done|]. simpl.
  destruct (String.eqb k' k1) eqn:H1; simpl.
  - apply String.eqb_eq in H1 as <-.
    by rewrite IH, (proj2 (String.eqb_neq _ _) Hne).
  - by rewrite IH.
Qed.

Lemma assoc_params_set_eq (k v : string) (params : list (string * string)) :
  assoc k (params_set k v params) = Some v.
Proof.
  induction params as [|[k1 v1] params IH]; simpl.
  - by rewrite String.eqb_refl.
  - destruct (String.eqb k k1) eqn:H1; simpl; rewrite ?String.eqb_refl, ?H1; done.
Qed.

Lemma assoc_params_set_ne (k k' v : string) (params : list (string * string)) :
  k ≠ k' → assoc k (params_set k' v params) = assoc k params.
Proof.
  intros Hne. induction params as [|[k1 v1] params IH]; simpl.
  - by rewrite (proj2 (String.eqb_neq _ _) Hne).
  - destruct (String.eqb k' k1) eqn:H1; simpl.
    + apply String.eqb_eq in H1 as <-.
      rewrite (proj2 (String.eqb_neq _ _) Hne). by apply assoc_filter_other.
    + by rewrite IH.
Qed.

(** The resolved configuration of an invocation. *)
Lemma oauthWithCherryIn_returned (config : NewApiOAuthConfig) (w w' : World)
      (state : string) :
  oauthWithCherryIn config w = (Returned state, w') →
  let verifier := fst (generateRandomString 64 (rng w)) in
  let rng1 := snd (generateRandomString 64 (rng w)) in
  let w1 := set_rng rng1 (snd (cleanupExpiredFlows w)) in
  ∃ (url0 authUrl : URL) (resolved : ResolvedNewApiOAuthConfig),
    URL_parse (oauthServer config +:+ "/oauth2/auth") = Some url0
    ∧ state = fst (generateRandomString 32 rng1)
    ∧ pendingOAuthFlows w' =
        <[state := mkFlowData verifier resolved (Date_now (S (clock_reads w)))]>
          (pendingOAuthFlows (interfere (awaits w) w1))
    ∧ opened w' = opened w ++ [authUrl]
    ∧ assoc "code_challenge" (searchParams authUrl)
        = Some (@generateCodeChallenge crypto verifier)
    ∧ assoc "code_challenge_method" (searchParams authUrl) = Some "S256"
    ∧ assoc "state" (searchParams authUrl) = Some state
    ∧ listening w' = true ∧ timeoutId w' = Some (S (timers w)) ∧ promise w' = Pending.
Proof.
  intros Hrun verifier rng1 w1. unfold oauthWithCherryIn in Hrun.
  rewrite JsFacts.bind_unfold in Hrun.
  change (cleanupExpiredFlows w) with (Returned tt, snd (cleanupExpiredFlows w)) in Hrun.
  cbv beta iota zeta delta [bind ret throw generateRandomString_ await_ Date_now_ new_URL]
    in Hrun.
  set (wc := snd (cleanupExpiredFlows w)) in *.
  assert (Hrng : rng wc = rng w) by reflexivity.
  assert (Hawaits : awaits wc = awaits w) by reflexivity.
  assert (Hclock : clock_reads wc = S (clock_reads w)) by reflexivity.
  assert (Hopened : opened wc = opened w) by reflexivity.
  assert (Htimers : timers wc = timers w) by reflexivity.
  clearbody wc. subst verifier rng1 w1. rewrite <- Hrng, <- Hawaits, <- Hopened, <- Htimers.
  destruct (generateRandomString 64 (rng wc)) as [verifier rng1] eqn:Hverifier.
  simpl in Hrun. 
  destruct (generateRandomString 32 rng1) as [st rng2] eqn:Hstate.
  simpl in Hrun.
  destruct (URL_parse (oauthServer config +:+ "/oauth2/auth")) as [url0|]; [|discriminate].
  simpl in Hrun. injection Hrun as <- <-.
  eexists url0, _, _. split_and!; try reflexivity.
  - simpl. by rewrite Hclock.
  - simpl. rewrite assoc_params_set_ne by discriminate. apply assoc_params_set_eq.
  - simpl. apply assoc_params_set_eq.
  - simpl. rewrite !assoc_params_set_ne by discriminate. apply assoc_params_set_eq.
Qed.


(** Whatever else a callback carries, no request is sent for it when its
    state is missing, is not pending, or is not the state of this
    invocation. *)
Lemma foreign_callback_no_exchange (state data_url : string) (w : World) :
  (∀ url, URL_parse data_url = Some url →
     present (assoc "state" (searchParams url)) = false
     ∨ pendingOAuthFlows w !! default "" (assoc "state" (searchParams url)) = None
     ∨ default "" (assoc "state" (searchParams url)) ≠ state) →
  requests (snd (onReceiveData state data_url w)) = requests w
  ∧ saved (snd (onReceiveData state data_url w)) = saved w
  ∧ keys (snd (onReceiveData state data_url w)) = keys w.
Proof.
  intros Hstate.
  unfold onReceiveData. rewrite JsFacts.try_catch_unfold, JsFacts.bind_unfold.
  unfold new_URL. destruct (URL_parse data_url) as [url|] eqn:Hurl;
    cbv beta iota zeta delta [ret throw].
  2:{ unfold bind, reject, cleanup. simpl. by destruct (promise w). }
  specialize (Hstate url eq_refl).
  destruct (negb (String.eqb (hostname url) "oauth")
            || negb (String.eqb (pathname url) "/callback")); [done|].
  destruct (present (assoc "error" (searchParams url))).
  { unfold bind, reject, cleanup. simpl. by destruct (promise w). }
  destruct (present (assoc "code" (searchParams url))); cbv beta iota delta [negb].
  2:{ unfold bind, reject, cleanup. simpl. by destruct (promise w). }
  destruct Hstate as [Hs|[Hs|Hs]].
  - by rewrite Hs.
  - rewrite Hs. rewrite (bool_decide_false (is_Some None)) by (by intros [? ?]).
    by destruct (present _).
  - apply String.eqb_neq in Hs. rewrite Hs. by destruct (_ || _).
Qed.

End FlowFacts.

(** C2 — the PKCE parameters follow the S256 method of RFC 7636.  When
    [oauthWithCherryIn] has opened the authorization window, the
    [code_verifier] stored for the flow has 64 characters (within the 43 to
    128 of the RFC), all of them from the charset of [generateRandomString],
    which holds unreserved characters only; the [code_challenge] parameter of
    the authorization URL is the base64url encoding without padding of the
    SHA-256 digest of the ASCII bytes of that verifier; and
    [code_challenge_method] is ['S256']. *)
Theorem pkce_parameters_S256 :
  ∀ (b : Browser) (config : NewApiOAuthConfig) (w w' : World) (state : string),
    oauthWithCherryIn config w = (Returned state, w') →
    ∃ (verifier : string) (authUrl : URL),
      codeVerifier <$> (pendingOAuthFlows w' !! state) = Some verifier
      ∧ String.length verifier = 64%nat
      ∧ (43 ≤ String.length verifier ≤ 128)%nat
      ∧ Forall (fun c => In c (String.list_ascii_of_string charset)
                         ∧ unreserved c = true)
               (String.list_ascii_of_string verifier)
      ∧ last (opened w') = Some authUrl
      ∧ assoc "code_challenge" (searchParams authUrl)
          = Some (base64url_nopad (@sha256 crypto (String.list_byte_of_string verifier)))
      ∧ assoc "code_challenge_method" (searchParams authUrl) = Some "S256".
Proof.
  intros b config w w' state Hrun.
  apply oauthWithCherryIn_returned in Hrun
    as (url0 & authUrl & resolved & _ & _ & Hpending & Hopened & Hchallenge & Hmethod & _).
  destruct (PkceFacts.generateRandomString_spec 64 (rng w)) as [Hlen Hchars].
  set (verifier := fst (generateRandomString 64 (rng w))) in *.
  exists verifier, authUrl. split_and!.
  - by rewrite Hpending, lookup_insert_eq.
  - exact Hlen.
  - rewrite Hlen. lia.
  - rewrite Hlen. lia.
  - exact Hchars.
  - rewrite Hopened. apply last_snoc.
  - rewrite Hchallenge. unfold generateCodeChallenge. cbv zeta.
    rewrite PkceFacts.base64UrlEncode_correct, PkceFacts.TextEncoder_ascii; [done|].
    eapply Forall_impl; [exact Hchars|]. by intros c [_ Hc].
  - exact Hmethod.
Qed.

(** What the flow cleans up once it is under way.  [cleanupExpiredFlows]
    keeps exactly the entries that are not older than
    10 minutes.  An invocation of [oauthWithCherryIn] that returns its promise
    has run that cleanup first and then stored, under its state, an entry
    with the time of creation; the listener is registered and the timer is
    armed.  The callback either ignores the data, changing nothing, or leaves
    the flow cleaned up: no entry under its state, the promise settled, the
    listener and the timer gone; the callback of the flow itself is never
    ignored.  The timer's callback leaves the flow cleaned up and rejects a
    promise that was pending. *)
Theorem pending_flows_are_cleaned_up :
  ∀ (b : Browser),
    (∀ (w : World) (k : string) (f : FlowData),
        pendingOAuthFlows (snd (cleanupExpiredFlows w)) !! k = Some f
        ↔ pendingOAuthFlows w !! k = Some f
          ∧ ¬ (Date_now (clock_reads w) - timestamp f > 10 * 60 * 1000)%Z)
    ∧ (∀ (config : NewApiOAuthConfig) (w w' : World) (state : string),
        oauthWithCherryIn config w = (Returned state, w') →
        ∃ (flow : FlowData) (w1 : World),
          pendingOAuthFlows w1 = pendingOAuthFlows (snd (cleanupExpiredFlows w))
          ∧ pendingOAuthFlows w' =
              <[state := flow]> (pendingOAuthFlows (interfere (awaits w) w1))
          ∧ timestamp flow = Date_now (S (clock_reads w))
          ∧ listening w' = true ∧ is_Some (timeoutId w') ∧ promise w' = Pending)
    ∧ (∀ (state data_url : string) (w : World),
        ∃ w', onReceiveData state data_url w = (Returned tt, w')
              ∧ (w' = w ∨ cleaned_up state w'))
    ∧ (∀ (state data_url : string) (url : URL) (w : World) (flowData : FlowData),
        URL_parse data_url = Some url →
        hostname url = "oauth" → pathname url = "/callback" →
        assoc "state" (searchParams url) = Some state → state ≠ "" →
        present (assoc "code" (searchParams url)) = true →
        pendingOAuthFlows w !! state = Some flowData →
        cleaned_up state (snd (onReceiveData state data_url w)))
    ∧ (∀ (state : string) (w : World),
        ∃ w', onTimeout state w = (Returned tt, w')
              ∧ cleaned_up state w'
              ∧ (promise w = Pending →
                 promise w' = Rejected (Error "OAuth flow timed out"))).
Proof.
  intros b. split_and!.
  - intros w k f. rewrite cleanupExpiredFlows_lookup. unfold expired.
    split; intros [Hm Hexp]; (split; [done|]).
    + destruct (Z.gtb_spec (Date_now (clock_reads w) - timestamp f) (10 * 60 * 1000));
        [discriminate|lia].
    + destruct (Z.gtb_spec (Date_now (clock_reads w) - timestamp f) (10 * 60 * 1000));
        [lia|done].
  - intros config w w' state Hrun.
    apply oauthWithCherryIn_returned in Hrun
      as (url0 & authUrl & resolved & _ & _ & Hpending & _ & _ & _ & _ & Hl & Ht & Hp).
    eexists _, _. split_and!; [|exact Hpending| | | |]; try done.
  - apply onReceiveData_cases.
  - apply own_callback_cleans.
  - apply onTimeout_cleans.
Qed.


(** C4 — a callback with an [error] parameter is handled before its state
    is looked at.  With two logins pending, the error callback of the flow
    ["OTHER"] reaches the listener of the flow ["S"]: the promise of ["S"] is
    rejected, its entry is deleted and its listener removed, and no request
    is sent. *)
Theorem error_callback_of_other_flow_rejects_this_flow :
  let data_url := "cherrystudio://oauth/callback?error=access_denied&state=OTHER" in
  let w' := snd (@onReceiveData Samples.sample_browser "S" data_url Samples.two_flows) in
  (assoc "state" <$> (searchParams <$> Samples.sample_URL_parse data_url)) = Some (Some "OTHER")
  ∧ is_Some (pendingOAuthFlows Samples.two_flows !! "OTHER")
  ∧ is_Some (pendingOAuthFlows Samples.two_flows !! "S")
  ∧ promise Samples.two_flows = Pending
  ∧ promise w' = Rejected (Error "OAuth error: access_denied")
  ∧ pendingOAuthFlows w' !! "S" = None
  ∧ listening w' = false
  ∧ requests w' = [].
Proof. vm_compute. split_and!; eauto. Qed.

Lemma pkce_parameters_S256_witness :
  @oauthWithCherryIn Samples.sample_browser Samples.login_config Samples.fresh_renderer
    = (Returned "6dAlQ1Y9gDoT4b_jGrW7eBmJuZ-hEpMx", Samples.started_renderer)
  ∧ ∃ (verifier : string) (authUrl : URL),
      codeVerifier <$> (pendingOAuthFlows Samples.started_renderer
                          !! "6dAlQ1Y9gDoT4b_jGrW7eBmJuZ-hEpMx") = Some verifier
      ∧ String.length verifier = 64%nat
      ∧ (43 ≤ String.length verifier ≤ 128)%nat
      ∧ Forall (fun c => In c (String.list_ascii_of_string charset)
                         ∧ unreserved c = true)
               (String.list_ascii_of_string verifier)
      ∧ last (opened Samples.started_renderer) = Some authUrl
      ∧ assoc "code_challenge" (searchParams authUrl)
          = Some (base64url_nopad
                    (@sha256 (@crypto Samples.sample_browser)
                       (String.list_byte_of_string verifier)))
      ∧ assoc "code_challenge_method" (searchParams authUrl) = Some "S256".
Proof.
  assert (Hrun : @oauthWithCherryIn Samples.sample_browser Samples.login_config
                   Samples.fresh_renderer
                 = (Returned "6dAlQ1Y9gDoT4b_jGrW7eBmJuZ-hEpMx", Samples.started_renderer))
    by (vm_compute; reflexivity).
  split; [exact Hrun|].
  apply (pkce_parameters_S256 Samples.sample_browser Samples.login_config
           Samples.fresh_renderer Samples.started_renderer
           "6dAlQ1Y9gDoT4b_jGrW7eBmJuZ-hEpMx" Hrun).
Defined.

End FlowFacts.


(** ** More on the token service *)
Module ServiceMore.
Import Js Service.

Ltac step := cbv beta iota zeta delta [bind try_catch ret throw negb].

Ltac run :=
  cbv beta iota zeta delta
    [bind try_catch ret throw existsSync fs_call mkdir writeFile readFile unlink
     safeStorage_decryptString response_text response_json get_prop parse] in *;
  simpl in *.

Section ServiceMore.
Context `{Host}.

Lemma try_catch_wrapped {A} (body : M A) (message : string) (w : World) (e : JsError) :
  fst (try_catch body
         (fun error => throw (CherryINOAuthServiceError message (Some error))) w)
    = Thrown e →
  ∃ cause, e = CherryINOAuthServiceError message (Some cause).
Proof.
  rewrite JsFacts.try_catch_unfold. destruct (body w) as [[a|cause] w']; simpl; [done|].
  intros [= <-]. by exists cause.
Qed.

Lemma rethrow_wrapped {A} (body : M A) (message : string) (w : World) (e : JsError) :
  fst (try_catch body (rethrow message) w) = Thrown e →
  ∃ msg cause, e = CherryINOAuthServiceError msg (Some cause).
Proof.
  rewrite JsFacts.try_catch_unfold. destruct (body w) as [[a|cause] w']; simpl; [done|].
  unfold rethrow. destruct cause; simpl; intros [= <-]; eauto.
Qed.

Lemma refreshAccessToken_returns (apiHost : string) (w : World) :
  ∃ r w', refreshAccessToken apiHost w = (Returned r, w').
Proof.
  destruct (ServiceFacts.refreshAccessToken_spec apiHost w) as (r & w' & Hrun & _).
  eauto.
Qed.

(** A [saveToken] whose refresh token is absent or empty never touches the
    refresh-token file, whether it returns or throws. *)
Lemma saveToken_keeps_refresh (a r : option JSON) (w : World) :
  truthy r = false →
  files (snd (saveToken a r w)) !! refreshTokenFilePath = files w !! refreshTokenFilePath.
Proof.
  intros Hr. unfold saveToken, safeStorage_encryptString. run. rewrite Hr.
  pose proof ServiceFacts.token_paths_differ as Hdiff.
  repeat (case_match; simplify_eq/=); try done;
    by rewrite lookup_insert_ne.
Qed.

(** A [saveToken] that returns with a refresh token has stored its
    ciphertext. *)
Lemma saveToken_stores_refresh (a r : option JSON) (w w' : World) :
  saveToken a r w = (Returned tt, w') → truthy r = true →
  ∃ rs renc, r = Some (JStr rs) ∧ encryptString rs = Some renc
             ∧ files w' !! refreshTokenFilePath = Some renc.
Proof.
  unfold saveToken, safeStorage_encryptString. run. intros Hrun Hr. rewrite Hr in Hrun.
  repeat (case_match; simplify_eq/=);
    eexists _, _; split_and!; try done; simpl; by rewrite lookup_insert_eq.
Qed.

(** What a refresh that yields a token has done: the token is a non-empty
    string, and its ciphertext is in the token file. *)
Lemma refreshAccessToken_saved (apiHost : string) (w w' : World) (v : JSON) :
  refreshAccessToken apiHost w = (Returned (Some v), w') →
  ∃ s enc, v = JStr s ∧ s ≠ "" ∧ encryptString s = Some enc
           ∧ files w' !! tokenFilePath = Some enc
           ∧ (tokenFilePath ∉ dirs w').
Proof.
  unfold refreshAccessToken. step.
  destruct (ServiceFacts.getRefreshToken_returns w) as (t & n & ->).
  destruct (present t) eqn:Hpresent; step; [|discriminate].
  rewrite ServiceFacts.fetch_eq. simpl requests.
  destruct (net_fetch _) as [resp|]; [|discriminate].
  destruct (ok resp); step.
  2:{ unfold response_text. by destruct (text resp). }
  unfold response_json. destruct (json resp) as [j|]; step; [|discriminate].
  unfold get_prop.
  destruct (prop j "access_token") as [a|]; step; [|discriminate].
  destruct (prop j "refresh_token") as [b|]; step; [|discriminate].
  destruct (truthy a) eqn:Htruthy; step; [|discriminate].
  match goal with |- context [saveToken a b ?u] => set (w1 := u) end.
  destruct (saveToken a b w1) as [[[]|e] w2] eqn:Hsave; [|discriminate].
  intros [= -> ->].
  apply ServiceFacts.saveToken_returned in Hsave
    as (s & enc & [= ->] & Henc & Hfile & Hdir & _).
  exists s, enc. split_and!; auto.
  intros ->. discriminate Htruthy.
Qed.

(** After a [logout] that returned, the token files are gone and no
    directory sits at their paths. *)
Lemma getToken_absent_world (w : World) :
  fst (existsSync tokenFilePath w) = Returned false → getToken w = (Returned None, w).
Proof. unfold getToken. run. by intros [= ->]. Qed.

Lemma logout_twice (apiHost apiHost' : string) (w : World) :
  fst (logout apiHost w) = Returned tt →
  logout apiHost' (snd (logout apiHost w)) = (Returned tt, snd (logout apiHost w)).
Proof.
  intros Hret. destruct (ServiceFacts.logout_returned apiHost w Hret) as [Ht Hr].
  set (w1 := snd (logout apiHost w)) in *. clearbody w1.
  destruct (ServiceFacts.logout_unfold apiHost' w1) as (t & n & Hget & ->).
  rewrite (getToken_absent_world w1 Ht) in Hget. injection Hget as Hnone Hw.
  subst t. rewrite <- Hw. cbv beta iota zeta delta [present].
  rewrite JsFacts.try_catch_unfold, JsFacts.bind_unfold.
  rewrite (surjective_pairing (existsSync tokenFilePath w1)), Ht.
  change (snd (existsSync tokenFilePath w1)) with w1. cbv beta iota.
  rewrite !JsFacts.bind_unfold. cbv beta iota delta [ret].
  rewrite JsFacts.bind_unfold.
  rewrite (surjective_pairing (existsSync refreshTokenFilePath w1)), Hr.
  reflexivity.
Qed.

Lemma getToken_reads_only (w : World) :
  files (snd (getToken w)) = files w ∧ dirs (snd (getToken w)) = dirs w
  ∧ requests (snd (getToken w)) = requests w ∧ writes (snd (getToken w)) = writes w.
Proof. by destruct (ServiceFacts.getToken_returns w) as (t & n & ->). Qed.

Lemma getToken_then_hasToken (w : World) (t : string) :
  fst (getToken w) = Returned (Some t) → fst (hasToken w) = Returned true.
Proof.
  intros Ht. apply ServiceFacts.getToken_some in Ht as (data & Hfile & _).
  unfold hasToken, existsSync. simpl. rewrite Hfile.
  by rewrite (bool_decide_true (is_Some (Some data))) by eauto.
Qed.


Lemma getUserInfo_of_response (apiHost : string) (w w' : World) (resp : Response) :
  authenticatedFetch apiHost "/api/v1/oauth/userinfo" no_options w = (Returned resp, w') →
  fst (getUserInfo apiHost w) =
  if ok resp then
    match json resp with
    | None => Thrown (CherryINOAuthServiceError "Failed to get user info"
                        (Some (SystemError "json")))
    | Some j =>
        match UserInfoResponseSchema (Some j) with
        | None => Thrown (CherryINOAuthServiceError "Invalid response format from server"
                            (Some ZodError))
        | Some (false, _) =>
            Thrown (CherryINOAuthServiceError "Failed to get user info"
                      (Some (CherryINOAuthServiceError "API returned success: false" None)))
        | Some (true, data) =>
            Returned (mkUserInfo (ui_id data) (ui_username data) (ui_display_name data)
                        (ui_email data) (ui_group data))
        end
    end
  else Thrown (CherryINOAuthServiceError "Failed to get user info" (Some (http_error resp))).
Proof.
  intros Hfetch. unfold getUserInfo, rethrow. step. rewrite Hfetch.
  unfold response_json, parse, http_error.
  destruct (ok resp); step; simpl; [|done].
  destruct (json resp); step; simpl; [|done].
  destruct (UserInfoResponseSchema _) as [[[] data]|]; step; simpl; done.
Qed.

End ServiceMore.

(** X1 — errors are wrapped.  Whatever [saveToken], [getBalance],
    [getUsage], [getUserInfo] and [logout] throw is a
    [CherryINOAuthServiceError] that carries its cause; [getToken],
    [hasToken] and the token refresh never throw. *)
Theorem service_errors_are_wrapped :
  ∀ (h : Host) (apiHost : string) (a r : option JSON) (w : World),
    (∀ e, fst (saveToken a r w) = Thrown e
          ∨ fst (getBalance apiHost w) = Thrown e
          ∨ fst (getUsage apiHost w) = Thrown e
          ∨ fst (getUserInfo apiHost w) = Thrown e
          ∨ fst (logout apiHost w) = Thrown e →
          ∃ msg cause, e = CherryINOAuthServiceError msg (Some cause))
    ∧ (∃ t, fst (getToken w) = Returned t)
    ∧ (∃ b, fst (hasToken w) = Returned b)
    ∧ (∃ t, fst (refreshAccessToken apiHost w) = Returned t).
Proof.
  intros h apiHost a r w. split_and!.
  - intros e [He|[He|[He|[He|He]]]].
    + apply try_catch_wrapped in He as [cause ->]. eauto.
    + by apply rethrow_wrapped in He.
    + by apply rethrow_wrapped in He.
    + by apply rethrow_wrapped in He.
    + apply try_catch_wrapped in He as [cause ->]. eauto.
  - destruct (ServiceFacts.getToken_returns w) as (t & n & ->). eauto.
  - eexists. reflexivity.
  - destruct (refreshAccessToken_returns apiHost w) as (t & w' & ->). eauto.
Qed.


(** X2 — the refresh token is replaced only by a new one.  A [saveToken]
    whose refresh token is absent or empty leaves the refresh-token file as
    it was, whether it returns or throws; a [saveToken] that returns with a
    refresh token has stored the ciphertext of that string. *)
Theorem saveToken_refresh_file :
  ∀ (h : Host) (a r : option JSON) (w : World),
    (truthy r = false →
     files (snd (saveToken a r w)) !! refreshTokenFilePath
     = files w !! refreshTokenFilePath)
    ∧ (∀ w', saveToken a r w = (Returned tt, w') → truthy r = true →
       ∃ rs renc, r = Some (JStr rs) ∧ encryptString rs = Some renc
                  ∧ files w' !! refreshTokenFilePath = Some renc).
Proof.
  intros h a r w. split.
  - apply saveToken_keeps_refresh.
  - intros w'. apply saveToken_stores_refresh.
Qed.

(** X3 — a refresh stores the token it returns.  When
    [refreshAccessToken] yields a token, the token is a non-empty string and
    the token file holds its ciphertext, so that the next [getToken] reads
    the new token. *)
Theorem refresh_stores_new_token :
  ∀ (h : Host) (apiHost : string) (w w' : World) (v : JSON),
    refreshAccessToken apiHost w = (Returned (Some v), w') →
    ∃ s enc, v = JStr s ∧ s ≠ "" ∧ encryptString s = Some enc
             ∧ files w' !! tokenFilePath = Some enc
             ∧ (tokenFilePath ∉ dirs w').
Proof. intros h. apply refreshAccessToken_saved. Qed.

Lemma refresh_stores_new_token_witness :
  ∃ s enc, JStr "fresh" = JStr s ∧ s ≠ ""
           ∧ @encryptString (Samples.host_with MoreSamples.token_net) s = Some enc
           ∧ files (snd (@refreshAccessToken (Samples.host_with MoreSamples.token_net)
                           "https://api" Samples.logged_in_world))
               !! @tokenFilePath (Samples.host_with MoreSamples.token_net) = Some enc
           ∧ (@tokenFilePath (Samples.host_with MoreSamples.token_net)
                ∉ dirs (snd (@refreshAccessToken (Samples.host_with MoreSamples.token_net)
                               "https://api" Samples.logged_in_world))).
Proof.
  apply (refresh_stores_new_token (Samples.host_with MoreSamples.token_net) "https://api"
           Samples.logged_in_world).
  vm_compute; reflexivity.
Defined.

(** X4 — logging out twice.  After a [logout] that returned, a second
    [logout] returns as well, sends no request and leaves the disk as it
    is. *)
Theorem logout_is_idempotent :
  ∀ (h : Host) (apiHost apiHost' : string) (w : World),
    fst (logout apiHost w) = Returned tt →
    logout apiHost' (snd (logout apiHost w)) = (Returned tt, snd (logout apiHost w)).
Proof. intros h. apply logout_twice. Qed.

Lemma logout_is_idempotent_witness :
  @logout (Samples.host_with Samples.dead_net) "https://api"
    (snd (@logout (Samples.host_with Samples.dead_net) "https://api"
            Samples.logged_in_world))
  = (Returned tt,
     snd (@logout (Samples.host_with Samples.dead_net) "https://api"
            Samples.logged_in_world)).
Proof.
  apply (logout_is_idempotent (Samples.host_with Samples.dead_net) "https://api"
           "https://api" Samples.logged_in_world).
  vm_compute; reflexivity.
Defined.

(** X5 — reading the token.  [getToken] changes neither the files nor
    the directories and sends nothing; and whenever it yields a token,
    [hasToken] answers [true]. *)
Theorem getToken_reads_without_writing :
  ∀ (h : Host) (w : World),
    files (snd (getToken w)) = files w
    ∧ dirs (snd (getToken w)) = dirs w
    ∧ requests (snd (getToken w)) = requests w
    ∧ writes (snd (getToken w)) = writes w
    ∧ (∀ t, fst (getToken w) = Returned (Some t) → fst (hasToken w) = Returned true).
Proof.
  intros h w. destruct (getToken_reads_only w) as (Hf & Hd & Hr & Hw).
  split_and!; try done. apply getToken_then_hasToken.
Qed.



End ServiceMore.


(** ** More on the usage percentage *)
Module UsageMore.
Import Js Service DoubleFacts.

(** X7 — the percentage has two decimals and meets its end points.  For a
    non-negative [quota] and a non-negative [used_quota] within the range of
    a double, [usedPercent] is the double nearest to a whole number of
    hundredths between 0.00 and 100.00; it is 0 when nothing was used, and
    100 when nothing is left and the usage is a double other than 0. *)
Theorem usedPercent_hundredths :
  ∀ quota used_quota : Q,
    (0 <= quota)%Q → (0 <= used_quota)%Q → Double.round64 used_quota ≠ PosInf →
    (∃ r : Z,
        (0 <= r <= 10000)%Z
        ∧ usedPercentOf (Double.round64 quota) (Double.round64 used_quota)
          = Double.round64 (inject_Z r / 100))
    ∧ ((used_quota == 0)%Q →
       usedPercentOf (Double.round64 quota) (Double.round64 used_quota) = Finite 0)
    ∧ ((quota == 0)%Q → Double.round64 used_quota ≠ Finite 0 →
       usedPercentOf (Double.round64 quota) (Double.round64 used_quota) = Finite 100).
Proof.
  intros quota used Hq Hu Hfin.
  destruct (round64_nonneg _ Hu) as [Hinf|(ub & Hgb & Hub & Eb)]; [done|].
  split; [|split].
  - rewrite Eb. apply usedPercentOf_hundredths; [by apply round64_nonneg|done..].
  - intros Hzero.
    assert (E0 : Double.round64 used = Finite 0).
    { destruct used as [n d]. unfold Qeq in Hzero. cbn [Qnum Qden] in Hzero.
      assert (n = 0%Z) by lia. by subst n. }
    rewrite E0. apply usedPercentOf_zero_used. by apply round64_nonneg.
  - intros Hzero Hnz.
    assert (E0 : Double.round64 quota = Finite 0).
    { destruct quota as [n d]. unfold Qeq in Hzero. cbn [Qnum Qden] in Hzero.
      assert (n = 0%Z) by lia. by subst n. }
    rewrite E0, Eb. apply usedPercentOf_zero_quota; [done|].
    split; [|lia]. destruct (Z.eq_dec ub 0%Z) as [->|]; [|lia].
    rewrite Eb, of_units_0 in Hnz. done.
Qed.

Lemma usedPercent_hundredths_witness :
  (∃ r : Z,
      (0 <= r <= 10000)%Z
      ∧ usedPercentOf (Double.round64 743) (Double.round64 57)
        = Double.round64 (inject_Z r / 100))
  ∧ ((57 == 0)%Q →
     usedPercentOf (Double.round64 743) (Double.round64 57) = Finite 0)
  ∧ ((743 == 0)%Q → Double.round64 57 ≠ Finite 0 →
     usedPercentOf (Double.round64 743) (Double.round64 57) = Finite 100).
Proof.
  apply (usedPercent_hundredths 743 57).
  - discriminate.
  - discriminate.
  - vm_compute. discriminate.
Defined.

End UsageMore.


(** ** More on the read and write paths of the mini apps *)
Module MinappsMore.
Import Minapps.

Section ReadWrite.
Variable allMinApps : list MinAppType.
Variable st : Store.

Lemma find_by_id (app : MinAppType) :
  match find (fun item => bool_decide (id item = id app)) allMinApps with
  | Some t => t ∈ allMinApps ∧ id t = id app
  | None => ∀ t, t ∈ allMinApps → id t ≠ id app
  end.
Proof.
  unfold find. destruct (List.find _ allMinApps) as [t|] eqn:Hfind.
  - apply find_some in Hfind as [Hin Hid].
    split; [by apply list_elem_of_In|]. by apply bool_decide_eq_true in Hid.
  - intros t Hin Hid. apply list_elem_of_In in Hin.
    pose proof (find_none _ _ Hfind t Hin) as Hno. simpl in Hno.
    by apply bool_decide_eq_false in Hno.
Qed.

Lemma mapApps_ids (apps : list MinAppType) :
  map id (mapApps allMinApps apps) = map id apps.
Proof.
  unfold mapApps. rewrite map_map. apply map_ext. intros app.
  pose proof (find_by_id app) as Hfind.
  destruct (find _ allMinApps) as [t|]; simpl; [by destruct Hfind|done].
Qed.

Lemma unique_by_id (t t' : MinAppType) :
  NoDup (map id allMinApps) → t ∈ allMinApps → t' ∈ allMinApps → id t = id t' → t = t'.
Proof.
  induction allMinApps as [|x l IH]; intros Hnd Ht Ht' Hid.
  - by apply elem_of_nil in Ht.
  - simpl in Hnd. apply NoDup_cons in Hnd as [Hx Hl].
    apply elem_of_cons in Ht as [->|Ht]; apply elem_of_cons in Ht' as [->|Ht'].
    + done.
    + destruct Hx. rewrite Hid. by apply list_elem_of_fmap_2.
    + destruct Hx. rewrite <- Hid. by apply list_elem_of_fmap_2.
    + by apply IH.
Qed.

(** With unique ids, a stored app whose id is a template's is mapped to that
    template. *)
Lemma mapApps_template (apps : list MinAppType) (a t : MinAppType) :
  NoDup (map id allMinApps) → a ∈ apps → t ∈ allMinApps → id t = id a →
  t ∈ mapApps allMinApps apps.
Proof.
  intros Hnd Ha Ht Hid. unfold mapApps. apply list_elem_of_fmap. exists a.
  split; [|done]. pose proof (find_by_id a) as Hfind.
  destruct (find _ allMinApps) as [t'|]; simpl.
  - destruct Hfind as [Ht' Hid']. apply (unique_by_id t t' Hnd Ht Ht'). congruence.
  - by destruct (Hfind t Ht).
Qed.

Lemma js_filter_app {A} (p : A → bool) (l k : list A) :
  List.filter p (l ++ k) = List.filter p l ++ List.filter p k.
Proof. apply List.filter_app. Qed.

Lemma js_filter_none {A} (p : A → bool) (l : list A) :
  (∀ x, x ∈ l → p x = false) → List.filter p l = [].
Proof.
  induction l as [|x l IH]; intros Hall; [done|]. simpl.
  rewrite (Hall x (list_elem_of_here _ _)). apply IH. intros y Hy. apply Hall.
  by apply list_elem_of_further.
Qed.

End ReadWrite.

(** X9 — what the read path shows.  Every app of [minapps] is visible for
    the effective region and is not disabled; every app of the displayed
    disabled list is visible; the pinned list is never filtered: it keeps the
    number and the ids of the stored pinned apps. *)
Theorem read_path_shows_visible_enabled :
  ∀ (allMinApps : list MinAppType) (st : Store) (a : MinAppType),
    (a ∈ minapps allMinApps st →
       isVisibleForRegion a (effectiveRegion st) = true
       ∧ id a ∉ map id (disabled st))
    ∧ (a ∈ disabledApps allMinApps st →
       isVisibleForRegion a (effectiveRegion st) = true)
    ∧ length (pinnedApps allMinApps st) = length (pinned st)
    ∧ map id (pinnedApps allMinApps st) = map id (pinned st).
Proof.
  intros allMinApps st a. split_and!.
  - unfold minapps, filterByRegion. cbv zeta.
    rewrite !MinappsFacts.elem_of_js_filter. intros [[_ Hnd] Hvis]. split; [done|].
    apply negb_true_iff, MinappsFacts.has_false in Hnd.
    by rewrite <- MinappsFacts.elem_of_idSet_ids.
  - unfold disabledApps, filterByRegion. rewrite MinappsFacts.elem_of_js_filter.
    by intros [_ Hvis].
  - unfold pinnedApps, mapApps. by rewrite length_map.
  - apply mapApps_ids.
Qed.

(** X10 — the read path hides no template app without cause.  When the ids
    of the template list are unique, every template app that is visible for
    the effective region and not disabled is shown by [minapps]. *)
Theorem read_path_shows_every_visible_template :
  ∀ (allMinApps : list MinAppType) (st : Store) (t : MinAppType),
    NoDup (map id allMinApps) →
    t ∈ allMinApps →
    isVisibleForRegion t (effectiveRegion st) = true →
    id t ∉ map id (disabled st) →
    t ∈ minapps allMinApps st.
Proof.
  intros allMinApps st t Hnd Ht Hvis Hdis.
  unfold minapps, filterByRegion. cbv zeta.
  rewrite !MinappsFacts.elem_of_js_filter. split; [split|done].
  - unfold getAllApps. cbv zeta. apply elem_of_app.
    destruct (decide (id t ∈ idSet (mapApps allMinApps (enabled st)))) as [Hin|Hout].
    + left. rewrite MinappsFacts.elem_of_idSet_ids, mapApps_ids in Hin.
      apply list_elem_of_fmap in Hin as (a & Hid & Ha).
      by apply (mapApps_template allMinApps (enabled st) a t).
    + right. apply MinappsFacts.elem_of_js_filter. split; [done|].
      apply andb_true_iff. split; apply negb_true_iff, MinappsFacts.has_false; [done|].
      by rewrite MinappsFacts.elem_of_idSet_ids.
  - apply negb_true_iff, MinappsFacts.has_false.
    by rewrite MinappsFacts.elem_of_idSet_ids.
Qed.

Lemma read_path_shows_every_visible_template_witness :
  NoDup (map id Samples.sample_apps)
  ∧ Samples.global_app ∈ Samples.sample_apps
  ∧ isVisibleForRegion Samples.global_app (effectiveRegion Samples.sample_store) = true
  ∧ (id Samples.global_app ∉ map id (disabled Samples.sample_store))
  ∧ Samples.global_app ∈ minapps Samples.sample_apps Samples.sample_store.
Proof.
  assert (H1 : NoDup (map id Samples.sample_apps))
    by (apply (bool_decide_unpack _); vm_compute; exact I).
  assert (H2 : Samples.global_app ∈ Samples.sample_apps)
    by (apply (bool_decide_unpack _); vm_compute; exact I).
  assert (H3 : isVisibleForRegion Samples.global_app
                 (effectiveRegion Samples.sample_store) = true) by reflexivity.
  assert (H4 : id Samples.global_app ∉ map id (disabled Samples.sample_store))
    by (apply (bool_decide_unpack _); vm_compute; exact I).
  split_and!; [exact H1|exact H2|exact H3|exact H4|].
  apply (read_path_shows_every_visible_template Samples.sample_apps Samples.sample_store
           Samples.global_app H1 H2 H3 H4).
Defined.

(** X11 — [updateMinapps] dispatches enabled apps only and drops no
    template app: no app of the dispatched list is disabled, and every
    template app that is not disabled is in it, by id. *)
Theorem updateMinapps_enabled_and_complete :
  ∀ (allMinApps : list MinAppType) (st : Store) (visible : list MinAppType),
    (∀ b, b ∈ payload (updateMinapps allMinApps st visible) →
          id b ∉ map id (disabled st))
    ∧ (∀ t, t ∈ allMinApps → id t ∉ map id (disabled st) →
            id t ∈ map id (payload (updateMinapps allMinApps st visible))).
Proof.
  intros allMinApps st visible. unfold updateMinapps. cbv zeta. simpl payload. split.
  - intros b Hb. rewrite <- MinappsFacts.elem_of_idSet_ids.
    apply MinappsFacts.has_false.
    rewrite !elem_of_app, !MinappsFacts.elem_of_js_filter in Hb.
    destruct Hb as [[[_ Hb]|[[_ Hb] _]]|[_ Hb]].
    + by apply negb_true_iff.
    + apply andb_true_iff in Hb as [_ Hb]. by apply negb_true_iff.
    + apply andb_true_iff in Hb as [_ Hb]. by apply negb_true_iff.
  - intros t Ht Hdis.
    match goal with |- _ ∈ map id (?merged ++ _) => set (m := merged) end.
    rewrite map_app, elem_of_app.
    destruct (decide (id t ∈ idSet m)) as [Hin|Hout].
    + left. by rewrite <- MinappsFacts.elem_of_idSet_ids.
    + right. apply list_elem_of_fmap_2, MinappsFacts.elem_of_js_filter.
      split; [done|]. apply andb_true_iff.
      split; apply negb_true_iff, MinappsFacts.has_false; [done|].
      by rewrite MinappsFacts.elem_of_idSet_ids.
Qed.

(** X12 — in region CN the writes are exact.  Nothing is hidden in CN, so
    [updateDisabledMinapps] and [updatePinnedMinapps] dispatch their argument
    as it is, and the region filter of the read path keeps every app. *)
Theorem CN_writes_are_exact :
  ∀ (allMinApps : list MinAppType) (st : Store) (visible : list MinAppType),
    effectiveRegion st = CN →
    updateDisabledMinapps allMinApps st visible = setDisabledMinApps visible
    ∧ updatePinnedMinapps allMinApps st visible = setPinnedMinApps visible
    ∧ filterByRegion visible (effectiveRegion st) = visible.
Proof.
  intros allMinApps st visible Hcn.
  assert (Hnone : ∀ k, has (getHiddenApps allMinApps (effectiveRegion st)) k = false).
  { intros k. apply MinappsFacts.has_false. rewrite Hcn.
    rewrite MinappsFacts.getHiddenApps_spec. by intros (t & _ & _ & Hvis). }
  unfold updateDisabledMinapps, updatePinnedMinapps. cbv zeta.
  rewrite !(js_filter_none (fun app => has _ (id app))) by (intros; apply Hnone).
  simpl. rewrite !app_nil_r. split_and!; [done|done|].
  rewrite Hcn. unfold filterByRegion. induction visible as [|a l IH]; [done|].
  cbn [List.filter isVisibleForRegion]. by f_equal.
Qed.

Lemma CN_writes_are_exact_witness :
  effectiveRegion (mkStore [] [Samples.cn_only_app] [] Auto None) = CN
  ∧ updateDisabledMinapps Samples.sample_apps
      (mkStore [] [Samples.cn_only_app] [] Auto None) [Samples.global_app]
    = setDisabledMinApps [Samples.global_app]
  ∧ updatePinnedMinapps Samples.sample_apps
      (mkStore [] [Samples.cn_only_app] [] Auto None) [Samples.global_app]
    = setPinnedMinApps [Samples.global_app]
  ∧ filterByRegion [Samples.global_app]
      (effectiveRegion (mkStore [] [Samples.cn_only_app] [] Auto None))
    = [Samples.global_app].
Proof.
  split; [reflexivity|].
  apply (CN_writes_are_exact Samples.sample_apps
           (mkStore [] [Samples.cn_only_app] [] Auto None) [Samples.global_app]).
  reflexivity.
Defined.

(** X13 — what a write merges back stays hidden on the next read.  With
    unique template ids, the hidden apps [updateDisabledMinapps] appends to
    its argument are filtered out again by the read path: reading the
    dispatched list shows what reading the argument shows. *)
Theorem merged_hidden_apps_stay_hidden :
  ∀ (allMinApps : list MinAppType) (st : Store) (visible : list MinAppType),
    NoDup (map id allMinApps) →
    filterByRegion
      (mapApps allMinApps (payload (updateDisabledMinapps allMinApps st visible)))
      (effectiveRegion st)
    = filterByRegion (mapApps allMinApps visible) (effectiveRegion st).
Proof.
  intros allMinApps st visible Hnd.
  unfold updateDisabledMinapps. cbv zeta. simpl payload.
  unfold mapApps at 1. rewrite map_app. fold (mapApps allMinApps visible).
  unfold filterByRegion at 1. rewrite js_filter_app.
  rewrite (js_filter_none _ (map _ _)); [by rewrite app_nil_r|].
  intros x Hx. apply list_elem_of_fmap in Hx as (a & -> & Ha).
  rewrite !MinappsFacts.elem_of_js_filter in Ha. destruct Ha as [[_ Hhid] _].
  apply MinappsFacts.has_true, MinappsFacts.getHiddenApps_spec in Hhid
    as (t & Ht & Hid & Hvis).
  pose proof (find_by_id allMinApps a) as Hfind.
  destruct (find _ allMinApps) as [t'|]; simpl.
  - destruct Hfind as [Ht' Hid'].
    by rewrite <- (unique_by_id allMinApps t t' Hnd Ht Ht') by congruence.
  - by destruct (Hfind t Ht).
Qed.

Lemma merged_hidden_apps_stay_hidden_witness :
  NoDup (map id Samples.sample_apps)
  ∧ filterByRegion
      (mapApps Samples.sample_apps
         (payload (updateDisabledMinapps Samples.sample_apps
                     (mkStore [] [Samples.cn_only_app] [] (Fixed Global) None)
                     [Samples.global_app])))
      (effectiveRegion (mkStore [] [Samples.cn_only_app] [] (Fixed Global) None))
    = filterByRegion (mapApps Samples.sample_apps [Samples.global_app])
        (effectiveRegion (mkStore [] [Samples.cn_only_app] [] (Fixed Global) None)).
Proof.
  assert (H1 : NoDup (map id Samples.sample_apps))
    by (apply (bool_decide_unpack _); vm_compute; exact I).
  split; [exact H1|].
  apply (merged_hidden_apps_stay_hidden Samples.sample_apps
           (mkStore [] [Samples.cn_only_app] [] (Fixed Global) None)
           [Samples.global_app] H1).
Defined.

End MinappsMore.


(** ** More on the CherryIN login *)
Module FlowMore.
Import Js Pkce Flow.

Section FlowMore.
Context `{Browser}.

(** *** The requests a computation sends are added to those sent before *)

Lemma sends_bind {A B} (m : M A) (k : A → M B) :
  (∀ w, ∃ rest, requests (snd (m w)) = requests w ++ rest) →
  (∀ a w, ∃ rest, requests (snd (k a w)) = requests w ++ rest) →
  ∀ w, ∃ rest, requests (snd (bind m k w)) = requests w ++ rest.
Proof.
  intros Hm Hk w. unfold bind. destruct (Hm w) as [r1 H1].
  destruct (m w) as [[a|e] w1]; simpl in *.
  - destruct (Hk a w1) as [r2 H2]. exists (r1 ++ r2). by rewrite H2, H1, app_assoc.
  - by exists r1.
Qed.

Lemma sends_try_catch {A} (m : M A) (h : JsError → M A) :
  (∀ w, ∃ rest, requests (snd (m w)) = requests w ++ rest) →
  (∀ e w, ∃ rest, requests (snd (h e w)) = requests w ++ rest) →
  ∀ w, ∃ rest, requests (snd (try_catch m h w)) = requests w ++ rest.
Proof.
  intros Hm Hh w. unfold try_catch. destruct (Hm w) as [r1 H1].
  destruct (m w) as [[a|e] w1]; simpl in *.
  - by exists r1.
  - destruct (Hh e w1) as [r2 H2]. exists (r1 ++ r2). by rewrite H2, H1, app_assoc.
Qed.

Lemma sends_nothing {A} (m : M A) :
  (∀ w, requests (snd (m w)) = requests w) →
  ∀ w, ∃ rest, requests (snd (m w)) = requests w ++ rest.
Proof. intros Hm w. exists []. by rewrite Hm, app_nil_r. Qed.

Lemma fetch_requests (r : Request) (w : World) :
  requests (snd (fetch r w)) = requests w ++ [r].
Proof.
  unfold fetch, bind, await_. simpl. by destruct (fetch_answer _).
Qed.

Lemma await_quiet (w : World) : requests (snd (await_ w)) = requests w.
Proof. reflexivity. Qed.

Lemma response_text_quiet (r : Response) (w : World) :
  requests (snd (response_text r w)) = requests w.
Proof. unfold response_text, bind, await_. simpl. by destruct (text r). Qed.

Lemma response_json_quiet (r : Response) (w : World) :
  requests (snd (response_json r w)) = requests w.
Proof. unfold response_json, bind, await_. simpl. by destruct (json r). Qed.

Lemma get_prop_quiet (v : JSON) (k : string) (w : World) :
  requests (snd (get_prop v k w)) = requests w.
Proof. unfold get_prop. by destruct (prop v k). Qed.

Lemma reject_quiet (reason : JsError) (w : World) :
  requests (snd (reject reason w)) = requests w.
Proof. unfold reject. simpl. by destruct (promise w). Qed.

Lemma resolve_quiet (value : string) (w : World) :
  requests (snd (resolve value w)) = requests w.
Proof. unfold resolve. simpl. by destruct (promise w). Qed.

Lemma saveToken_quiet (a r : option JSON) (w : World) :
  requests (snd (cherryin_saveToken a r w)) = requests w.
Proof.
  unfold cherryin_saveToken, bind, await_. simpl. by destruct (saveToken_ok a r).
Qed.

Lemma reject_cleanup_quiet (state : string) (reason : JsError) (w : World) :
  requests (snd ((reject reason ;;; cleanup state) w)) = requests w.
Proof. unfold bind, reject, cleanup. simpl. by destruct (promise w). Qed.

Lemma sends_fetch (r : Request) :
  ∀ w, ∃ rest, requests (snd (fetch r w)) = requests w ++ rest.
Proof. intros w. eexists. apply fetch_requests. Qed.

(** What follows the first request of the exchange. *)
Lemma exchange_sends (state code : string) (flowData : FlowData) (w : World) :
  ∃ rest, requests (snd (exchange state code flowData w))
          = requests w
            ++ token_request (config flowData) code (codeVerifier flowData) :: rest.
Proof.
  unfold exchange. cbv zeta. rewrite JsFacts.bind_unfold.
  pose proof (fetch_requests
                (token_request (config flowData) code (codeVerifier flowData)) w) as Hf.
  destruct (fetch _ w) as [[tokenResponse|e] w1]; simpl in Hf.
  2:{ exists []. exact Hf. }
  match goal with
  | |- ∃ rest, requests (snd (?k w1)) = _ =>
      assert (Hk : ∀ v, ∃ rest, requests (snd (k v)) = requests v ++ rest)
  end.
  { destruct (ok tokenResponse); cbv beta iota delta [negb].
    2:{ apply sends_bind; [apply sends_nothing, response_text_quiet|].
        intros _. by apply sends_nothing. }
    apply sends_bind; [apply sends_nothing, response_json_quiet|]. intros tokenData.
    apply sends_bind; [apply sends_nothing, get_prop_quiet|]. intros accessToken.
    apply sends_bind; [apply sends_nothing, get_prop_quiet|]. intros refreshToken.
    destruct (truthy accessToken); cbv beta iota delta [negb].
    2:{ apply sends_nothing, reject_cleanup_quiet. }
    apply sends_bind.
    { apply sends_try_catch; [apply sends_nothing, saveToken_quiet|].
      intros e. by apply sends_nothing. }
    intros _. apply sends_bind; [apply sends_fetch|]. intros apiKeysResponse.
    destruct (ok apiKeysResponse); cbv beta iota delta [negb].
    2:{ apply sends_bind; [apply sends_nothing, response_text_quiet|].
        intros _. by apply sends_nothing. }
    apply sends_bind; [apply sends_nothing, response_json_quiet|]. intros apiKeysData.
    apply sends_bind.
    { destruct apiKeysData; try (by apply sends_nothing).
      all: apply sends_bind; [apply sends_nothing, get_prop_quiet|].
      all: intros [[]|]; by apply sends_nothing. }
    intros apiKeys. apply sends_bind; [|intros _; by apply sends_nothing].
    destruct (nonempty apiKeys); [|apply sends_nothing, reject_quiet].
    apply sends_bind; [by apply sends_nothing|]. intros _.
    apply sends_nothing, resolve_quiet. }
  destruct (Hk w1) as [rest Hrest]. exists rest.
  by rewrite Hrest, Hf, <- app_assoc.
Qed.

(** The callback of the invocation itself, once past the checks. *)
Lemma own_callback_unfold (state data_url code : string) (url : URL) (w : World)
      (flowData : FlowData) :
  URL_parse data_url = Some url →
  hostname url = "oauth" → pathname url = "/callback" →
  present (assoc "error" (searchParams url)) = false →
  assoc "code" (searchParams url) = Some code → code ≠ "" →
  assoc "state" (searchParams url) = Some state → state ≠ "" →
  pendingOAuthFlows w !! state = Some flowData →
  onReceiveData state data_url w
  = try_catch (exchange state code flowData) (fun error => reject error ;;; cleanup state)
      (set_pending (delete state (pendingOAuthFlows w)) w).
Proof.
  intros Hurl Hhost Hpath Herr Hcode Hcne Hstate Hne Hpending.
  unfold onReceiveData. rewrite !JsFacts.try_catch_unfold, JsFacts.bind_unfold.
  unfold new_URL. rewrite Hurl. cbv beta iota zeta delta [ret].
  rewrite Hhost, Hpath, Hstate, Hcode, Herr. simpl default.
  rewrite !String.eqb_refl. cbv beta iota delta [negb orb].
  change (default "" (Some state)) with state.
  change (default "" (Some code)) with code.
  unfold present, nonempty.
  rewrite (proj2 (String.eqb_neq _ _) Hne), (proj2 (String.eqb_neq _ _) Hcne).
  cbv beta iota delta [negb orb]. rewrite Hpending.
  rewrite (bool_decide_true (is_Some (Some flowData))) by eauto.
  reflexivity.
Qed.

Lemma own_callback_requests (state data_url code : string) (url : URL) (w : World)
      (flowData : FlowData) :
  URL_parse data_url = Some url →
  hostname url = "oauth" → pathname url = "/callback" →
  present (assoc "error" (searchParams url)) = false →
  assoc "code" (searchParams url) = Some code → code ≠ "" →
  assoc "state" (searchParams url) = Some state → state ≠ "" →
  pendingOAuthFlows w !! state = Some flowData →
  ∃ rest, requests (snd (onReceiveData state data_url w))
          = requests w
            ++ token_request (config flowData) code (codeVerifier flowData) :: rest.
Proof.
  intros Hurl Hhost Hpath Herr Hcode Hcne Hstate Hne Hpending.
  rewrite (own_callback_unfold state data_url code url w flowData) by done.
  rewrite JsFacts.try_catch_unfold.
  set (w0 := set_pending _ w).
  destruct (exchange_sends state code flowData w0) as [rest Hrest].
  destruct (exchange state code flowData w0) as [[a|e] w1]; simpl in Hrest.
  - by exists rest.
  - exists rest. by rewrite reject_cleanup_quiet.
Qed.

(** The authorization request of an invocation and the entry it stores. *)
Lemma oauthWithCherryIn_parameters (cfg : NewApiOAuthConfig) (w w' : World)
      (state : string) :
  oauthWithCherryIn cfg w = (Returned state, w') →
  ∃ (url0 authUrl : URL) (flow : FlowData),
    last (opened w') = Some authUrl
    ∧ pendingOAuthFlows w' !! state = Some flow
    ∧ codeVerifier flow = fst (generateRandomString 64 (rng w))
    ∧ state = fst (generateRandomString 32 (snd (generateRandomString 64 (rng w))))
    ∧ config flow =
        mkResolved (oauthServer cfg)
          (default DEFUALT_CHERRYIN_CLIENT_ID (clientId cfg))
          (default (oauthServer cfg) (apiHost cfg))
          (default DEFAULT_REDIRECT_URI (redirectUri cfg))
          (Some (default DEFAULT_CHERRYIN_SCOPES (scopes cfg)))
    ∧ assoc "client_id" (searchParams authUrl) = Some (r_clientId (config flow))
    ∧ assoc "redirect_uri" (searchParams authUrl) = Some (r_redirectUri (config flow))
    ∧ assoc "response_type" (searchParams authUrl) = Some "code"
    ∧ assoc "scope" (searchParams authUrl) = r_scopes (config flow)
    ∧ assoc "state" (searchParams authUrl) = Some state
    ∧ assoc "code_challenge" (searchParams authUrl)
        = Some (@generateCodeChallenge crypto (codeVerifier flow))
    ∧ assoc "code_challenge_method" (searchParams authUrl) = Some "S256"
    ∧ URL_parse (oauthServer cfg +:+ "/oauth2/auth") = Some url0
    ∧ url_base authUrl = url_base url0.
Proof.
  intros Hrun. unfold oauthWithCherryIn in Hrun.
  rewrite JsFacts.bind_unfold in Hrun.
  change (cleanupExpiredFlows w) with (Returned tt, snd (cleanupExpiredFlows w)) in Hrun.
  cbv beta iota zeta delta [bind ret throw generateRandomString_ await_ Date_now_ new_URL]
    in Hrun.
  set (wc := snd (cleanupExpiredFlows w)) in *.
  assert (Hrng : rng wc = rng w) by reflexivity.
  clearbody wc. rewrite <- Hrng.
  destruct (generateRandomString 64 (rng wc)) as [verifier rng1] eqn:Hverifier.
  simpl in Hrun.
  destruct (generateRandomString 32 rng1) as [st rng2] eqn:Hstate.
  simpl in Hrun.
  destruct (URL_parse (oauthServer cfg +:+ "/oauth2/auth")) as [url0|]; [|discriminate].
  simpl in Hrun. injection Hrun as <- <-.
  eexists url0, _, _. split_and!.
  - simpl. apply last_snoc.
  - simpl. apply lookup_insert_eq.
  - reflexivity.
  - reflexivity.
  - reflexivity.
  - simpl. rewrite !FlowFacts.assoc_params_set_ne by discriminate.
    apply FlowFacts.assoc_params_set_eq.
  - simpl. rewrite !FlowFacts.assoc_params_set_ne by discriminate.
    apply FlowFacts.assoc_params_set_eq.
  - simpl. rewrite !FlowFacts.assoc_params_set_ne by discriminate.
    apply FlowFacts.assoc_params_set_eq.
  - simpl. rewrite !FlowFacts.assoc_params_set_ne by discriminate.
    apply FlowFacts.assoc_params_set_eq.
  - simpl. rewrite !FlowFacts.assoc_params_set_ne by discriminate.
    apply FlowFacts.assoc_params_set_eq.
  - simpl. rewrite !FlowFacts.assoc_params_set_ne by discriminate.
    apply FlowFacts.assoc_params_set_eq.
  - simpl. apply FlowFacts.assoc_params_set_eq.
  - reflexivity.
  - reflexivity.
Qed.

(** A start that fails on the authorization URL. *)
Lemma oauthWithCherryIn_bad_server (cfg : NewApiOAuthConfig) (w : World) :
  URL_parse (oauthServer cfg +:+ "/oauth2/auth") = None →
  ∃ w', oauthWithCherryIn cfg w = (Thrown TypeError, w')
        ∧ is_Some (pendingOAuthFlows w'
                     !! fst (generateRandomString 32
                               (snd (generateRandomString 64 (rng w)))))
        ∧ opened w' = opened w
        ∧ timers w' = timers w.
Proof.
  intros Hurl. unfold oauthWithCherryIn.
  rewrite JsFacts.bind_unfold.
  change (cleanupExpiredFlows w) with (Returned tt, snd (cleanupExpiredFlows w)).
  cbv beta iota zeta delta [bind ret throw generateRandomString_ await_ Date_now_ new_URL].
  set (wc := snd (cleanupExpiredFlows w)) in *.
  assert (Hrng : rng wc = rng w) by reflexivity.
  assert (Hopened : opened wc = opened w) by reflexivity.
  assert (Htimers : timers wc = timers w) by reflexivity.
  clearbody wc. rewrite <- Hrng, <- Hopened, <- Htimers.
  destruct (generateRandomString 64 (rng wc)) as [verifier rng1] eqn:Hverifier.
  simpl.
  destruct (generateRandomString 32 rng1) as [st rng2] eqn:Hstate.
  simpl. rewrite Hurl. simpl.
  eexists. split; [reflexivity|]. cbn [snd fst].
  split_and!; try done.
  simpl. rewrite lookup_insert_eq. eauto.
Qed.

(** *** The outcome of [saveToken] *)

Lemma bind_ext {S A B} (m m' : Js.M S A) (k k' : A → Js.M S B) (w : S) :
  m w = m' w → (∀ a v, k a v = k' a v) → bind m k w = bind m' k' w.
Proof.
  intros Hm Hk. unfold bind. rewrite Hm. destruct (m' w) as [[a|e] v]; [apply Hk|done].
Qed.

Lemma try_catch_ext {S A} (m m' : Js.M S A) (h h' : JsError → Js.M S A) (w : S) :
  m w = m' w → (∀ e v, h e v = h' e v) → try_catch m h w = try_catch m' h' w.
Proof.
  intros Hm Hh. unfold try_catch. rewrite Hm. destruct (m' w) as [[a|e] v]; [done|apply Hh].
Qed.

End FlowMore.

Lemma saveToken_caught (b : Browser) (saves : option JSON → option JSON → bool)
      (a r : option JSON) (w : World) :
  try_catch (@cherryin_saveToken (Variations.with_saveToken_ok b saves) a r)
    (fun saveError => ret tt) w
  = try_catch (@cherryin_saveToken b a r) (fun saveError => ret tt) w.
Proof.
  unfold try_catch, cherryin_saveToken, bind, await_, ret, throw. simpl.
  destruct (saves a r), (@saveToken_ok b a r); reflexivity.
Qed.

Lemma exchange_whatever_saveToken (b : Browser)
      (saves : option JSON → option JSON → bool)
      (state code : string) (flowData : FlowData) (w : World) :
  @exchange (Variations.with_saveToken_ok b saves) state code flowData w
  = @exchange b state code flowData w.
Proof.
  unfold exchange. cbv zeta.
  apply bind_ext; [reflexivity|]. intros tokenResponse v.
  destruct (ok tokenResponse); [|reflexivity].
  cbv beta iota delta [negb].
  apply bind_ext; [reflexivity|]. intros tokenData v1.
  apply bind_ext; [reflexivity|]. intros accessToken v2.
  apply bind_ext; [reflexivity|]. intros refreshToken v3.
  destruct (truthy accessToken); [|reflexivity].
  cbv beta iota delta [negb].
  apply bind_ext; [apply saveToken_caught|]. intros _ v4. reflexivity.
Qed.


Lemma join_cons_nonempty (sep x : string) (l : list string) :
  x ≠ "" → join sep (x :: l) ≠ "".
Proof.
  intros Hx. destruct x as [|c x]; [done|].
  destruct l; simpl; [done|]. rewrite PkceFacts.append_cons. discriminate.
Qed.

(** X14 — the authorization request.  When [oauthWithCherryIn] has opened
    the authorization window, the state parameter has 32 characters, all of
    them unreserved in URLs; the flow is stored under that state with the
    configuration resolved against the defaults (client id, redirect URI and
    scopes; the API host defaults to the OAuth server); and the URL that was
    opened is the server's [/oauth2/auth] with [response_type=code] and the
    client id, redirect URI, scopes and state of that stored flow. *)
Theorem authorization_request_parameters :
  ∀ (b : Browser) (cfg : NewApiOAuthConfig) (w w' : World) (state : string),
    oauthWithCherryIn cfg w = (Returned state, w') →
    String.length state = 32%nat
    ∧ Forall (fun c => unreserved c = true) (String.list_ascii_of_string state)
    ∧ ∃ (url0 authUrl : URL) (flow : FlowData),
        URL_parse (oauthServer cfg +:+ "/oauth2/auth") = Some url0
        ∧ url_base authUrl = url_base url0
        ∧ last (opened w') = Some authUrl
        ∧ pendingOAuthFlows w' !! state = Some flow
        ∧ config flow =
            mkResolved (oauthServer cfg)
              (default DEFUALT_CHERRYIN_CLIENT_ID (clientId cfg))
              (default (oauthServer cfg) (apiHost cfg))
              (default DEFAULT_REDIRECT_URI (redirectUri cfg))
              (Some (default DEFAULT_CHERRYIN_SCOPES (scopes cfg)))
        ∧ assoc "response_type" (searchParams authUrl) = Some "code"
        ∧ assoc "client_id" (searchParams authUrl) = Some (r_clientId (config flow))
        ∧ assoc "redirect_uri" (searchParams authUrl)
            = Some (r_redirectUri (config flow))
        ∧ assoc "scope" (searchParams authUrl) = r_scopes (config flow)
        ∧ assoc "state" (searchParams authUrl) = Some state.
Proof.
  intros b cfg w w' state Hrun.
  apply oauthWithCherryIn_parameters in Hrun
    as (url0 & authUrl & flow & Hlast & Hflow & _ & Hstate & Hcfg & Hid
        & Hredirect & Htype & Hscope & Hst & _ & _ & Hparse & Hbase).
  destruct (PkceFacts.generateRandomString_spec 32
              (snd (generateRandomString 64 (rng w)))) as [Hlen Hchars].
  rewrite <- Hstate in Hlen, Hchars.
  split_and!; [exact Hlen|by eapply Forall_impl; [exact Hchars|intros c [_ Hc]]|].
  by exists url0, authUrl, flow.
Qed.

Lemma authorization_request_parameters_witness :
  @oauthWithCherryIn Samples.sample_browser Samples.login_config Samples.fresh_renderer
    = (Returned "6dAlQ1Y9gDoT4b_jGrW7eBmJuZ-hEpMx", Samples.started_renderer)
  ∧ String.length "6dAlQ1Y9gDoT4b_jGrW7eBmJuZ-hEpMx" = 32%nat.
Proof.
  assert (Hrun : @oauthWithCherryIn Samples.sample_browser Samples.login_config
                   Samples.fresh_renderer
                 = (Returned "6dAlQ1Y9gDoT4b_jGrW7eBmJuZ-hEpMx", Samples.started_renderer))
    by (vm_compute; reflexivity).
  split; [exact Hrun|].
  exact (proj1 (authorization_request_parameters Samples.sample_browser
                  Samples.login_config Samples.fresh_renderer Samples.started_renderer
                  "6dAlQ1Y9gDoT4b_jGrW7eBmJuZ-hEpMx" Hrun)).
Defined.

(** X15 — a start that fails leaves its entry behind.  When the OAuth
    server of the configuration does not make a URL, [oauthWithCherryIn]
    throws the [TypeError] of [new URL] after it has stored the flow: the
    entry stays in the map, no window was opened and no timer was armed that
    would remove it; only the sweep of a later invocation does. *)
Theorem failed_start_leaves_flow_entry :
  ∀ (b : Browser) (cfg : NewApiOAuthConfig) (w : World),
    URL_parse (oauthServer cfg +:+ "/oauth2/auth") = None →
    ∃ w', oauthWithCherryIn cfg w = (Thrown TypeError, w')
          ∧ is_Some (pendingOAuthFlows w'
                       !! fst (generateRandomString 32
                                 (snd (generateRandomString 64 (rng w)))))
          ∧ opened w' = opened w
          ∧ timers w' = timers w.
Proof. intros b cfg w. apply oauthWithCherryIn_bad_server. Qed.

Lemma failed_start_leaves_flow_entry_witness :
  @URL_parse Samples.sample_browser
    (oauthServer MoreSamples.broken_config +:+ "/oauth2/auth") = None
  ∧ ∃ w', @oauthWithCherryIn Samples.sample_browser MoreSamples.broken_config
            Samples.fresh_renderer = (Thrown TypeError, w')
          ∧ is_Some (pendingOAuthFlows w'
                       !! fst (generateRandomString 32
                                 (snd (generateRandomString 64
                                         (rng Samples.fresh_renderer)))))
          ∧ opened w' = opened Samples.fresh_renderer
          ∧ timers w' = timers Samples.fresh_renderer.
Proof.
  split; [vm_compute; reflexivity|].
  apply (failed_start_leaves_flow_entry Samples.sample_browser MoreSamples.broken_config
           Samples.fresh_renderer).
  vm_compute; reflexivity.
Defined.

(** X16 — the token request answers the authorization request.  When the
    callback of a started flow arrives with a code and the flow is still
    pending, the first request the handler sends is the POST to the server's
    [/oauth2/token] with that code, the client id of the authorization
    request, and a [code_verifier] whose SHA-256 digest, base64url-encoded
    without padding, is the [code_challenge] of the authorization request.
    The [redirect_uri] is the one of the authorization request, except for a
    configured empty string, which the authorization request sends as it is
    and the token request replaces by the default. *)
Theorem token_request_matches_authorization_request :
  ∀ (b : Browser) (cfg : NewApiOAuthConfig) (w0 w1 w : World)
    (state data_url code : string) (url : URL),
    oauthWithCherryIn cfg w0 = (Returned state, w1) →
    pendingOAuthFlows w !! state = pendingOAuthFlows w1 !! state →
    URL_parse data_url = Some url →
    hostname url = "oauth" → pathname url = "/callback" →
    present (assoc "error" (searchParams url)) = false →
    assoc "code" (searchParams url) = Some code → code ≠ "" →
    assoc "state" (searchParams url) = Some state →
    ∃ (authUrl : URL) (client verifier redirect : string) (rest : list Request),
      last (opened w1) = Some authUrl
      ∧ requests (snd (onReceiveData state data_url w))
        = requests w
          ++ {| req_url := oauthServer cfg +:+ "/oauth2/token";
                req_method := Some "POST";
                req_headers := form_headers;
                req_body := Form [("grant_type", "authorization_code");
                                  ("client_id", client);
                                  ("code", code);
                                  ("redirect_uri", redirect);
                                  ("code_verifier", verifier)] |} :: rest
      ∧ assoc "client_id" (searchParams authUrl) = Some client
      ∧ assoc "code_challenge" (searchParams authUrl)
          = Some (base64url_nopad (@sha256 crypto (String.list_byte_of_string verifier)))
      ∧ (redirectUri cfg ≠ Some "" →
         assoc "redirect_uri" (searchParams authUrl) = Some redirect)
      ∧ (redirectUri cfg = Some "" →
         assoc "redirect_uri" (searchParams authUrl) = Some ""
         ∧ redirect = DEFAULT_REDIRECT_URI).
Proof.
  intros b cfg w0 w1 w state data_url code url Hrun Hsame Hurl Hhost Hpath Herr Hcode
    Hcne Hstate.
  apply oauthWithCherryIn_parameters in Hrun
    as (url0 & authUrl & flow & Hlast & Hflow & Hverifier & Hst & Hcfg & Hid
        & Hredirect & _ & _ & _ & Hchallenge & _).
  destruct (PkceFacts.generateRandomString_spec 32
              (snd (generateRandomString 64 (rng w0)))) as [Hlen _].
  rewrite <- Hst in Hlen.
  assert (Hne : state ≠ "") by (intros ->; discriminate Hlen).
  rewrite Hflow in Hsame.
  destruct (own_callback_requests state data_url code url w flow
              Hurl Hhost Hpath Herr Hcode Hcne Hstate Hne Hsame) as [rest Hrest].
  destruct (PkceFacts.generateRandomString_spec 64 (rng w0)) as [_ Hchars].
  rewrite <- Hverifier in Hchars.
  eexists authUrl, _, (codeVerifier flow), _, rest. split_and!.
  - exact Hlast.
  - rewrite Hrest. unfold token_request. rewrite Hcfg. reflexivity.
  - rewrite Hid, Hcfg. reflexivity.
  - rewrite Hchallenge. unfold generateCodeChallenge. cbv zeta.
    rewrite PkceFacts.base64UrlEncode_correct, PkceFacts.TextEncoder_ascii; [done|].
    eapply Forall_impl; [exact Hchars|]. by intros c [_ Hc].
  - intros Hre. rewrite Hredirect, Hcfg. cbn [r_redirectUri].
    destruct (redirectUri cfg) as [[|c r]|]; try done.
  - intros Hre. rewrite Hredirect, Hcfg. cbn [r_redirectUri]. by rewrite Hre.
Qed.

Lemma token_request_matches_authorization_request_witness :
  ∃ (authUrl : URL) (client verifier redirect : string) (rest : list Request),
    last (opened Samples.started_renderer) = Some authUrl
    ∧ requests (snd (@onReceiveData MoreSamples.callback_browser
                       "6dAlQ1Y9gDoT4b_jGrW7eBmJuZ-hEpMx" MoreSamples.started_callback
                       Samples.started_renderer))
      = requests Samples.started_renderer
        ++ {| req_url := oauthServer Samples.login_config +:+ "/oauth2/token";
              req_method := Some "POST";
              req_headers := form_headers;
              req_body := Form [("grant_type", "authorization_code");
                                ("client_id", client);
                                ("code", "abc");
                                ("redirect_uri", redirect);
                                ("code_verifier", verifier)] |} :: rest
    ∧ assoc "client_id" (searchParams authUrl) = Some client
    ∧ assoc "code_challenge" (searchParams authUrl)
        = Some (base64url_nopad
                  (@sha256 (@crypto MoreSamples.callback_browser)
                     (String.list_byte_of_string verifier)))
    ∧ (redirectUri Samples.login_config ≠ Some "" →
       assoc "redirect_uri" (searchParams authUrl) = Some redirect)
    ∧ (redirectUri Samples.login_config = Some "" →
       assoc "redirect_uri" (searchParams authUrl) = Some ""
       ∧ redirect = DEFAULT_REDIRECT_URI).
Proof.
  apply (token_request_matches_authorization_request MoreSamples.callback_browser
           Samples.login_config Samples.fresh_renderer Samples.started_renderer
           Samples.started_renderer "6dAlQ1Y9gDoT4b_jGrW7eBmJuZ-hEpMx"
           MoreSamples.started_callback "abc"
           (mkURL "cherrystudio://oauth/callback" "oauth" "/callback"
              [("code", "abc"); ("state", "6dAlQ1Y9gDoT4b_jGrW7eBmJuZ-hEpMx")])).
  - vm_compute; reflexivity.
  - reflexivity.
  - vm_compute; reflexivity.
  - reflexivity.
  - reflexivity.
  - reflexivity.
  - reflexivity.
  - discriminate.
  - reflexivity.
Defined.


(** X17 — a failure to save the tokens does not change the login.  The
    handler catches whatever [window.api.cherryin.saveToken] throws: with any
    other outcome of that call it returns the same and leaves the same
    world, the fetched keys and the settled promise included. *)
Theorem saveToken_failure_is_tolerated :
  ∀ (b : Browser) (saves : option JSON → option JSON → bool)
    (state data_url : string) (w : World),
    @onReceiveData (Variations.with_saveToken_ok b saves) state data_url w
    = @onReceiveData b state data_url w.
Proof.
  intros b saves state data_url w. unfold onReceiveData.
  apply try_catch_ext; [|reflexivity].
  apply bind_ext; [reflexivity|]. intros url v.
  destruct (negb (String.eqb (hostname url) "oauth")
            || negb (String.eqb (pathname url) "/callback")); [reflexivity|].
  cbv zeta.
  destruct (present (assoc "error" (searchParams url))); [reflexivity|].
  destruct (negb (present (assoc "code" (searchParams url)))); [reflexivity|].
  destruct (negb (present (assoc "state" (searchParams url)))
            || negb (bool_decide
                       (is_Some (pendingOAuthFlows v
                                   !! default "" (assoc "state" (searchParams url))))));
    [reflexivity|].
  destruct (negb (String.eqb (default "" (assoc "state" (searchParams url))) state));
    [reflexivity|].
  destruct (pendingOAuthFlows v !! default "" (assoc "state" (searchParams url)));
    [|reflexivity].
  apply exchange_whatever_saveToken.
Qed.

(** X18 — the keys that make the login succeed.  The joined key string is
    empty, and the login rejected with ['No API keys received'], exactly
    when no item of the answer yields a non-empty key. *)
Theorem joinKeys_empty_iff :
  ∀ (items : list JSON),
    joinKeys items = ""
    ↔ Forall (fun item => extractKey item = None ∨ extractKey item = Some "") items.
Proof.
  intros items. unfold joinKeys. induction items as [|item items IH].
  - split; [constructor|done].
  - cbn [omap list_omap]. fold (@omap list _ JSON string).
    destruct (extractKey item) as [k|] eqn:Hk.
    + destruct (nonempty k) eqn:Hne.
      * split.
        -- intros Hj. exfalso. revert Hj. apply join_cons_nonempty.
           intros ->. discriminate Hne.
        -- intros Hall. apply Forall_cons in Hall as [[Hi|Hi] _]; [congruence|].
           assert (k = "") as -> by congruence. discriminate Hne.
      * rewrite IH. split.
        -- intros Hall. constructor; [|done]. right. rewrite ?Hk. f_equal.
           unfold nonempty in Hne. apply negb_false_iff in Hne.
           by apply String.eqb_eq in Hne.
        -- intros Hall. by apply Forall_cons in Hall as [_ Hall].
    + rewrite IH. split.
      * intros Hall. constructor; [left; by rewrite ?Hk|done].
      * intros Hall. by apply Forall_cons in Hall as [_ Hall].
Qed.

(** X19 — data that is no OAuth callback.  A URL of another host or path
    is ignored: nothing changes.  Data that [new URL] refuses rejects the
    login with that [TypeError] and leaves the flow cleaned up. *)
Theorem other_urls_ignored_malformed_rejected :
  ∀ (b : Browser) (state data_url : string) (w : World),
    (∀ url, URL_parse data_url = Some url →
       hostname url ≠ "oauth" ∨ pathname url ≠ "/callback" →
       onReceiveData state data_url w = (Returned tt, w))
    ∧ (URL_parse data_url = None →
       ∃ w', onReceiveData state data_url w = (Returned tt, w')
             ∧ cleaned_up state w'
             ∧ requests w' = requests w
             ∧ (promise w = Pending → promise w' = Rejected TypeError)).
Proof.
  intros b state data_url w. split.
  - intros url Hurl Hother.
    unfold onReceiveData. rewrite JsFacts.try_catch_unfold, JsFacts.bind_unfold.
    unfold new_URL. rewrite Hurl. cbv beta iota zeta delta [ret].
    destruct Hother as [Hh|Hp].
    + apply String.eqb_neq in Hh. by rewrite Hh.
    + apply String.eqb_neq in Hp. rewrite Hp. by rewrite orb_true_r.
  - intros Hurl.
    unfold onReceiveData. rewrite JsFacts.try_catch_unfold, JsFacts.bind_unfold.
    unfold new_URL. rewrite Hurl. cbv beta iota zeta delta [throw].
    eexists. split; [reflexivity|]. split_and!.
    + apply FlowFacts.settled_world_cleaned.
    + apply reject_cleanup_quiet.
    + intros Hp. unfold bind, reject, cleanup. simpl. by rewrite Hp.
Qed.

(** X20 — a callback for another flow is ignored.  A callback with a code
    and no error whose state is missing, is not pending, or is not the state
    of this invocation leaves everything as it was: the entry, the listener,
    the timer and the promise of this flow. *)
Theorem callback_with_other_state_is_ignored :
  ∀ (b : Browser) (state data_url : string) (url : URL) (w : World),
    URL_parse data_url = Some url →
    present (assoc "error" (searchParams url)) = false →
    present (assoc "code" (searchParams url)) = true →
    (present (assoc "state" (searchParams url)) = false
     ∨ pendingOAuthFlows w !! default "" (assoc "state" (searchParams url)) = None
     ∨ default "" (assoc "state" (searchParams url)) ≠ state) →
    onReceiveData state data_url w = (Returned tt, w).
Proof. intros b. apply FlowFacts.foreign_callback_ignored. Qed.

Lemma callback_with_other_state_is_ignored_witness :
  @onReceiveData Samples.sample_browser "OTHER"
    "cherrystudio://oauth/callback?code=abc&state=S" Samples.two_flows
  = (Returned tt, Samples.two_flows).
Proof.
  apply (callback_with_other_state_is_ignored Samples.sample_browser "OTHER"
           "cherrystudio://oauth/callback?code=abc&state=S"
           (mkURL "cherrystudio://oauth/callback" "oauth" "/callback"
              [("code", "abc"); ("state", "S")])
           Samples.two_flows).
  - vm_compute; reflexivity.
  - reflexivity.
  - reflexivity.
  - right. right. discriminate.
Defined.

(** X21 — no exchange without the state of this flow.  Whatever a callback
    carries, an error included, the handler sends no request, saves no token
    and sets no key when the state of the callback is missing, is not
    pending, or is not the state of this invocation. *)
Theorem no_exchange_for_other_state :
  ∀ (b : Browser) (state data_url : string) (w : World),
    (∀ url, URL_parse data_url = Some url →
       present (assoc "state" (searchParams url)) = false
       ∨ pendingOAuthFlows w !! default "" (assoc "state" (searchParams url)) = None
       ∨ default "" (assoc "state" (searchParams url)) ≠ state) →
    requests (snd (onReceiveData state data_url w)) = requests w
    ∧ saved (snd (onReceiveData state data_url w)) = saved w
    ∧ keys (snd (onReceiveData state data_url w)) = keys w.
Proof. intros b. apply FlowFacts.foreign_callback_no_exchange. Qed.

Lemma no_exchange_for_other_state_witness :
  requests (snd (@onReceiveData Samples.sample_browser "S"
                   "cherrystudio://oauth/callback?error=access_denied&state=OTHER"
                   Samples.two_flows)) = requests Samples.two_flows
  ∧ saved (snd (@onReceiveData Samples.sample_browser "S"
                  "cherrystudio://oauth/callback?error=access_denied&state=OTHER"
                  Samples.two_flows)) = saved Samples.two_flows
  ∧ keys (snd (@onReceiveData Samples.sample_browser "S"
                 "cherrystudio://oauth/callback?error=access_denied&state=OTHER"
                 Samples.two_flows)) = keys Samples.two_flows.
Proof.
  apply (no_exchange_for_other_state Samples.sample_browser "S"
           "cherrystudio://oauth/callback?error=access_denied&state=OTHER"
           Samples.two_flows).
  intros url Hurl. vm_compute in Hurl. injection Hurl as <-.
  right. right. discriminate.
Defined.

(** X22 — a callback delivered twice is exchanged once.  When a callback
    with a code and no error has been handled, handling the same data again
    changes nothing: the entry of the flow was deleted before the first
    request, so the second delivery finds no pending state. *)
Theorem replayed_callback_is_ignored :
  ∀ (b : Browser) (state data_url : string) (url : URL) (w : World),
    URL_parse data_url = Some url →
    present (assoc "error" (searchParams url)) = false →
    present (assoc "code" (searchParams url)) = true →
    let w' := snd (onReceiveData state data_url w) in
    onReceiveData state data_url w' = (Returned tt, w').
Proof.
  intros b state data_url url w Hurl Herr Hcode w'.
  destruct (decide (default "" (assoc "state" (searchParams url)) = state)) as [Heq|Hne].
  2:{ apply (FlowFacts.foreign_callback_ignored state data_url url); auto. }
  destruct (FlowFacts.onReceiveData_cases state data_url w) as (w1 & Hrun & Hcases).
  subst w'. rewrite Hrun. cbn [snd].
  destruct Hcases as [->|(Hgone & _)]; [exact Hrun|].
  apply (FlowFacts.foreign_callback_ignored state data_url url); auto.
  right. left. by rewrite Heq.
Qed.

Lemma replayed_callback_is_ignored_witness :
  let w' := snd (@onReceiveData Samples.sample_browser "S"
                   "cherrystudio://oauth/callback?code=abc&state=S" Samples.two_flows) in
  requests w' ≠ []
  ∧ @onReceiveData Samples.sample_browser "S"
      "cherrystudio://oauth/callback?code=abc&state=S" w' = (Returned tt, w').
Proof.
  split; [vm_compute; discriminate|].
  apply (replayed_callback_is_ignored Samples.sample_browser "S"
           "cherrystudio://oauth/callback?code=abc&state=S"
           (mkURL "cherrystudio://oauth/callback" "oauth" "/callback"
              [("code", "abc"); ("state", "S")])
           Samples.two_flows).
  - vm_compute; reflexivity.
  - reflexivity.
  - reflexivity.
Defined.

End FlowMore.


(** ** The exchange of a login that succeeds *)
Module ExchangeFacts.
Import Js Pkce Flow.

Section Steps.
Context `{Browser}.

Lemma fetch_got (r : Request) (resp : Response) (w : World) :
  fetch_answer (requests w ++ [r]) = Got resp →
  fetch r w = (Returned resp, snd (await_ (set_requests (requests w ++ [r]) w))).
Proof. intros Hr. unfold fetch, bind, await_. simpl. by rewrite Hr. Qed.

Lemma response_json_got (r : Response) (j : JSON) (w : World) :
  json r = Some j → response_json r w = (Returned j, snd (await_ w)).
Proof. intros Hj. unfold response_json, bind. simpl. by rewrite Hj. Qed.

Lemma get_prop_got (v : JSON) (k : string) (x : option JSON) (w : World) :
  prop v k = Some x → get_prop v k w = (Returned x, w).
Proof. intros Hp. unfold get_prop. by rewrite Hp. Qed.

Lemma saveToken_attempted (a r : option JSON) (w : World) :
  try_catch (cherryin_saveToken a r) (fun saveError => ret tt) w
  = (Returned tt, snd (await_ (set_saved (saved w ++ [(a, r)]) w))).
Proof.
  unfold try_catch, cherryin_saveToken, bind, await_, ret, throw. simpl.
  by destruct (saveToken_ok a r).
Qed.

Lemma await_promise (w : World) :
  (∀ k v, promise (interfere k v) = promise v) →
  promise (snd (await_ w)) = promise w.
Proof. intros Hq. unfold await_. simpl. apply Hq. Qed.


Lemma await_requests (w : World) : requests (snd (await_ w)) = requests w.
Proof. reflexivity. Qed.

Lemma await_saved (w : World) : saved (snd (await_ w)) = saved w.
Proof. reflexivity. Qed.

Lemma await_keys (w : World) : keys (snd (await_ w)) = keys w.
Proof. reflexivity. Qed.

Lemma keys_payload (apiKeysData : JSON) (items : list JSON) (v : World) :
  (apiKeysData = JArr items
   ∨ (∀ l, apiKeysData ≠ JArr l)
     ∧ prop apiKeysData "data" = Some (Some (JArr items))) →
  (match apiKeysData with
   | JArr items => ret (joinKeys items)
   | _ =>
       data <- get_prop apiKeysData "data" ;;
       match data with
       | Some (JArr items) => ret (joinKeys items)
       | _ => throw (Error "Unexpected API keys response format")
       end
   end : M string) v = (Returned (joinKeys items), v).
Proof.
  intros [->|[Hnot Hdata]]; [reflexivity|].
  destruct apiKeysData as [| | | |l|];
    try (rewrite JsFacts.bind_unfold, (get_prop_got _ _ _ _ Hdata); reflexivity).
  exfalso. exact (Hnot l eq_refl).
Qed.

End Steps.

(** The world an [await] resumes in keeps the record of the invocation. *)
Ltac resume w1 w0 Hr Hs Hk Hp :=
  match goal with
  | |- context [snd (await_ ?v)] =>
      let rv := eval cbn [requests set_requests set_saved set_pending] in (requests v) in
      let sv := eval cbn [saved set_requests set_saved set_pending] in (saved v) in
      let kv := eval cbn [keys set_requests set_saved set_pending] in (keys v) in
      assert (Hr : requests (snd (await_ v)) = rv) by reflexivity;
      assert (Hs : saved (snd (await_ v)) = sv) by reflexivity;
      assert (Hk : keys (snd (await_ v)) = kv) by reflexivity;
      assert (Hp : (∀ n u, promise (interfere n u) = promise u) →
                   promise (snd (await_ v)) = promise w0)
        by (intros Hquiet; rewrite (await_promise v Hquiet); auto);
      set (w1 := snd (await_ v)) in *; clearbody w1
  end.

(** X23 — a login that succeeds.  When the callback of a pending flow
    arrives with a code, the token endpoint answers with a truthy
    [access_token] and the key endpoint with a list, bare or under [data],
    that yields a non-empty key string, then the handler has sent exactly the
    token request and the key request, has passed both tokens to
    [saveToken], has given the joined keys to [setKey], and leaves the flow
    cleaned up; and when the other tasks have left the promise alone, the
    promise is resolved with the joined keys. *)
Theorem successful_exchange_delivers_keys :
  ∀ (b : Browser) (state data_url code : string) (url : URL) (w : World)
    (flowData : FlowData) (tokenResponse apiKeysResponse : Response)
    (tokenData apiKeysData : JSON) (accessToken refreshToken : option JSON)
    (items : list JSON),
    URL_parse data_url = Some url →
    hostname url = "oauth" → pathname url = "/callback" →
    present (assoc "error" (searchParams url)) = false →
    assoc "code" (searchParams url) = Some code → code ≠ "" →
    assoc "state" (searchParams url) = Some state → state ≠ "" →
    pendingOAuthFlows w !! state = Some flowData →
    fetch_answer
      (requests w ++ [token_request (config flowData) code (codeVerifier flowData)])
      = Got tokenResponse →
    ok tokenResponse = true →
    json tokenResponse = Some tokenData →
    prop tokenData "access_token" = Some accessToken →
    prop tokenData "refresh_token" = Some refreshToken →
    truthy accessToken = true →
    fetch_answer
      (requests w ++ [token_request (config flowData) code (codeVerifier flowData);
                      apiKeys_request (config flowData) accessToken])
      = Got apiKeysResponse →
    ok apiKeysResponse = true →
    json apiKeysResponse = Some apiKeysData →
    (apiKeysData = JArr items
     ∨ (∀ l, apiKeysData ≠ JArr l)
       ∧ prop apiKeysData "data" = Some (Some (JArr items))) →
    joinKeys items ≠ "" →
    let w' := snd (onReceiveData state data_url w) in
    requests w'
      = requests w ++ [token_request (config flowData) code (codeVerifier flowData);
                       apiKeys_request (config flowData) accessToken]
    ∧ saved w' = saved w ++ [(accessToken, refreshToken)]
    ∧ keys w' = keys w ++ [joinKeys items]
    ∧ cleaned_up state w'
    ∧ ((∀ k v, promise (interfere k v) = promise v) →
       promise w = Pending → promise w' = Resolved (joinKeys items)).
Proof.
  intros b state data_url code url w flowData tokenResponse apiKeysResponse tokenData
    apiKeysData accessToken refreshToken items Hurl Hhost Hpath Herr Hcode Hcne Hstate Hne
    Hpending Htoken Hok Hjson Haccess Hrefresh Htruthy Hkeys Hok2 Hjson2 Hshape Hjoin w'.
  assert (Hclean : cleaned_up state w').
  { apply (FlowFacts.own_callback_cleans state data_url url w flowData); try done.
    unfold present, nonempty. rewrite Hcode. by apply negb_true_iff, String.eqb_neq. }
  subst w'. revert Hclean.
  rewrite (FlowMore.own_callback_unfold state data_url code url w flowData) by done.
  set (treq := token_request _ _ _) in *.
  set (kreq := apiKeys_request _ _) in *.
  apply JsFacts.nonempty_true in Hjoin.
  unfold exchange. fold treq. fold kreq. cbv zeta.
  rewrite JsFacts.try_catch_unfold, JsFacts.bind_unfold.
  rewrite (fetch_got treq tokenResponse) by exact Htoken.
  resume w1 w Hr1 Hs1 Hk1 Hp1.
  cbv beta iota. rewrite Hok. cbv beta iota delta [negb].
  rewrite JsFacts.bind_unfold, (response_json_got _ tokenData) by exact Hjson.
  resume w2 w Hr2 Hs2 Hk2 Hp2.
  cbv beta iota.
  rewrite JsFacts.bind_unfold, (get_prop_got _ _ accessToken) by exact Haccess.
  cbv beta iota.
  rewrite JsFacts.bind_unfold, (get_prop_got _ _ refreshToken) by exact Hrefresh.
  cbv beta iota. rewrite Htruthy. cbv beta iota delta [negb].
  rewrite JsFacts.bind_unfold, saveToken_attempted.
  resume w3 w Hr3 Hs3 Hk3 Hp3.
  cbv beta iota.
  rewrite JsFacts.bind_unfold, (fetch_got kreq apiKeysResponse)
    by (rewrite Hr3, Hr2, Hr1, <- app_assoc; exact Hkeys).
  resume w4 w Hr4 Hs4 Hk4 Hp4.
  cbv beta iota. rewrite Hok2. cbv beta iota delta [negb].
  rewrite JsFacts.bind_unfold, (response_json_got _ apiKeysData) by exact Hjson2.
  resume w5 w Hr5 Hs5 Hk5 Hp5.
  cbv beta iota.
  rewrite JsFacts.bind_unfold, (keys_payload apiKeysData items) by exact Hshape.
  cbv beta iota. rewrite Hjoin.
  cbv beta iota delta [bind setKey resolve cleanup].
  change (promise (set_keys _ w5)) with (promise w5).
  intros Hclean. split_and!; [| | |exact Hclean|].
  - destruct (promise w5); cbn; by rewrite Hr5, Hr4, Hr3, Hr2, Hr1, <- app_assoc.
  - destruct (promise w5); cbn; by rewrite Hs5, Hs4, Hs3, Hs2, Hs1.
  - destruct (promise w5); cbn; by rewrite Hk5, Hk4, Hk3, Hk2, Hk1.
  - intros Hquiet Hp. by rewrite (Hp5 Hquiet), Hp.
Qed.

Lemma successful_exchange_delivers_keys_witness :
  let w' := snd (@onReceiveData MoreSamples.callback_browser "S"
                   "cherrystudio://oauth/callback?code=abc&state=S" Samples.two_flows) in
  keys w' = keys Samples.two_flows ++ ["sk-1,sk-2"]
  ∧ ((∀ k v, promise (@interfere MoreSamples.callback_browser k v) = promise v) →
     promise Samples.two_flows = Pending → promise w' = Resolved "sk-1,sk-2").
Proof.
  assert (Hrun :
    let w' := snd (@onReceiveData MoreSamples.callback_browser "S"
                     "cherrystudio://oauth/callback?code=abc&state=S" Samples.two_flows) in
    requests w'
      = requests Samples.two_flows
        ++ [token_request Samples.cherryin_config "abc" "verifier-S";
            @apiKeys_request MoreSamples.callback_browser Samples.cherryin_config
              (Some (JStr "fresh"))]
    ∧ saved w' = saved Samples.two_flows ++ [(Some (JStr "fresh"), Some (JStr "r2"))]
    ∧ keys w' = keys Samples.two_flows ++ ["sk-1,sk-2"]
    ∧ cleaned_up "S" w'
    ∧ ((∀ k v, promise (@interfere MoreSamples.callback_browser k v) = promise v) →
       promise Samples.two_flows = Pending → promise w' = Resolved "sk-1,sk-2")).
  { apply (successful_exchange_delivers_keys MoreSamples.callback_browser "S"
             "cherrystudio://oauth/callback?code=abc&state=S" "abc"
             (mkURL "cherrystudio://oauth/callback" "oauth" "/callback"
                [("code", "abc"); ("state", "S")])
             Samples.two_flows
             (mkFlowData "verifier-S" Samples.cherryin_config 0)
             Samples.response_tokens Samples.response_keys
             (JObj [("access_token", JStr "fresh"); ("refresh_token", JStr "r2")])
             (JObj [("data", JArr [JStr "sk-1"; JObj [("key", JStr "sk-2")]; JNull])])
             (Some (JStr "fresh")) (Some (JStr "r2"))
             [JStr "sk-1"; JObj [("key", JStr "sk-2")]; JNull]).
    - vm_compute; reflexivity.
    - reflexivity.
    - reflexivity.
    - reflexivity.
    - reflexivity.
    - discriminate.
    - reflexivity.
    - discriminate.
    - vm_compute; reflexivity.
    - vm_compute; reflexivity.
    - reflexivity.
    - reflexivity.
    - reflexivity.
    - reflexivity.
    - reflexivity.
    - vm_compute; reflexivity.
    - reflexivity.
    - reflexivity.
    - right. split; [discriminate|reflexivity].
    - vm_compute; discriminate. }
  cbv zeta in Hrun. destruct Hrun as (_ & _ & Hkeys & _ & Hpromise).
  exact (conj Hkeys Hpromise).
Defined.

End ExchangeFacts.


(** ** More on the encoding of the code challenge *)
Module PkceMore.
Import Js Pkce.

(** *** The size and the alphabet of the encoding *)

Lemma groups_of_6_step (b0 b1 b2 b3 b4 b5 : bool) (rest : list bool) :
  groups_of_6 (b0 :: b1 :: b2 :: b3 :: b4 :: b5 :: rest)
  = [b0; b1; b2; b3; b4; b5] :: groups_of_6 rest.
Proof. reflexivity. Qed.

(** Induction six bits at a time. *)
Lemma list_ind6 {A} (P : list A → Prop) :
  (∀ l, (length l < 6)%nat → P l) →
  (∀ b0 b1 b2 b3 b4 b5 l, P l → P (b0 :: b1 :: b2 :: b3 :: b4 :: b5 :: l)) →
  ∀ l, P l.
Proof.
  intros Hshort Hstep l.
  assert (Hn : ∀ n l, (length l ≤ n)%nat → P l).
  { intros n. induction n as [|n IH]; intros l' Hl.
    - apply Hshort. lia.
    - destruct l' as [|b0 [|b1 [|b2 [|b3 [|b4 [|b5 rest]]]]]];
        try (apply Hshort; simpl; lia).
      apply Hstep, IH. simpl in Hl. lia. }
  by apply (Hn (length l)).
Qed.

Lemma groups_of_6_count (bits : list bool) :
  length (groups_of_6 bits) = Nat.div (length bits + 5) 6.
Proof.
  induction bits as [l Hl|b0 b1 b2 b3 b4 b5 l IH] using list_ind6.
  - destruct l as [|b0 [|b1 [|b2 [|b3 [|b4 [|b5 rest]]]]]];
      try reflexivity. simpl in Hl. lia.
  - rewrite groups_of_6_step. cbn [length]. rewrite IH.
    match goal with
    | |- _ = Nat.div ?x 6 => replace x with (length l + 5 + 1 * 6)%nat by lia
    end.
    rewrite Nat.div_add by lia. lia.
Qed.

Lemma concat_groups_of_6 (bits : list bool) :
  concat (groups_of_6 bits)
  = bits ++ repeat false ((6 - length bits mod 6) mod 6).
Proof.
  induction bits as [l Hl|b0 b1 b2 b3 b4 b5 l IH] using list_ind6.
  - destruct l as [|b0 [|b1 [|b2 [|b3 [|b4 [|b5 rest]]]]]];
      try reflexivity. simpl in Hl. lia.
  - rewrite groups_of_6_step. cbn [concat length]. rewrite IH.
    match goal with
    | |- context [Nat.modulo ?x 6] =>
        lazymatch x with
        | S _ => replace (Nat.modulo x 6) with (Nat.modulo (length l) 6)
        end
    end; [reflexivity|].
    match goal with
    | |- _ = Nat.modulo ?x 6 => replace x with (length l + 1 * 6)%nat by lia
    end.
    by rewrite Nat.Div0.mod_add.
Qed.

Lemma bits_length (bytes : list byte) :
  length (flat_map bits_of_byte bytes) = (8 * length bytes)%nat.
Proof.
  induction bytes as [|b bytes IH]; [done|].
  cbn [flat_map]. rewrite length_app, IH. simpl. lia.
Qed.

Lemma url_char_in_alphabet (group : list bool) :
  length group = 6%nat →
  In (alphabet_char base64url_alphabet (N_of_bits group))
     (String.list_ascii_of_string base64url_alphabet)
  ∧ unreserved (alphabet_char base64url_alphabet (N_of_bits group)) = true.
Proof.
  intros Hg.
  destruct group as [|b0 [|b1 [|b2 [|b3 [|b4 [|b5 [|]]]]]]]; try discriminate.
  destruct b0, b1, b2, b3, b4, b5; (split; [vm_compute; tauto|reflexivity]).
Qed.

(** *** The encoding loses nothing *)

Lemma group_of_char (g : list bool) :
  length g = 6%nat →
  match String.index 0 (String (alphabet_char base64url_alphabet (N_of_bits g)) "")
          base64url_alphabet with
  | Some i => map (N.testbit (N.of_nat i)) [5; 4; 3; 2; 1; 0]%N
  | None => []
  end = g.
Proof.
  intros Hg.
  destruct g as [|b0 [|b1 [|b2 [|b3 [|b4 [|b5 [|]]]]]]]; try discriminate.
  destruct b0, b1, b2, b3, b4, b5; reflexivity.
Qed.

Lemma group_chars_inj (groups1 groups2 : list (list bool)) :
  Forall (fun g => length g = 6%nat) groups1 →
  Forall (fun g => length g = 6%nat) groups2 →
  map (fun g => alphabet_char base64url_alphabet (N_of_bits g)) groups1
  = map (fun g => alphabet_char base64url_alphabet (N_of_bits g)) groups2 →
  groups1 = groups2.
Proof.
  intros H1. revert groups2.
  induction H1 as [|g1 groups1 Hg1 _ IH]; intros groups2 H2 Heq.
  - by destruct groups2.
  - destruct H2 as [|g2 groups2 Hg2 H2]; [done|].
    injection Heq as Hc Hrest. f_equal; [|by apply IH].
    rewrite <- (group_of_char g1 Hg1), <- (group_of_char g2 Hg2). by rewrite Hc.
Qed.

Lemma string_of_list_ascii_inj (l1 l2 : list ascii) :
  String.string_of_list_ascii l1 = String.string_of_list_ascii l2 → l1 = l2.
Proof.
  intros Heq.
  rewrite <- (String.list_ascii_of_string_of_list_ascii l1),
          <- (String.list_ascii_of_string_of_list_ascii l2).
  by rewrite Heq.
Qed.

Lemma bits_of_byte_inj (a b : byte) : bits_of_byte a = bits_of_byte b → a = b.
Proof.
  intros Heq. apply (f_equal N_of_bits) in Heq.
  rewrite !PkceFacts.N_of_bits_byte in Heq.
  pose proof (Byte.of_to_N a) as Ha. pose proof (Byte.of_to_N b) as Hb.
  rewrite Heq in Ha. congruence.
Qed.

Lemma bits_inj (bytes1 bytes2 : list byte) :
  flat_map bits_of_byte bytes1 = flat_map bits_of_byte bytes2 → bytes1 = bytes2.
Proof.
  revert bytes2. induction bytes1 as [|a bytes1 IH]; intros [|b bytes2] Heq;
    try done.
  cbn [flat_map] in Heq. apply app_inj_1 in Heq as [Hab Hrest]; [|done].
  f_equal; [by apply bits_of_byte_inj|by apply IH].
Qed.

Lemma length_string_of_list_ascii (l : list ascii) :
  String.length (String.string_of_list_ascii l) = length l.
Proof. induction l as [|c l IH]; simpl; congruence. Qed.

(** X24 — the encoding loses nothing: two buffers with the same
    [base64UrlEncode] are the same buffer, so two digests never share a
    code challenge. *)
Theorem base64UrlEncode_injective :
  ∀ (buffer1 buffer2 : list byte),
    base64UrlEncode buffer1 = base64UrlEncode buffer2 → buffer1 = buffer2.
Proof.
  intros buffer1 buffer2. rewrite !PkceFacts.base64UrlEncode_correct.
  unfold base64url_nopad. intros Heq.
  apply string_of_list_ascii_inj, group_chars_inj in Heq;
    try apply PkceFacts.groups_of_6_length.
  apply (f_equal (@concat bool)) in Heq. rewrite !concat_groups_of_6 in Heq.
  pose proof (f_equal (@length bool) Heq) as Hlen.
  rewrite !length_app, !repeat_length, !bits_length in Hlen.
  assert (Hsame : length buffer1 = length buffer2).
  { pose proof (Nat.mod_upper_bound (6 - (8 * length buffer1) mod 6) 6).
    pose proof (Nat.mod_upper_bound (6 - (8 * length buffer2) mod 6) 6).
    lia. }
  apply app_inj_1 in Heq as [Hbits _]; [by apply bits_inj|].
  by rewrite !bits_length, Hsame.
Qed.

Lemma base64UrlEncode_injective_witness :
  base64UrlEncode [x01; x02] = base64UrlEncode (rev [x02; x01])
  ∧ [x01; x02] = rev [x02; x01].
Proof.
  split; [reflexivity|].
  apply (base64UrlEncode_injective [x01; x02] (rev [x02; x01])). reflexivity.
Defined.

(** X25 — the size and the alphabet of the encoding.  [base64UrlEncode]
    of n bytes has ceil(8n/6) characters, all of them from the URL-safe
    alphabet of RFC 4648 and so unreserved in URLs: no ['+'], ['/'] or ['=']
    is left.  For a digest of 32 bytes the code challenge has the 43
    characters RFC 7636 asks for. *)
Theorem base64UrlEncode_shape :
  ∀ (buffer : list byte),
    String.length (base64UrlEncode buffer) = Nat.div (8 * length buffer + 5) 6
    ∧ Forall (fun c => In c (String.list_ascii_of_string base64url_alphabet)
                       ∧ unreserved c = true)
             (String.list_ascii_of_string (base64UrlEncode buffer))
    ∧ ∀ (crypto : WebCrypto) (codeVerifier : string),
        length (sha256 (TextEncoder_encode codeVerifier)) = 32%nat →
        String.length (generateCodeChallenge codeVerifier) = 43%nat.
Proof.
  assert (Hlen : ∀ buffer,
            String.length (base64UrlEncode buffer) = Nat.div (8 * length buffer + 5) 6).
  { intros buffer. rewrite PkceFacts.base64UrlEncode_correct. unfold base64url_nopad.
    by rewrite length_string_of_list_ascii, length_map, groups_of_6_count, bits_length. }
  intros buffer. split_and!.
  - apply Hlen.
  - rewrite PkceFacts.base64UrlEncode_correct. unfold base64url_nopad.
    rewrite String.list_ascii_of_string_of_list_ascii.
    apply Forall_map. eapply Forall_impl; [apply PkceFacts.groups_of_6_length|].
    intros g Hg. by apply url_char_in_alphabet.
  - intros crypto codeVerifier Hdigest. unfold generateCodeChallenge. cbv zeta.
    by rewrite Hlen, Hdigest.
Qed.

End PkceMore.


(** ** The detection of the region *)
Module RegionFacts.
Import Minapps JsString Region.

Section RegionFacts.
Context `{MainProcess} `{StringPrototype}.

Lemma detectUserRegion_cached (m : ModuleState) :
  detectUserRegion (snd (detectUserRegion m)) = detectUserRegion m.
Proof.
  unfold detectUserRegion. destruct (regionDetectionPromise m) eqn:Hp; simpl.
  - by rewrite Hp.
  - reflexivity.
Qed.

Lemma detectUserRegion_settled (m : ModuleState) :
  snd (detectUserRegion (snd (detectUserRegion m))) = snd (detectUserRegion m).
Proof. by rewrite detectUserRegion_cached. Qed.

Lemma initRegion_step (initiated : bool) (st : Store) (m : ModuleState) :
  (initRegion initiated st m = (initiated, None, m))
  ∨ (minAppRegion st = Auto ∧ detectedRegion st = None
     ∧ initRegion initiated st m
       = (true, Some (fst (detectUserRegion m)), snd (detectUserRegion m))).
Proof.
  unfold initRegion.
  destruct (minAppRegion st); [|by left].
  destruct (detectedRegion st); [by left|].
  destruct initiated; [by left|].
  right. simpl. by destruct (detectUserRegion m).
Qed.

Lemma initRegion_runs (st : Store) (refs : list bool)
      (ds : list (option SupportedRegion)) (m : ModuleState) :
  let run :=
    fold_left
      (fun acc initiated =>
         (fst acc ++ [snd (fst (initRegion initiated st (snd acc)))],
          snd (initRegion initiated st (snd acc))))
      refs (ds, m) in
  ∃ ds', fst run = ds ++ ds'
         ∧ ((snd run = m ∧ Forall (fun d => d = None) ds')
            ∨ (snd run = snd (detectUserRegion m)
               ∧ Forall (fun d => d = None ∨ d = Some (fst (detectUserRegion m))) ds'))
         ∧ (minAppRegion st ≠ Auto ∨ detectedRegion st ≠ None →
            snd run = m ∧ Forall (fun d => d = None) ds').
Proof.
  revert ds m. induction refs as [|h refs IH]; intros ds m run.
  - exists []. subst run. simpl. rewrite app_nil_r. split_and!; [done|by left|done].
  - subst run. cbn [fold_left fst snd].
    destruct (initRegion_step h st m) as [Hskip|(Hauto & Hnone & Hrun)].
    + rewrite Hskip. cbn [fst snd].
      destruct (IH (ds ++ [None]) m) as (ds' & Hds & Hcases & Hmanual).
      exists (None :: ds'). rewrite Hds, <- app_assoc. split_and!; [done| |].
      * destruct Hcases as [[Hm Hall]|[Hm Hall]]; [left|right];
          (split; [done|constructor; [auto|done]]).
      * intros Hman. destruct (Hmanual Hman) as [Hm Hall].
        split; [done|by constructor].
    + rewrite Hrun. cbn [fst snd].
      destruct (IH (ds ++ [Some (fst (detectUserRegion m))]) (snd (detectUserRegion m)))
        as (ds' & Hds & Hcases & _).
      exists (Some (fst (detectUserRegion m)) :: ds'). rewrite Hds, <- app_assoc.
      split_and!; [done| |].
      * right. rewrite detectUserRegion_cached in Hcases.
        destruct Hcases as [[Hm Hall]|[Hm Hall]].
        -- split; [done|]. constructor; [by right|].
           eapply Forall_impl; [exact Hall|]. intros d ->. by left.
        -- split; [done|]. constructor; [by right|done].
      * intros [Hman|Hman]; congruence.
Qed.

End RegionFacts.

(** X26 — one IP lookup for all.  The first call of [detectUserRegion]
    makes at most one IPC call; after it, any number of further calls make
    none, leave the module as it is and give the same region. *)
Theorem region_detection_is_shared :
  ∀ (mp : MainProcess) (sp : StringPrototype) (m : ModuleState) (n : nat),
    let m1 := snd (detectUserRegion m) in
    let mn := Nat.iter n (fun s => snd (detectUserRegion s)) m1 in
    (ipc_calls m1 ≤ S (ipc_calls m))%nat
    ∧ mn = m1
    ∧ detectUserRegion mn = (fst (detectUserRegion m), m1).
Proof.
  intros mp sp m n m1 mn.
  assert (Hmn : mn = m1).
  { subst mn. induction n as [|n IH]; [done|].
    rewrite Nat.iter_succ, IH. apply detectUserRegion_settled. }
  split_and!.
  - subst m1. unfold detectUserRegion. destruct (regionDetectionPromise m); simpl; lia.
  - exact Hmn.
  - rewrite Hmn. subst m1. rewrite detectUserRegion_cached.
    by destruct (detectUserRegion m).
Qed.

(** X27 — one lookup for all the instances of the hook.  However many
    instances run [initRegion] against the same store, at most one IPC call
    is made and every [setDetectedRegion] that is dispatched carries the same
    region; with a manual region or a region already in the store, no call
    is made and nothing is dispatched. *)
Theorem one_lookup_for_all_instances :
  ∀ (mp : MainProcess) (sp : StringPrototype) (st : Store) (m : ModuleState)
    (refs : list bool),
    let run :=
      fold_left
        (fun acc initiated =>
           (fst acc ++ [snd (fst (initRegion initiated st (snd acc)))],
            snd (initRegion initiated st (snd acc))))
        refs ([], m) in
    (ipc_calls (snd run) ≤ S (ipc_calls m))%nat
    ∧ (∀ a b, Some a ∈ fst run → Some b ∈ fst run → a = b)
    ∧ (minAppRegion st ≠ Auto ∨ detectedRegion st ≠ None →
       snd run = m ∧ Forall (fun d => d = None) (fst run)).
Proof.
  intros mp sp st m refs run.
  destruct (initRegion_runs st refs [] m) as (ds' & Hds & Hcases & Hmanual).
  fold run in Hds, Hcases, Hmanual. cbn [app] in Hds. rewrite Hds. split_and!.
  - destruct Hcases as [[-> _]|[-> _]]; [lia|].
    unfold detectUserRegion. destruct (regionDetectionPromise m); simpl; lia.
  - intros a b Ha Hb. destruct Hcases as [[_ Hall]|[_ Hall]].
    + rewrite Forall_forall in Hall. by specialize (Hall _ Ha).
    + rewrite Forall_forall in Hall.
      destruct (Hall _ Ha) as [?|[= ->]]; [done|].
      destruct (Hall _ Hb) as [?|[= ->]]; done.
  - exact Hmanual.
Qed.

(** X28 — a failed lookup hides nothing.  When the IPC call of the first
    detection rejects, the region that is dispatched is ['CN']; with it in
    the store, the hook in automatic mode shows every app that is not
    disabled, whatever its regions. *)
Theorem failed_detection_shows_every_app :
  ∀ (mp : MainProcess) (sp : StringPrototype) (allMinApps : list MinAppType)
    (st0 st : Store) (m m' : ModuleState) (ref : bool) (detected : SupportedRegion),
    regionDetectionPromise m = None →
    getIpCountry (ipc_calls m) = None →
    initRegion false st0 m = (ref, Some detected, m') →
    minAppRegion st = Auto →
    detectedRegion st = Some detected →
    detected = CN
    ∧ minapps allMinApps st
      = List.filter (fun app => negb (has (idSet (disabled st)) (id app)))
          (getAllApps allMinApps (enabled st) (disabled st)).
Proof.
  intros mp sp allMinApps st0 st m m' ref detected Hp Hipc Hinit Hauto Hdet.
  assert (Hcn : detected = CN).
  { unfold initRegion in Hinit.
    destruct (_ || _); [discriminate|].
    unfold detectUserRegion in Hinit. rewrite Hp, Hipc in Hinit. by injection Hinit as _ <- _. }
  split; [exact Hcn|].
  unfold minapps, effectiveRegion, filterByRegion. rewrite Hauto, Hdet, Hcn. cbn [default].
  cbv zeta. cbn [isVisibleForRegion].
  match goal with |- List.filter _ ?apps = _ => generalize apps end.
  intros apps. induction apps as [|a apps IH]; [done|].
  cbn [List.filter isVisibleForRegion default from_option Datatypes.id] in *. by f_equal.
Qed.

Lemma failed_detection_shows_every_app_witness :
  CN = CN
  ∧ minapps Samples.sample_apps
      (mkStore [Samples.cn_only_app; Samples.global_app] [] [] Auto (Some CN))
    = List.filter (fun app => negb (has (idSet []) (id app)))
        (getAllApps Samples.sample_apps [Samples.cn_only_app; Samples.global_app] []).
Proof.
  apply (failed_detection_shows_every_app MoreSamples.offline MoreSamples.ascii_strings
           Samples.sample_apps MoreSamples.auto_store
           (mkStore [Samples.cn_only_app; Samples.global_app] [] [] Auto (Some CN))
           MoreSamples.fresh_module (mkModuleState (Some CN) 1) true CN);
    reflexivity.
Defined.

End RegionFacts.


(** ** The initials of the avatar *)
Module AvatarFacts.
Import Js JsString Avatar.

Lemma substring_short (s : string) (n : nat) :
  (String.length s ≤ n)%nat → String.substring 0 n s = s.
Proof.
  revert n. induction s as [|c s IH]; intros n Hn.
  - by destruct n.
  - destruct n as [|n]; simpl in *; [lia|]. rewrite IH; [done|lia].
Qed.

Lemma substring_length_le (s : string) (n : nat) :
  (String.length (String.substring 0 n s) ≤ n)%nat.
Proof.
  revert n. induction s as [|c s IH]; intros n.
  - destruct n; simpl; lia.
  - destruct n as [|n]; simpl; [lia|]. specialize (IH n). lia.
Qed.

(** X29 — the avatar shows at most two characters.  For a non-empty name
    the initials are the upper-cased first two characters of the trimmed
    name, whether the trimmed name is short or not; the empty name gives
    ['??']; and when upper-casing keeps the length of a string, the initials
    never have more than two characters. *)
Theorem avatar_initials_are_the_upper_cased_prefix :
  ∀ (sp : StringPrototype) (name : string),
    (name = "" → getAvatarInitials name = "??")
    ∧ (name ≠ "" → getAvatarInitials name = toUpperCase (slice0 2 (trim name)))
    ∧ ((∀ s, String.length (toUpperCase s) = String.length s) →
       (String.length (getAvatarInitials name) ≤ 2)%nat).
Proof.
  intros sp name. unfold getAvatarInitials, slice0. split_and!.
  - by intros ->.
  - intros Hne. apply JsFacts.nonempty_true in Hne. rewrite Hne.
    cbv beta iota zeta delta [negb].
    destruct (Nat.leb_spec (String.length (trim name)) 2) as [Hle|Hgt]; [|done].
    by rewrite substring_short.
  - intros Hlen. destruct (nonempty name); cbv beta iota zeta delta [negb]; [|simpl; lia].
    destruct (Nat.leb_spec (String.length (trim name)) 2) as [Hle|Hgt].
    + by rewrite Hlen.
    + rewrite Hlen. apply substring_length_le.
Qed.

End AvatarFacts.


(** ** The PPIO callback *)
Module PpioFacts.
Import Js Ppio.

Section PpioFacts.
Context `{Env}.

Lemma try_finally_unfold {S A} (body : Js.M S A) (final : Js.M S unit) (w : S) :
  try_finally body final w =
  match body w with
  | (o, w1) =>
      match final w1 with
      | (Returned _, w2) => (o, w2)
      | (Thrown e, w2) => (Thrown e, w2)
      end
  end.
Proof. unfold try_finally. by destruct (body w). Qed.

Lemma ppio_reject_settles (reason : JsError) (w : World) :
  promise (snd (reject reason w)) ≠ Pending.
Proof. unfold reject. simpl. by destruct (promise w) eqn:Hp; simpl; rewrite ?Hp. Qed.

Lemma ppio_resolve_settles (value : option JSON) (w : World) :
  promise (snd (resolve value w)) ≠ Pending.
Proof. unfold resolve. simpl. by destruct (promise w) eqn:Hp; simpl; rewrite ?Hp. Qed.

Lemma ppio_reject_record (reason : JsError) (w : World) :
  requests (snd (reject reason w)) = requests w ∧ keys (snd (reject reason w)) = keys w.
Proof. unfold reject. simpl. by destruct (promise w). Qed.

Lemma ppio_resolve_record (value : option JSON) (w : World) :
  requests (snd (resolve value w)) = requests w ∧ keys (snd (resolve value w)) = keys w.
Proof. unfold resolve. simpl. by destruct (promise w). Qed.

(** What the part of the handler that follows the request leaves: a settled
    promise or an exception, no further request, and at most one key, the
    truthy [access_token] of the answer. *)
Lemma after_token_response (tokenResponse : Response) (w : World) :
  ∃ o w',
    (if negb (ok tokenResponse)
     then
       errorText <- response_text tokenResponse ;;
       throw (Error ("Failed to exchange code for token: "
                     +:+ numberToString (inject_Z (status tokenResponse))
                     +:+ " " +:+ errorText))
     else
       tokenData <- response_json tokenResponse ;;
       accessToken <- get_prop tokenData "access_token" ;;
       if truthy accessToken
       then setKey accessToken ;;; resolve accessToken
       else reject (Error "No access token received")) w = (o, w')
    ∧ requests w' = requests w
    ∧ (keys w' = keys w
       ∨ ∃ token, truthy token = true ∧ ok tokenResponse = true
                  ∧ keys w' = keys w ++ [token] ∧ o = Returned tt)
    ∧ (o = Returned tt → promise w' ≠ Pending).
Proof.
  destruct (ok tokenResponse); cbv beta iota delta [negb].
  - cbv beta iota zeta delta [bind response_json await_ get_prop setKey ret throw].
    destruct (json tokenResponse) as [tokenData|].
    2:{ eexists _, _. split; [reflexivity|]. by split_and!; [|left|]. }
    destruct (prop tokenData "access_token") as [accessToken|].
    2:{ eexists _, _. split; [reflexivity|]. by split_and!; [|left|]. }
    destruct (truthy accessToken) eqn:Htruthy.
    + match goal with
      | |- context [resolve ?a ?v] =>
          destruct (ppio_resolve_record a v) as [Hr Hk];
          pose proof (ppio_resolve_settles a v) as Hp;
          change (resolve a v) with (Returned tt, snd (resolve a v))
      end.
      eexists _, _. split; [reflexivity|].
      split_and!; [by rewrite Hr| |done].
      right. exists accessToken. by rewrite Hk.
    + match goal with
      | |- context [reject ?a ?v] =>
          destruct (ppio_reject_record a v) as [Hr Hk];
          pose proof (ppio_reject_settles a v) as Hp;
          change (reject a v) with (Returned tt, snd (reject a v))
      end.
      eexists _, _. split; [reflexivity|].
      split_and!; [by rewrite Hr|left; by rewrite Hk|done].
  - cbv beta iota zeta delta [bind response_text await_ ret throw].
    destruct (text tokenResponse);
      (eexists _, _; split; [reflexivity|]; by split_and!; [|left|]).
Qed.

(** What the handler does once the URL is parsed. *)
Lemma handler_body (url : Flow.URL) (w : World) :
  ∃ o w',
    (let params := Flow.searchParams url in
     let code := assoc "code" params in
     if negb (present code)
     then reject (Error "No authorization code received")
     else if negb (nonempty PPIO_APP_SECRET)
     then
       reject (Error "PPIO_APP_SECRET not configured. Please set RENDERER_VITE_PPIO_APP_SECRET environment variable.")
     else
       tokenResponse <- fetch (token_request (default "" code)) ;;
       if negb (ok tokenResponse)
       then
         errorText <- response_text tokenResponse ;;
         throw (Error ("Failed to exchange code for token: "
                       +:+ numberToString (inject_Z (status tokenResponse))
                       +:+ " " +:+ errorText))
       else
         tokenData <- response_json tokenResponse ;;
         accessToken <- get_prop tokenData "access_token" ;;
         if truthy accessToken
         then setKey accessToken ;;; resolve accessToken
         else reject (Error "No access token received")) w = (o, w')
    ∧ requests w'
      = requests w
        ++ (if present (assoc "code" (Flow.searchParams url)) && nonempty PPIO_APP_SECRET
            then [token_request (default "" (assoc "code" (Flow.searchParams url)))]
            else [])
    ∧ (keys w' = keys w
       ∨ ∃ token, truthy token = true ∧ keys w' = keys w ++ [token] ∧ o = Returned tt
                  ∧ present (assoc "code" (Flow.searchParams url)) = true
                  ∧ nonempty PPIO_APP_SECRET = true)
    ∧ (o = Returned tt → promise w' ≠ Pending).
Proof.
  cbv zeta.
  destruct (present (assoc "code" (Flow.searchParams url))); cbn [negb andb].
  2:{ destruct (ppio_reject_record (Error "No authorization code received") w) as [Hr Hk].
      pose proof (ppio_reject_settles (Error "No authorization code received") w) as Hp.
      change (reject ?e w) with (Returned tt, snd (reject e w)).
      eexists _, _. split; [reflexivity|].
      rewrite app_nil_r. by split_and!; [|left|]. }
  destruct (nonempty PPIO_APP_SECRET); cbn [negb andb].
  2:{ match goal with
      | |- context [reject ?a ?v] =>
          destruct (ppio_reject_record a v) as [Hr Hk];
          pose proof (ppio_reject_settles a v) as Hp;
          change (reject a v) with (Returned tt, snd (reject a v))
      end.
      eexists _, _. split; [reflexivity|].
      rewrite app_nil_r. by split_and!; [|left|]. }
  rewrite JsFacts.bind_unfold.
  set (req := token_request _).
  assert (Hfetch : ∃ o1 w1, fetch req w = (o1, w1)
                            ∧ requests w1 = requests w ++ [req] ∧ keys w1 = keys w).
  { unfold fetch, bind, await_. cbv beta iota zeta.
    destruct (fetch_answer _); by eexists _, _. }
  destruct Hfetch as (o1 & w1 & -> & Hr1 & Hk1).
  destruct o1 as [tokenResponse|e]; cbv beta iota.
  - destruct (after_token_response tokenResponse w1) as (o & w' & -> & Hr & Hk & Hp).
    exists o, w'. split; [done|]. rewrite Hr, Hr1. rewrite Hk1 in Hk.
    split_and!; [done| |done].
    destruct Hk as [Hk|(token & Ht & _ & Hk & Ho)]; [by left|].
    right. exists token. by split_and!.
  - exists (Thrown e), w1. split; [done|]. rewrite Hr1, Hk1. by split_and!; [|left|].
Qed.

End PpioFacts.

(** X30 — the PPIO callback ends the login, whatever arrives.  The handler
    never throws; when it returns the listener is removed and the promise is
    settled.  It sends at most one request, the token request for the code
    of the callback, and none when the code is missing or the application
    secret is not configured; it sets at most one key, a truthy
    [access_token].  Unlike the CherryIN handler it looks at no state
    parameter, and at neither the host nor the path of the URL. *)
Theorem ppio_callback_always_ends_the_login :
  ∀ (env : Env) (data_url : string) (w : World),
    ∃ w', onReceiveData data_url w = (Returned tt, w')
          ∧ listening w' = false
          ∧ promise w' ≠ Pending
          ∧ requests w'
            = requests w
              ++ match URL_parse data_url with
                 | Some url =>
                     if present (assoc "code" (Flow.searchParams url))
                        && nonempty PPIO_APP_SECRET
                     then [token_request
                             (default "" (assoc "code" (Flow.searchParams url)))]
                     else []
                 | None => []
                 end
          ∧ (keys w' = keys w
             ∨ ∃ token, truthy token = true ∧ keys w' = keys w ++ [token]).
Proof.
  intros env data_url w. unfold onReceiveData.
  rewrite try_finally_unfold, JsFacts.try_catch_unfold, JsFacts.bind_unfold.
  unfold new_URL. destruct (URL_parse data_url) as [url|].
  - change (ret url w) with (Returned url, w). cbv beta iota zeta.
    destruct (handler_body url w) as (o & w1 & Hrun & Hr & Hk & Hp).
    cbv zeta in Hrun. rewrite Hrun.
    destruct o as [[]|e].
    + eexists. split; [reflexivity|]. cbn. split_and!; try done; [by apply Hp|].
      destruct Hk as [Hk|(token & Ht & Hk & _)]; [by left|right; by exists token].
    + destruct (ppio_reject_record e w1) as [Hr' Hk'].
      pose proof (ppio_reject_settles e w1) as Hp'.
      change (reject e w1) with (Returned tt, snd (reject e w1)).
      eexists. split; [reflexivity|]. cbn [listening promise requests keys removeListener
                                            snd fst].
      rewrite Hr', Hk', Hr. split_and!; try done.
      destruct Hk as [Hk|(token & _ & _ & Ho & _)]; [by left|discriminate].
  - change (throw TypeError w) with (@Thrown Flow.URL TypeError, w). cbv beta iota zeta.
    destruct (ppio_reject_record TypeError w) as [Hr' Hk'].
    pose proof (ppio_reject_settles TypeError w) as Hp'.
    change (reject TypeError w) with (Returned tt, snd (reject TypeError w)).
    eexists. split; [reflexivity|]. cbn [listening promise requests keys removeListener
                                          snd fst].
    rewrite Hr', Hk', app_nil_r. split_and!; try done. by left.
Qed.

End PpioFacts.
